(** * DCP-o-matic: the package writer and the video decoder's gap filling

    A shallow embedding of [src/lib/writer.cc] and of the gap-filling part of
    [src/lib/video_decoder.cc].  Member functions become computations in a
    small state-and-exception monad over a record that holds the members the
    functions read and write; a C++ exception leaves the object as it was when
    the exception was thrown, so a thrown result still carries the state. *)

From Stdlib Require Import Ascii String.
From stdpp Require Import base numbers list gmap strings pretty sorting.

Local Open Scope Z_scope.

(** ** Exceptions and the monad *)

(** [ProgrammingError] is what a failed [DCPOMATIC_ASSERT] raises; it carries
    the line of [writer.cc] the assertion is on.  [InvalidAccess] stands for
    the use of an empty [shared_ptr] or of an index past the end of a vector.
    The last two are not C++ exceptions.  [Waiting] is the outcome of a call
    that has to wait on a condition variable until another thread changes the
    state.  [OutOfFuel] is what a bounded loop of the model yields when its
    bound is reached. *)
Inductive Exception : Type :=
| InvalidSignerError (reason : string)
| ProgrammingError (line : Z)
| InvalidAccess
| Waiting
| OutOfFuel.

Inductive Result (A : Type) : Type :=
| Returned (a : A)
| Thrown (e : Exception).
Arguments Returned {A} a.
Arguments Thrown {A} e.

Definition M (St A : Type) : Type := St → Result A * St.

Global Instance M_ret {St} : MRet (M St) := λ A a s, (Returned a, s).

Global Instance M_bind {St} : MBind (M St) := λ A B f m s,
  match m s with
  | (Returned a, s') => f a s'
  | (Thrown e, s') => (Thrown e, s')
  end.

Definition throw {St A} (e : Exception) : M St A := λ s, (Thrown e, s).

Definition get {St} : M St St := λ s, (Returned s, s).

Definition modify {St} (f : St → St) : M St unit := λ s, (Returned tt, f s).

(** Modelled from the spec: DCPOMATIC_ASSERT (dcpomatic_assert.h is not under
    src/): a failed assertion makes the call fail at once. *)
Definition DCPOMATIC_ASSERT {St} (line : Z) (b : bool) : M St unit :=
  if b then mret tt else throw (ProgrammingError line).

(** Using a [shared_ptr] that may be empty. *)
Definition deref {St A} (p : option A) : M St A :=
  match p with
  | Some a => mret a
  | None => throw InvalidAccess
  end.

Definition when {St} (b : bool) (m : M St unit) : M St unit :=
  if b then m else mret tt.

(** ** Enumerations of [types.h] *)

Inductive Eyes : Type := BOTH | LEFT | RIGHT | COUNT.

Global Instance Eyes_eq_dec : EqDecision Eyes.
Proof. solve_decision. Defined.

(** [static_cast<int> (eyes)]. *)
Definition Eyes_to_int (e : Eyes) : Z :=
  match e with BOTH => 0 | LEFT => 1 | RIGHT => 2 | COUNT => 3 end.

Inductive TextType : Type := UNKNOWN | OPEN_SUBTITLE | CLOSED_CAPTION.

(** ** Integers *)

(** The conversion of an integer to [int], which has 32 bits: the one value
    between [-2^31] and [2^31 - 1] that differs from it by a multiple of
    [2^32].  A [Frame] is a 64-bit integer; [Writer::video_reel] takes an
    [int], and the counter of the font identifiers is an [int]. *)
Definition to_int (z : Z) : Z := (z + 2 ^ 31) `mod` 2 ^ 32 - 2 ^ 31.

(** A closed-caption track: its name and its language. *)
Definition DCPTextTrack : Type := string * string.

Section Dcpomatic.

(** The number of ticks of a [DCPTime] or [ContentTime] in a second
    ([Time::HZ]; dcpomatic_time.h is not under src/). *)
Variable HZ : Z.

(** What the code only moves around: one audio frame (a sample for every
    channel), the bytes of an encoded video frame, the payload of a timed text
    and a decoded picture. *)
Variable Sample : Type.
Variable Data : Type.
Variable PlayerText : Type.
Variable Picture : Type.

(** [dcpomatic_version] and [dcpomatic_git_commit] of version.h. *)
Variable dcpomatic_version : string.
Variable dcpomatic_git_commit : string.

(** [dcp::raw_convert<int>] of libdcp; its result is used as an [int] (see
    [to_int]). *)
Variable raw_convert : string → Z.

(** ** Times *)

Definition DCPTime : Type := Z.

(** Modelled from the spec: Time::from_frames (dcpomatic_time.h is not under
    src/): the ticks that [f] frames at [r] frames a second last, in integer
    arithmetic. *)
Definition from_frames (f r : Z) : DCPTime := (f * HZ) `quot` r.

(** Modelled from the spec: Time::frames_floor (dcpomatic_time.h is not under
    src/): floor rounding of a time to a frame count, an integer division. *)
Definition frames_floor (t : DCPTime) (r : Z) : Z := (t * r) `quot` HZ.

(** Modelled from the spec: Time::frames_ceil (dcpomatic_time.h is not under
    src/): ceiling rounding of a time to a frame count. *)
Definition frames_ceil (t : DCPTime) (r : Z) : Z := - ((- (t * r)) `div` HZ).

(** Modelled from the spec: Time::frames_round (dcpomatic_time.h is not under
    src/): rounding of a time to the nearest frame, a tie going to the even
    one as [llrint] does. *)
Definition frames_round (t : DCPTime) (r : Z) : Z :=
  let q := (t * r) `div` HZ in
  let m := (t * r) `mod` HZ in
  if bool_decide (2 * m < HZ) then q
  else if bool_decide (HZ < 2 * m) then q + 1
  else if Z.even q then q else q + 1.

Record DCPTimePeriod : Type := { from : DCPTime; to : DCPTime }.

(** Modelled from the spec: TimePeriod::overlap (dcpomatic_time.h is not under
    src/): the part of a segment's period that a text's period covers, none
    when the two do not meet. *)
Definition overlap (a b : DCPTimePeriod) : option DCPTimePeriod :=
  let max_from := Z.max (from a) (from b) in
  let min_to := Z.min (to a) (to b) in
  if bool_decide (min_to ≤ max_from) then None
  else Some {| from := max_from; to := min_to |}.

(** Modelled from the spec: TimePeriod::contains (dcpomatic_time.h is not
    under src/): a segment owns the times from its start up to, not including,
    its end. *)
Definition contains (p : DCPTimePeriod) (t : DCPTime) : bool :=
  bool_decide (from p ≤ t) && bool_decide (t < to p).

(** ** Audio buffers *)

(** An [AudioBuffers] is its sequence of audio frames. *)
Definition AudioBuffers : Type := list Sample.

Definition frames (a : AudioBuffers) : Z := Z.of_nat (length a).

(** [AudioBuffers (other, frames_to_copy, read_offset)]. *)
Definition AudioBuffers_part (other : AudioBuffers) (frames_to_copy read_offset : Z)
  : AudioBuffers :=
  take (Z.to_nat frames_to_copy) (drop (Z.to_nat read_offset) other).

(** ** Segment writers *)

Record TextWrite : Type := {
  tw_text : PlayerText;
  tw_type : TextType;
  tw_track : option DCPTextTrack;
  tw_period : DCPTimePeriod
}.

(** Modelled from the spec: ReelWriter (reel_writer.cc is not under src/): a
    segment writer owns one time range and appends the audio and the texts it
    is given, in the order it is given them. *)
Record ReelWriter : Type := {
  period : DCPTimePeriod;
  sound : list Sample;
  texts : list TextWrite
}.

Definition ReelWriter_write_audio (r : ReelWriter) (a : AudioBuffers) : ReelWriter :=
  {| period := period r; sound := sound r ++ a; texts := texts r |}.

Definition ReelWriter_write_text (r : ReelWriter) (x : TextWrite) : ReelWriter :=
  {| period := period r; sound := sound r; texts := texts r ++ [x] |}.

(** ** Queue items, fonts and the film *)

Inductive QueueItemType : Type := FULL | FAKE | REPEAT.

(** [frame], the index of a frame in its segment, is an [int] (writer.h is
    not under src/): a [Frame] that is put there is converted. *)
Record QueueItem : Type := {
  type : QueueItemType;
  encoded : option Data;
  size_ : Z;
  reel : nat;
  frame : Z;
  eyes : Eyes
}.

Record LastWritten : Type := { lw_frame : Z; lw_eyes : Eyes }.

Record HangingText : Type := {
  ht_text : PlayerText;
  ht_type : TextType;
  ht_track : option DCPTextTrack;
  ht_period : DCPTimePeriod
}.

(** A font is a shared object: [font_ptr] is its identity, [font_id] what
    [Font::id()] returns. *)
Record Font : Type := { font_ptr : positive; font_id : string }.

(** What the writer asks the film for. *)
Record Film : Type := {
  three_d : bool;
  interop : bool;
  audio_frame_rate : Z;
  video_frame_rate : Z;
  film_reels : list DCPTimePeriod;
  closed_caption_tracks : list DCPTextTrack;
  content_versions : list string;
  dcp_name : string
}.

(** What the writer asks [Config::instance()] for; [signer_chain_valid] and
    [signer_chain_reason] are what [signer_chain()->valid (&reason)] gives. *)
Record Config : Type := {
  signer_chain_valid : bool;
  signer_chain_reason : string;
  dcp_creator : string;
  dcp_issuer : string
}.

(** [dcp::ContentVersion (label)], up to its fresh identifier. *)
Record ContentVersion : Type := { label_text : string }.

(** The composition descriptor, as far as [finish] fills it in here. *)
Record CPL : Type := {
  cpl_name : string;
  cpl_creator : string;
  cpl_issuer : string;
  cpl_content_versions : list ContentVersion
}.

(** What [finish] leaves on disk, in order. *)
Inductive Output : Type :=
| reel_finished (index : nat)
| digests_calculated
| xml_written (cpl : CPL)
| cover_sheet_written.

(** ** The writer *)

Record Writer : Type := {
  film : Film;
  _reels : list ReelWriter;
  _last_written : list LastWritten;
  _queue : list QueueItem;
  _queued_full_in_memory : Z;
  _maximum_frames_in_memory : Z;
  _maximum_queue_size : Z;
  _audio_reel : nat;
  _subtitle_reel : nat;
  _caption_reels : gmap DCPTextTrack nat;
  _hanging_texts : list HangingText;
  _fonts : gmap positive string;
  _chosen_interop_font : option Font;
  _have_subtitles : bool;
  _have_closed_captions : gset DCPTextTrack;
  _output : list Output
}.

Definition set_reels (v : list ReelWriter) (w : Writer) : Writer :=
  {| film := film w; _reels := v; _last_written := _last_written w;
     _queue := _queue w; _queued_full_in_memory := _queued_full_in_memory w;
     _maximum_frames_in_memory := _maximum_frames_in_memory w;
     _maximum_queue_size := _maximum_queue_size w;
     _audio_reel := _audio_reel w; _subtitle_reel := _subtitle_reel w;
     _caption_reels := _caption_reels w; _hanging_texts := _hanging_texts w;
     _fonts := _fonts w; _chosen_interop_font := _chosen_interop_font w;
     _have_subtitles := _have_subtitles w;
     _have_closed_captions := _have_closed_captions w; _output := _output w |}.

Definition set_audio_reel (v : nat) (w : Writer) : Writer :=
  {| film := film w; _reels := _reels w; _last_written := _last_written w;
     _queue := _queue w; _queued_full_in_memory := _queued_full_in_memory w;
     _maximum_frames_in_memory := _maximum_frames_in_memory w;
     _maximum_queue_size := _maximum_queue_size w;
     _audio_reel := v; _subtitle_reel := _subtitle_reel w;
     _caption_reels := _caption_reels w; _hanging_texts := _hanging_texts w;
     _fonts := _fonts w; _chosen_interop_font := _chosen_interop_font w;
     _have_subtitles := _have_subtitles w;
     _have_closed_captions := _have_closed_captions w; _output := _output w |}.

Definition set_queue (v : list QueueItem) (w : Writer) : Writer :=
  {| film := film w; _reels := _reels w; _last_written := _last_written w;
     _queue := v; _queued_full_in_memory := _queued_full_in_memory w;
     _maximum_frames_in_memory := _maximum_frames_in_memory w;
     _maximum_queue_size := _maximum_queue_size w;
     _audio_reel := _audio_reel w; _subtitle_reel := _subtitle_reel w;
     _caption_reels := _caption_reels w; _hanging_texts := _hanging_texts w;
     _fonts := _fonts w; _chosen_interop_font := _chosen_interop_font w;
     _have_subtitles := _have_subtitles w;
     _have_closed_captions := _have_closed_captions w; _output := _output w |}.

Definition set_queued_full_in_memory (v : Z) (w : Writer) : Writer :=
  {| film := film w; _reels := _reels w; _last_written := _last_written w;
     _queue := _queue w; _queued_full_in_memory := v;
     _maximum_frames_in_memory := _maximum_frames_in_memory w;
     _maximum_queue_size := _maximum_queue_size w;
     _audio_reel := _audio_reel w; _subtitle_reel := _subtitle_reel w;
     _caption_reels := _caption_reels w; _hanging_texts := _hanging_texts w;
     _fonts := _fonts w; _chosen_interop_font := _chosen_interop_font w;
     _have_subtitles := _have_subtitles w;
     _have_closed_captions := _have_closed_captions w; _output := _output w |}.

Definition set_subtitle_reel (v : nat) (w : Writer) : Writer :=
  {| film := film w; _reels := _reels w; _last_written := _last_written w;
     _queue := _queue w; _queued_full_in_memory := _queued_full_in_memory w;
     _maximum_frames_in_memory := _maximum_frames_in_memory w;
     _maximum_queue_size := _maximum_queue_size w;
     _audio_reel := _audio_reel w; _subtitle_reel := v;
     _caption_reels := _caption_reels w; _hanging_texts := _hanging_texts w;
     _fonts := _fonts w; _chosen_interop_font := _chosen_interop_font w;
     _have_subtitles := _have_subtitles w;
     _have_closed_captions := _have_closed_captions w; _output := _output w |}.

Definition set_caption_reels (v : gmap DCPTextTrack nat) (w : Writer) : Writer :=
  {| film := film w; _reels := _reels w; _last_written := _last_written w;
     _queue := _queue w; _queued_full_in_memory := _queued_full_in_memory w;
     _maximum_frames_in_memory := _maximum_frames_in_memory w;
     _maximum_queue_size := _maximum_queue_size w;
     _audio_reel := _audio_reel w; _subtitle_reel := _subtitle_reel w;
     _caption_reels := v; _hanging_texts := _hanging_texts w;
     _fonts := _fonts w; _chosen_interop_font := _chosen_interop_font w;
     _have_subtitles := _have_subtitles w;
     _have_closed_captions := _have_closed_captions w; _output := _output w |}.

Definition set_hanging_texts (v : list HangingText) (w : Writer) : Writer :=
  {| film := film w; _reels := _reels w; _last_written := _last_written w;
     _queue := _queue w; _queued_full_in_memory := _queued_full_in_memory w;
     _maximum_frames_in_memory := _maximum_frames_in_memory w;
     _maximum_queue_size := _maximum_queue_size w;
     _audio_reel := _audio_reel w; _subtitle_reel := _subtitle_reel w;
     _caption_reels := _caption_reels w; _hanging_texts := v;
     _fonts := _fonts w; _chosen_interop_font := _chosen_interop_font w;
     _have_subtitles := _have_subtitles w;
     _have_closed_captions := _have_closed_captions w; _output := _output w |}.

Definition set_fonts (v : gmap positive string) (w : Writer) : Writer :=
  {| film := film w; _reels := _reels w; _last_written := _last_written w;
     _queue := _queue w; _queued_full_in_memory := _queued_full_in_memory w;
     _maximum_frames_in_memory := _maximum_frames_in_memory w;
     _maximum_queue_size := _maximum_queue_size w;
     _audio_reel := _audio_reel w; _subtitle_reel := _subtitle_reel w;
     _caption_reels := _caption_reels w; _hanging_texts := _hanging_texts w;
     _fonts := v; _chosen_interop_font := _chosen_interop_font w;
     _have_subtitles := _have_subtitles w;
     _have_closed_captions := _have_closed_captions w; _output := _output w |}.

Definition set_chosen_interop_font (v : option Font) (w : Writer) : Writer :=
  {| film := film w; _reels := _reels w; _last_written := _last_written w;
     _queue := _queue w; _queued_full_in_memory := _queued_full_in_memory w;
     _maximum_frames_in_memory := _maximum_frames_in_memory w;
     _maximum_queue_size := _maximum_queue_size w;
     _audio_reel := _audio_reel w; _subtitle_reel := _subtitle_reel w;
     _caption_reels := _caption_reels w; _hanging_texts := _hanging_texts w;
     _fonts := _fonts w; _chosen_interop_font := v;
     _have_subtitles := _have_subtitles w;
     _have_closed_captions := _have_closed_captions w; _output := _output w |}.

Definition set_have_subtitles (v : bool) (w : Writer) : Writer :=
  {| film := film w; _reels := _reels w; _last_written := _last_written w;
     _queue := _queue w; _queued_full_in_memory := _queued_full_in_memory w;
     _maximum_frames_in_memory := _maximum_frames_in_memory w;
     _maximum_queue_size := _maximum_queue_size w;
     _audio_reel := _audio_reel w; _subtitle_reel := _subtitle_reel w;
     _caption_reels := _caption_reels w; _hanging_texts := _hanging_texts w;
     _fonts := _fonts w; _chosen_interop_font := _chosen_interop_font w;
     _have_subtitles := v; _have_closed_captions := _have_closed_captions w;
     _output := _output w |}.

Definition set_have_closed_captions (v : gset DCPTextTrack) (w : Writer) : Writer :=
  {| film := film w; _reels := _reels w; _last_written := _last_written w;
     _queue := _queue w; _queued_full_in_memory := _queued_full_in_memory w;
     _maximum_frames_in_memory := _maximum_frames_in_memory w;
     _maximum_queue_size := _maximum_queue_size w;
     _audio_reel := _audio_reel w; _subtitle_reel := _subtitle_reel w;
     _caption_reels := _caption_reels w; _hanging_texts := _hanging_texts w;
     _fonts := _fonts w; _chosen_interop_font := _chosen_interop_font w;
     _have_subtitles := _have_subtitles w; _have_closed_captions := v;
     _output := _output w |}.

Definition set_output (v : list Output) (w : Writer) : Writer :=
  {| film := film w; _reels := _reels w; _last_written := _last_written w;
     _queue := _queue w; _queued_full_in_memory := _queued_full_in_memory w;
     _maximum_frames_in_memory := _maximum_frames_in_memory w;
     _maximum_queue_size := _maximum_queue_size w;
     _audio_reel := _audio_reel w; _subtitle_reel := _subtitle_reel w;
     _caption_reels := _caption_reels w; _hanging_texts := _hanging_texts w;
     _fonts := _fonts w; _chosen_interop_font := _chosen_interop_font w;
     _have_subtitles := _have_subtitles w;
     _have_closed_captions := _have_closed_captions w; _output := v |}.

(** ** [Writer::write (shared_ptr<const AudioBuffers>, DCPTime)] *)

(** [_audio_reel->write (audio)]: the segment under the cursor appends the
    buffer; an empty pointer cannot be written. *)
Definition audio_reel_write (audio : option AudioBuffers) : M Writer unit :=
  a ← deref audio;
  modify (λ w, set_reels (alter (λ r, ReelWriter_write_audio r a) (_audio_reel w) (_reels w)) w).

(** The loop [while (t < end)].  Every turn either ends the loop or moves the
    cursor to the next segment, so [fuel] bounds the turns. *)
Fixpoint write_audio_loop (fuel : nat) (audio : option AudioBuffers) (t end_ : DCPTime)
  : M Writer unit :=
  if bool_decide (t < end_) then
    match fuel with
    | O => throw OutOfFuel
    | S fuel' =>
      w ← get;
      match _reels w !! _audio_reel w with
      | None =>
        (* This audio is off the end of the last reel; ignore it *)
        mret tt
      | Some r =>
        let afr := audio_frame_rate (film w) in
        if bool_decide (end_ ≤ to (period r)) then
          (* Easy case: we can write all the audio to this reel *)
          audio_reel_write audio;;
          write_audio_loop fuel' audio end_ end_
        else if bool_decide (to (period r) ≤ t) then
          (* This reel is entirely before the start of our audio *)
          modify (set_audio_reel (S (_audio_reel w)));;
          write_audio_loop fuel' audio t end_
        else
          (* This audio is over a reel boundary *)
          let part_lengths0 := to (period r) - t in
          let part_lengths1 := end_ - to (period r) in
          let part_frames0 := frames_ceil part_lengths0 afr in
          let part_frames1 := frames_floor part_lengths1 afr in
          a ← deref audio;
          DCPOMATIC_ASSERT 295 (bool_decide (part_frames0 + part_frames1 ≤ frames a));;
          when (bool_decide (part_frames0 ≠ 0))
            (audio_reel_write (Some (AudioBuffers_part a part_frames0 0)));;
          let audio' :=
            if bool_decide (part_frames1 ≠ 0)
            then Some (AudioBuffers_part a part_frames1 part_frames0)
            else None in
          modify (set_audio_reel (S (_audio_reel w)));;
          write_audio_loop fuel' audio' (t + part_lengths0) end_
      end
    end
  else mret tt.

Definition write_audio (audio : option AudioBuffers) (time : DCPTime) : M Writer unit :=
  DCPOMATIC_ASSERT 259 (bool_decide (is_Some audio));;
  a ← deref audio;
  w ← get;
  let afr := audio_frame_rate (film w) in
  let end_ := time + from_frames (frames a) afr in
  write_audio_loop (S (length (_reels w) - _audio_reel w)) audio time end_.

(** ** [Writer::Writer] *)

(** Modelled from the spec: LastWritten's constructor (writer.h is not under
    src/): before anything is written a segment has no last frame, which
    frame [-1] of the right eye stands for, so that frame [0] continues it. *)
Definition LastWritten_new : LastWritten := {| lw_frame := -1; lw_eyes := RIGHT |}.

Definition ReelWriter_new (p : DCPTimePeriod) : ReelWriter :=
  {| period := p; sound := []; texts := [] |}.

(** The members as the initialisers and the body of the constructor leave
    them: a segment writer for every segment of the film, nothing written,
    an empty queue, and every cursor on the first segment. *)
Definition Writer_init (f : Film) : Writer :=
  let reels := film_reels f in
  {| film := f;
     _reels := ReelWriter_new <$> reels;
     _last_written := replicate (length reels) LastWritten_new;
     _queue := [];
     _queued_full_in_memory := 0;
     _maximum_frames_in_memory := 8;
     _maximum_queue_size := 8;
     _audio_reel := 0;
     _subtitle_reel := 0;
     _caption_reels := list_to_map ((λ i, (i, 0%nat)) <$> closed_caption_tracks f);
     _hanging_texts := [];
     _fonts := ∅;
     _chosen_interop_font := None;
     _have_subtitles := false;
     _have_closed_captions := ∅;
     _output := [] |}.

Definition Writer_new (f : Film) (config : Config) : Result Writer :=
  (* Check that the signer is OK *)
  if negb (signer_chain_valid config)
  then Thrown (InvalidSignerError (signer_chain_reason config))
  else Returned (Writer_init f).

(** ** [Writer::video_reel] *)

(** The loop [while (i < _reels.size() && !_reels[i].period().contains (t))]. *)
Fixpoint video_reel_from (reels : list ReelWriter) (t : DCPTime) (i : nat) : nat :=
  match reels with
  | [] => i
  | r :: reels' => if contains (period r) t then i else video_reel_from reels' t (S i)
  end.

Definition video_reel (frame : Z) : M Writer nat :=
  w ← get;
  let t := from_frames frame (video_frame_rate (film w)) in
  let i := video_reel_from (_reels w) t 0 in
  DCPOMATIC_ASSERT 977 (bool_decide (i < length (_reels w))%nat);;
  mret i.

(** Modelled from the spec: ReelWriter::start (reel_writer.cc is not under
    src/): the frame index of the segment's start, which the offset of a
    frame in its segment is counted from. *)
Definition ReelWriter_start (f : Film) (r : ReelWriter) : Z :=
  frames_floor (from (period r)) (video_frame_rate f).

(** ** [Writer::write (shared_ptr<const Data>, Frame, Eyes)] *)

Definition write_video (encoded_ : option Data) (frame_ : Z) (eyes_ : Eyes)
  : M Writer unit :=
  w ← get;
  if bool_decide (_maximum_frames_in_memory w < _queued_full_in_memory w) then
    (* There are too many full frames in memory; wait until the writer thread
       sorts everything out *)
    throw Waiting
  else
    qi_reel ← video_reel (to_int frame_);
    r ← deref (_reels w !! qi_reel);
    let qi_frame := to_int (frame_ - ReelWriter_start (film w) r) in
    DCPOMATIC_ASSERT 156
      ((three_d (film w) && bool_decide (eyes_ ≠ BOTH))
       || (negb (three_d (film w)) && bool_decide (eyes_ = BOTH)));;
    let qi := {| type := FULL; encoded := encoded_; size_ := 0;
                 reel := qi_reel; frame := qi_frame; eyes := eyes_ |} in
    modify (λ w, set_queue (_queue w ++ [qi]) w);;
    modify (λ w, set_queued_full_in_memory (_queued_full_in_memory w + 1) w).

(** ** The order of the queue and [Writer::have_sequenced_image_at_queue_head] *)

(** [operator< (QueueItem const &, QueueItem const &)]. *)
Definition QueueItem_lt (a b : QueueItem) : bool :=
  if bool_decide (reel a ≠ reel b) then bool_decide (reel a < reel b)%nat
  else if bool_decide (frame a ≠ frame b) then bool_decide (frame a < frame b)
  else bool_decide (Eyes_to_int (eyes a) < Eyes_to_int (eyes b)).

(** [_queue.sort ()]: the sort of [std::list], which keeps the order of the
    items that [operator<] does not tell apart. *)
Fixpoint queue_insert (x : QueueItem) (l : list QueueItem) : list QueueItem :=
  match l with
  | [] => [x]
  | y :: l' => if QueueItem_lt y x then y :: queue_insert x l' else x :: y :: l'
  end.

Fixpoint queue_sort (l : list QueueItem) : list QueueItem :=
  match l with
  | [] => []
  | x :: l' => queue_insert x (queue_sort l')
  end.

(** [Writer::LastWritten::next]. *)
Definition LastWritten_next (lw : LastWritten) (qi : QueueItem) : bool :=
  if bool_decide (eyes qi = BOTH) then
    (* 2D *)
    bool_decide (frame qi = lw_frame lw + 1)
  else
    (* 3D *)
    if bool_decide (lw_eyes lw = LEFT) && bool_decide (frame qi = lw_frame lw)
       && bool_decide (eyes qi = RIGHT) then true
    else if bool_decide (lw_eyes lw = RIGHT) && bool_decide (frame qi = lw_frame lw + 1)
       && bool_decide (eyes qi = LEFT) then true
    else false.

Definition have_sequenced_image_at_queue_head : M Writer bool :=
  w ← get;
  if bool_decide (_queue w = []) then mret false
  else
    modify (set_queue (queue_sort (_queue w)));;
    f ← deref (head (queue_sort (_queue w)));
    lw ← deref (_last_written w !! reel f);
    mret (LastWritten_next lw f).

(** ** [Writer::write_hanging_text] *)

Definition HangingText_write (h : HangingText) : TextWrite :=
  {| tw_text := ht_text h; tw_type := ht_type h; tw_track := ht_track h;
     tw_period := ht_period h |}.

(** One turn of the loop over [_hanging_texts]: the text is written to the
    segment when it starts where the segment starts, kept otherwise. *)
Fixpoint write_hanging_text_loop (hanging : list HangingText) (r : ReelWriter)
  : ReelWriter * list HangingText :=
  match hanging with
  | [] => (r, [])
  | i :: rest =>
    if bool_decide (from (ht_period i) = from (period r)) then
      write_hanging_text_loop rest (ReelWriter_write_text r (HangingText_write i))
    else
      let '(r', new_hanging_texts) := write_hanging_text_loop rest r in
      (r', i :: new_hanging_texts)
  end.

(** [write_hanging_text (_reels[index])]. *)
Definition write_hanging_text (index : nat) : M Writer unit :=
  w ← get;
  r ← deref (_reels w !! index);
  let '(r', new_hanging_texts) := write_hanging_text_loop (_hanging_texts w) r in
  modify (set_reels (<[index := r']> (_reels w)));;
  modify (set_hanging_texts new_hanging_texts).

(** ** [Writer::write (PlayerText, TextType, optional<DCPTextTrack>, DCPTimePeriod)] *)

(** The cursor that [reel] points to: [_subtitle_reel] or the entry of
    [_caption_reels] for a track. *)
Inductive TextCursor : Type :=
| subtitle_cursor
| caption_cursor (track : DCPTextTrack).

Definition cursor_get (c : TextCursor) (w : Writer) : option nat :=
  match c with
  | subtitle_cursor => Some (_subtitle_reel w)
  | caption_cursor track => _caption_reels w !! track
  end.

Definition cursor_set (c : TextCursor) (v : nat) (w : Writer) : Writer :=
  match c with
  | subtitle_cursor => set_subtitle_reel v w
  | caption_cursor track => set_caption_reels (<[track := v]> (_caption_reels w)) w
  end.

Definition select_text_cursor (type_ : TextType) (track : option DCPTextTrack)
  : M Writer TextCursor :=
  match type_ with
  | OPEN_SUBTITLE =>
    modify (set_have_subtitles true);;
    mret subtitle_cursor
  | CLOSED_CAPTION =>
    DCPOMATIC_ASSERT 815 (bool_decide (is_Some track));;
    tr ← deref track;
    w ← get;
    DCPOMATIC_ASSERT 816 (bool_decide (is_Some (_caption_reels w !! tr)));;
    modify (λ w, set_have_closed_captions ({[tr]} ∪ _have_closed_captions w) w);;
    mret (caption_cursor tr)
  | UNKNOWN =>
    DCPOMATIC_ASSERT 821 false;;
    mret subtitle_cursor
  end.

(** The loop that moves the cursor while the segment under it ends at or
    before [period.from]; every turn moves the cursor one segment on. *)
Fixpoint advance_text_reel (fuel : nat) (c : TextCursor) (period_from : DCPTime)
  : M Writer unit :=
  w ← get;
  i ← deref (cursor_get c w);
  r ← deref (_reels w !! i);
  if bool_decide (to (period r) ≤ period_from) then
    match fuel with
    | O => throw OutOfFuel
    | S fuel' =>
      modify (cursor_set c (S i));;
      DCPOMATIC_ASSERT 827 (bool_decide (S i < length (_reels w))%nat);;
      write_hanging_text (S i);;
      advance_text_reel fuel' c period_from
    end
  else mret tt.

(** The lambda [back_off]. *)
Definition back_off (f : Film) (p : DCPTimePeriod) : DCPTimePeriod :=
  {| from := from p; to := to p - from_frames 2 (video_frame_rate f) |}.

(** The loop over the segments after the cursor, up to [_reels.end()]. *)
Fixpoint hanging_parts (f : Film) (text : PlayerText) (type_ : TextType)
    (track : option DCPTextTrack) (p : DCPTimePeriod) (later : list ReelWriter)
  : list HangingText :=
  match later with
  | [] => []
  | i :: rest =>
    match overlap (period i) p with
    | Some o =>
      {| ht_text := text; ht_type := type_; ht_track := track;
         ht_period := back_off f o |} :: hanging_parts f text type_ track p rest
    | None => hanging_parts f text type_ track p rest
    end
  end.

(** What follows the loop that moves the cursor. *)
Definition write_text_at (c : TextCursor) (text : PlayerText) (type_ : TextType)
    (track : option DCPTextTrack) (p : DCPTimePeriod) : M Writer unit :=
  w ← get;
  i ← deref (cursor_get c w);
  r ← deref (_reels w !! i);
  p' ←
    (if bool_decide (to (period r) < to p) then
       (* This text goes off the end of the reel *)
       modify (λ w, set_hanging_texts
                 (_hanging_texts w
                  ++ hanging_parts (film w) text type_ track p (drop (S i) (_reels w))) w);;
       mret (back_off (film w) {| from := from p; to := to (period r) |})
     else mret p);
  modify (λ w, set_reels
            (alter (λ r, ReelWriter_write_text r
                     {| tw_text := text; tw_type := type_; tw_track := track;
                        tw_period := p' |}) i (_reels w)) w).

Definition write_text (text : PlayerText) (type_ : TextType)
    (track : option DCPTextTrack) (p : DCPTimePeriod) : M Writer unit :=
  c ← select_text_cursor type_ track;
  w ← get;
  i ← deref (cursor_get c w);
  DCPOMATIC_ASSERT 824 (bool_decide (i < length (_reels w))%nat);;
  advance_text_reel (length (_reels w)) c (from p);;
  write_text_at c text type_ track p.

(** ** [Writer::write (vector<shared_ptr<Font>>)] *)

(** The lambda [fix_id]: fonts may come in with empty IDs. *)
Definition fix_id (id : string) : string :=
  if bool_decide (id = "") then "font" else id.

(** [s.find_last_of (c)]; [None] is [string::npos]. *)
Fixpoint find_last_of (c : ascii) (s : string) : option nat :=
  match s with
  | EmptyString => None
  | String a s' =>
    match find_last_of c s' with
    | Some i => Some (S i)
    | None => if bool_decide (a = c) then Some 0%nat else None
    end
  end.

Definition isdigit (a : ascii) : bool :=
  bool_decide (48 ≤ nat_of_ascii a)%nat && bool_decide (nat_of_ascii a ≤ 57)%nat.

Fixpoint all_digits (s : string) : bool :=
  match s with
  | EmptyString => true
  | String a s' => isdigit a && all_digits s'
  end.

(** [s.substr (pos)]. *)
Fixpoint substr_from (pos : nat) (s : string) : string :=
  match pos, s with
  | O, _ => s
  | S pos', String _ s' => substr_from pos' s'
  | S _, EmptyString => EmptyString
  end.

(** [s.substr (0, n)]. *)
Fixpoint substr_to (n : nat) (s : string) : string :=
  match n, s with
  | S n', String a s' => String a (substr_to n' s')
  | _, _ => EmptyString
  end.

(** The lambda [underscore_number_position]: the index of a [_N] at the end of
    a string, or [string::npos]. *)
Definition underscore_number_position (s : string) : option nat :=
  match find_last_of "_"%char s with
  | None => None
  | Some last_underscore =>
    if all_digits (substr_from (S last_underscore) s) then Some last_underscore
    else None
  end.

(** [++end] on a [size_t]: [string::npos] is the largest one and wraps. *)
Definition position_succ (pos : option nat) : nat :=
  match pos with
  | Some i => S i
  | None => 0
  end.

(** [id.substr (0, end - 1)]; with [end] at [0] the count wraps to
    [string::npos], which takes the whole string. *)
Definition substr_before (end_ : nat) (id : string) : string :=
  match end_ with
  | O => id
  | S n => substr_to n id
  end.

(** [String::compose ("%1_%2", a, number)]. *)
Definition compose_id (a : string) (number : Z) : string :=
  a +:+ "_" +:+ pretty number.

(** The loop that increments the suffix until it finds a unique one.  It
    leaves the loop at the first identifier that is not in [used_ids]; [fuel]
    bounds the turns.  [number] is an [int]: [++number] at the largest [int]
    gives the least one. *)
Fixpoint increment_suffix (fuel : nat) (used_ids : gset string) (end_ : nat)
    (number : Z) (id : string) : option string :=
  if bool_decide (id ∈ used_ids) then
    match fuel with
    | O => None
    | S fuel' =>
      let number' := to_int (number + 1) in
      increment_suffix fuel' used_ids end_ number'
        (compose_id (substr_before end_ id) number')
    end
  else Some id.

(** The [else] branch of the loop over the fonts, for an identifier that is
    already used. *)
Definition unique_id (used_ids : gset string) (id : string) : option string :=
  let end0 := underscore_number_position id in
  let id1 := if end0 is None then id +:+ "_0" else id in
  let end1 := if end0 is None then underscore_number_position id1 else end0 in
  let end_ := position_succ end1 in
  let number := to_int (raw_convert (substr_from end_ id1)) in
  increment_suffix (S (size used_ids)) used_ids end_ number id1.

(** The loop over the fonts of a package that is not Interop. *)
Fixpoint write_fonts_smpte (fonts : list Font) (used_ids : gset string)
  : M Writer (gset string) :=
  match fonts with
  | [] => mret used_ids
  | font :: rest =>
    let id := fix_id (font_id font) in
    if bool_decide (id ∉ used_ids) then
      (* This ID is unique so we can just use it as-is *)
      modify (λ w, set_fonts (<[font_ptr font := id]> (_fonts w)) w);;
      modify (λ w, set_fonts (<[font_ptr font := id]> (_fonts w)) w);;
      write_fonts_smpte rest ({[id]} ∪ used_ids)
    else
      match unique_id used_ids id with
      | None => throw OutOfFuel
      | Some id' =>
        modify (λ w, set_fonts (<[font_ptr font := id']> (_fonts w)) w);;
        write_fonts_smpte rest ({[id']} ∪ used_ids)
      end
  end.

(** The loop over the fonts of an Interop package. *)
Fixpoint write_fonts_interop (fonts : list Font) (id : string) : M Writer unit :=
  match fonts with
  | [] => mret tt
  | font :: rest =>
    modify (λ w, set_fonts (<[font_ptr font := id]> (_fonts w)) w);;
    write_fonts_interop rest id
  end.

Definition write_fonts (fonts : list Font) : M Writer unit :=
  match fonts with
  | [] => mret tt
  | first :: _ =>
    w ← get;
    if interop (film w) then
      write_fonts_interop fonts (fix_id (font_id first));;
      modify (set_chosen_interop_font (Some first))
    else
      used_ids ← write_fonts_smpte fonts ∅;
      w ← get;
      DCPOMATIC_ASSERT 925 (bool_decide (size (_fonts w) = size used_ids))
  end.

(** ** [Writer::finish] *)

Fixpoint for_each {St A} (l : list A) (body : A → M St unit) : M St unit :=
  match l with
  | [] => mret tt
  | x :: l' => body x;; for_each l' body
  end.

Definition emit (o : Output) : M Writer unit :=
  modify (λ w, set_output (_output w ++ [o]) w).

Definition default_creator : string :=
  "DCP-o-matic " +:+ dcpomatic_version +:+ " " +:+ dcpomatic_git_commit.

(** The body of the loop of [finish] over the segments: [write_hanging_text
    (i); i.finish (output_dcp)]. *)
Definition finish_reel (i : nat) : M Writer unit :=
  write_hanging_text i;; emit (reel_finished i).

(** The parts of [finish] that decide the content versions of the composition
    and whether it is signed and written.  The writer thread has ended when
    [finish] comes to its segments. *)
Definition finish (config : Config) : M Writer unit :=
  w ← get;
  for_each (seq 0 (length (_reels w))) finish_reel;;
  emit digests_calculated;;
  let creator :=
    if bool_decide (dcp_creator config = "") then default_creator
    else dcp_creator config in
  let issuer :=
    if bool_decide (dcp_issuer config = "") then default_creator
    else dcp_issuer config in
  let cv := Build_ContentVersion <$> content_versions (film w) in
  let cv := if bool_decide (cv = []) then [Build_ContentVersion "1"] else cv in
  let cpl :=
    {| cpl_name := dcp_name (film w); cpl_creator := creator; cpl_issuer := issuer;
       cpl_content_versions := cv |} in
  (* We did check earlier, but check again here to be on the safe side *)
  if negb (signer_chain_valid config) then
    throw (InvalidSignerError (signer_chain_reason config))
  else
    emit (xml_written cpl);;
    emit cover_sheet_written.

(** ** The video decoder ([video_decoder.cc]) *)

Inductive VideoFrameType : Type :=
| VIDEO_FRAME_TYPE_2D
| VIDEO_FRAME_TYPE_3D_ALTERNATE
| VIDEO_FRAME_TYPE_3D_LEFT_RIGHT
| VIDEO_FRAME_TYPE_3D_TOP_BOTTOM
| VIDEO_FRAME_TYPE_3D_LEFT
| VIDEO_FRAME_TYPE_3D_RIGHT.

Inductive Part : Type :=
| PART_WHOLE
| PART_LEFT_HALF
| PART_RIGHT_HALF
| PART_TOP_HALF
| PART_BOTTOM_HALF.

(** An [Image] made by the decoder itself: its size and whether
    [make_black] has filled it. *)
Record Image : Type := { image_size : Z * Z; image_black : bool }.

(** An [ImageProxy] is a [RawImageProxy] around an [Image] or what a decoder
    class hands over. *)
Inductive ImageProxy : Type :=
| RawImageProxy (image : Image)
| DecodedProxy (picture : Picture).

(** A [ContentVideo]; its image is a [shared_ptr], which may be empty. *)
Record ContentVideo : Type := {
  cv_image : option ImageProxy;
  cv_eyes : Eyes;
  cv_part : Part;
  cv_frame : Z
}.

Inductive LogEntry : Type :=
| VD_receives (frame : Z).

Record VideoDecoder : Type := {
  frame_type : VideoFrameType;
  active_video_frame_rate : Z;
  _decoded : list ContentVideo;
  _last_seek_time : option Z;
  _last_seek_accurate : bool;
  _ignore : bool;
  _black_image : Image;
  _log : list LogEntry
}.

Definition set_decoded (v : list ContentVideo) (d : VideoDecoder) : VideoDecoder :=
  {| frame_type := frame_type d; active_video_frame_rate := active_video_frame_rate d;
     _decoded := v; _last_seek_time := _last_seek_time d;
     _last_seek_accurate := _last_seek_accurate d; _ignore := _ignore d;
     _black_image := _black_image d; _log := _log d |}.

Definition set_log (v : list LogEntry) (d : VideoDecoder) : VideoDecoder :=
  {| frame_type := frame_type d; active_video_frame_rate := active_video_frame_rate d;
     _decoded := _decoded d; _last_seek_time := _last_seek_time d;
     _last_seek_accurate := _last_seek_accurate d; _ignore := _ignore d;
     _black_image := _black_image d; _log := v |}.

(** [VideoDecoder::VideoDecoder]: the black image has the size of the
    content's video. *)
Definition VideoDecoder_new (ft : VideoFrameType) (rate : Z) (video_size : Z * Z)
  : VideoDecoder :=
  {| frame_type := ft; active_video_frame_rate := rate; _decoded := [];
     _last_seek_time := None; _last_seek_accurate := true; _ignore := false;
     _black_image := {| image_size := video_size; image_black := true |};
     _log := [] |}.

(** [VideoDecoder::seek]. *)
Definition seek (s : Z) (accurate : bool) (d : VideoDecoder) : VideoDecoder :=
  {| frame_type := frame_type d; active_video_frame_rate := active_video_frame_rate d;
     _decoded := []; _last_seek_time := Some s; _last_seek_accurate := accurate;
     _ignore := _ignore d; _black_image := _black_image d; _log := _log d |}.

Definition push_back (v : ContentVideo) : M VideoDecoder unit :=
  modify (λ d, set_decoded (_decoded d ++ [v]) d).

(** [VideoDecoder::fill_one_eye]. *)
Definition fill_one_eye (from_ to_ : Z) (eye : Eyes) : M VideoDecoder unit :=
  if bool_decide (to_ = 0) then
    (* Already OK *)
    mret tt
  else
    d ← get;
    (* Fill with black, unless there's some video we can fill with *)
    let filler_image :=
      match last (_decoded d) with
      | Some back => cv_image back
      | None => Some (RawImageProxy (_black_image d))
      end in
    let filler_part :=
      match last (_decoded d) with
      | Some back => cv_part back
      | None => PART_WHOLE
      end in
    for_each (seqZ from_ (to_ - from_))
      (λ i, push_back {| cv_image := filler_image; cv_eyes := eye;
                         cv_part := filler_part; cv_frame := i |}).

(** The four locals of [fill_both_eyes] that hold what to fill with. *)
Record Fillers : Type := {
  filler_left_image : option ImageProxy;
  filler_right_image : option ImageProxy;
  filler_left_part : Part;
  filler_right_part : Part
}.

(** The loop of [fill_both_eyes] that goes back over [_decoded]; [rdecoded] is
    what is left to visit, the most recent first. *)
Fixpoint find_fillers (rdecoded : list ContentVideo) (f : Fillers) : Fillers :=
  match rdecoded with
  | [] => f
  | i :: rest =>
    let f' :=
      if bool_decide (cv_eyes i = LEFT) && bool_decide (filler_left_image f = None) then
        {| filler_left_image := cv_image i; filler_right_image := filler_right_image f;
           filler_left_part := cv_part i; filler_right_part := filler_right_part f |}
      else if bool_decide (cv_eyes i = RIGHT) && bool_decide (filler_right_image f = None) then
        {| filler_left_image := filler_left_image f; filler_right_image := cv_image i;
           filler_left_part := filler_left_part f; filler_right_part := cv_part i |}
      else f in
    if bool_decide (filler_left_image f' ≠ None) && bool_decide (filler_right_image f' ≠ None)
    then f'
    else find_fillers rest f'
  end.

(** The loop [while (filler_frame != to || filler_eye != eye)]. *)
Fixpoint fill_both_eyes_loop (fuel : nat) (f : Fillers) (filler_frame : Z)
    (filler_eye : Eyes) (to_ : Z) (eye : Eyes) : M VideoDecoder unit :=
  if bool_decide (filler_frame ≠ to_) || bool_decide (filler_eye ≠ eye) then
    match fuel with
    | O => throw OutOfFuel
    | S fuel' =>
      push_back
        {| cv_image := if bool_decide (filler_eye = LEFT) then filler_left_image f
                       else filler_right_image f;
           cv_eyes := filler_eye;
           cv_part := if bool_decide (filler_eye = LEFT) then filler_left_part f
                      else filler_right_part f;
           cv_frame := filler_frame |};;
      if bool_decide (filler_eye = LEFT) then
        fill_both_eyes_loop fuel' f filler_frame RIGHT to_ eye
      else
        fill_both_eyes_loop fuel' f (filler_frame + 1) LEFT to_ eye
    end
  else mret tt.

(** [VideoDecoder::fill_both_eyes]. *)
Definition fill_both_eyes (from_ to_ : Z) (eye : Eyes) : M VideoDecoder unit :=
  if bool_decide (to_ = 0) && bool_decide (eye = LEFT) then
    (* Already OK *)
    mret tt
  else
    d ← get;
    (* Fill with black, unless there's some video we can fill with *)
    let black := Some (RawImageProxy (_black_image d)) in
    let f := find_fillers (reverse (_decoded d))
               {| filler_left_image := black; filler_right_image := black;
                  filler_left_part := PART_WHOLE; filler_right_part := PART_WHOLE |} in
    let '(filler_frame, filler_eye) :=
      match last (_decoded d) with
      | None => (0, LEFT)
      | Some back =>
        if bool_decide (cv_eyes back = LEFT) then (cv_frame back, RIGHT)
        else if bool_decide (cv_eyes back = RIGHT) then (cv_frame back + 1, LEFT)
        else (from_, cv_eyes back)
      end in
    fill_both_eyes_loop (Z.to_nat (2 * (to_ - filler_frame) + 2)) f
      filler_frame filler_eye to_ eye.

(** What [give] is going to push into [_decoded]. *)
Definition to_push (d : VideoDecoder) (image : option ImageProxy) (frame_ : Z)
  : list ContentVideo :=
  match frame_type d with
  | VIDEO_FRAME_TYPE_2D =>
    [ {| cv_image := image; cv_eyes := BOTH; cv_part := PART_WHOLE; cv_frame := frame_ |} ]
  | VIDEO_FRAME_TYPE_3D_ALTERNATE =>
    let same :=
      match last (_decoded d) with
      | Some back => bool_decide (frame_ = cv_frame back)
      | None => false
      end in
    [ {| cv_image := image; cv_eyes := if same then RIGHT else LEFT;
         cv_part := PART_WHOLE; cv_frame := frame_ |} ]
  | VIDEO_FRAME_TYPE_3D_LEFT_RIGHT =>
    [ {| cv_image := image; cv_eyes := LEFT; cv_part := PART_LEFT_HALF; cv_frame := frame_ |};
      {| cv_image := image; cv_eyes := RIGHT; cv_part := PART_RIGHT_HALF; cv_frame := frame_ |} ]
  | VIDEO_FRAME_TYPE_3D_TOP_BOTTOM =>
    [ {| cv_image := image; cv_eyes := LEFT; cv_part := PART_TOP_HALF; cv_frame := frame_ |};
      {| cv_image := image; cv_eyes := RIGHT; cv_part := PART_BOTTOM_HALF; cv_frame := frame_ |} ]
  | VIDEO_FRAME_TYPE_3D_LEFT =>
    [ {| cv_image := image; cv_eyes := LEFT; cv_part := PART_WHOLE; cv_frame := frame_ |} ]
  | VIDEO_FRAME_TYPE_3D_RIGHT =>
    [ {| cv_image := image; cv_eyes := RIGHT; cv_part := PART_WHOLE; cv_frame := frame_ |} ]
  end.

(** The local [from] of [give]: the first frame that [_decoded] does not have
    yet, when that is known. *)
Definition give_from (d : VideoDecoder) : option Z :=
  match last (_decoded d), _last_seek_time d with
  | None, Some t =>
    if _last_seek_accurate d then Some (frames_round t (active_video_frame_rate d))
    else None
  | None, None => None
  | Some back, _ => Some (cv_frame back + 1)
  end.

(** [VideoDecoder::give]. *)
Definition give (image : option ImageProxy) (frame_ : Z) : M VideoDecoder unit :=
  d ← get;
  if _ignore d then mret tt
  else
    modify (λ d, set_log (_log d ++ [VD_receives frame_]) d);;
    let pushed := to_push d image frame_ in
    let from_ := give_from d in
    let to_ := frame_ in
    (* Out-of-order frames (frames before the last seek time) are ignored *)
    if (if from_ is Some f then bool_decide (to_ < f) else false) then mret tt
    else
      match from_ with
      | Some f =>
        match frame_type d with
        | VIDEO_FRAME_TYPE_2D => fill_one_eye f to_ BOTH
        | VIDEO_FRAME_TYPE_3D_LEFT_RIGHT
        | VIDEO_FRAME_TYPE_3D_TOP_BOTTOM
        | VIDEO_FRAME_TYPE_3D_ALTERNATE =>
          fill_both_eyes f to_ (default BOTH (cv_eyes <$> head pushed))
        | VIDEO_FRAME_TYPE_3D_LEFT => fill_one_eye f to_ LEFT
        | VIDEO_FRAME_TYPE_3D_RIGHT => fill_one_eye f to_ RIGHT
        end
      | None => mret tt
      end;;
      modify (λ d, set_decoded (_decoded d ++ pushed) d);;
      (* We can't let this build up too much or we will run out of memory *)
      modify (λ d, set_decoded (take 96 (_decoded d)) d).

(** ** Data for the examples *)

(** An instance of [raw_convert]: the number that a string of decimal digits
    stands for. *)
Fixpoint read_digits (acc : Z) (s : string) : Z :=
  match s with
  | EmptyString => acc
  | String c s' =>
    if isdigit c then read_digits (acc * 10 + (Z.of_nat (nat_of_ascii c) - 48)) s'
    else acc
  end.

(** A film of two segments of three seconds at 24 frames a second, in ticks of
    1/96000 s, with sound at [afr] samples a second. *)
Definition two_reel_film (is_3d is_interop : bool) (afr : Z) : Film :=
  {| three_d := is_3d; interop := is_interop;
     audio_frame_rate := afr; video_frame_rate := 24;
     film_reels := [ {| from := 0; to := 288000 |}; {| from := 288000; to := 576000 |} ];
     closed_caption_tracks := [];
     content_versions := [];
     dcp_name := "Example_FTR" |}.

Definition config_with_signer (valid : bool) : Config :=
  {| signer_chain_valid := valid; signer_chain_reason := "certificate has expired";
     dcp_creator := ""; dcp_issuer := "" |}.

(** ** What the loop over the fonts gives a font *)

(** A string of decimal digits. *)
Definition digits (d : string) : Prop :=
  Forall (λ c, (48 ≤ nat_of_ascii c ≤ 57)%nat) (list_ascii_of_string d).

(** The identifiers that are tried in turn for a font whose own identifier is
    taken, for a beginning [a] and a number [d]: [a_d] itself, and then [a]
    with the numbers that follow that of [d], counted as an [int]. *)
Definition candidate (a d : string) (j : nat) : string :=
  match j with
  | O => a +:+ "_" +:+ d
  | S _ => a +:+ "_" +:+ pretty (to_int (raw_convert d + Z.of_nat j))
  end.

(** [id] is the identifier for a font whose own one is [own], when the
    identifiers in [earlier] are taken.  The font keeps its own identifier if
    that is not taken.  Otherwise [id] is the first of the identifiers tried
    that is not taken: when [own] is some [a], an underscore and digits [d],
    these are [own] and [a] with the numbers after that of [d]; when [own] is
    not of that form, these are [own_0] and [own] with the numbers after that
    of ["0"]. *)
Definition assigned (earlier : gset string) (own id : string) : Prop :=
  (own ∉ earlier → id = own)
  ∧ (own ∈ earlier →
     ∃ (a d : string) (j : nat),
       ((own = a +:+ "_" +:+ d ∧ digits d)
        ∨ (a = own ∧ d = "0" ∧ ∀ a' d', own = a' +:+ "_" +:+ d' → ¬ digits d'))
       ∧ id = candidate a d j
       ∧ ∀ j', (j' < j)%nat → candidate a d j' ∈ earlier).

(** ** What the loop over the fonts keeps *)

(** The identifiers in the font table are the used ones, as many as the table
    has fonts, and no two fonts have the same one. *)
Definition fonts_inv (m : gmap positive string) (used_ids : gset string) : Prop :=
  map_img m = used_ids
  ∧ size m = size used_ids
  ∧ ∀ p q id, m !! p = Some id → m !! q = Some id → p = q.

(** * More of [writer.cc] *)

Definition set_last_written (v : list LastWritten) (w : Writer) : Writer :=
  {| film := film w; _reels := _reels w; _last_written := v;
     _queue := _queue w; _queued_full_in_memory := _queued_full_in_memory w;
     _maximum_frames_in_memory := _maximum_frames_in_memory w;
     _maximum_queue_size := _maximum_queue_size w;
     _audio_reel := _audio_reel w; _subtitle_reel := _subtitle_reel w;
     _caption_reels := _caption_reels w; _hanging_texts := _hanging_texts w;
     _fonts := _fonts w; _chosen_interop_font := _chosen_interop_font w;
     _have_subtitles := _have_subtitles w;
     _have_closed_captions := _have_closed_captions w; _output := _output w |}.

Global Instance QueueItemType_eq_dec : EqDecision QueueItemType.
Proof. solve_decision. Defined.

(** ** [operator== (QueueItem const &, QueueItem const &)] *)

Definition QueueItem_eq (a b : QueueItem) : bool :=
  bool_decide (reel a = reel b) && bool_decide (frame a = frame b)
  && bool_decide (eyes a = eyes b).

(** ** [Writer::can_repeat] *)

Definition can_repeat (frame_ : Z) : M Writer bool :=
  i ← video_reel (to_int frame_);
  w ← get;
  r ← deref (_reels w !! i);
  mret (bool_decide (ReelWriter_start (film w) r < frame_)).

(** ** [Writer::repeat] and [Writer::fake_write] *)

(** The wait that [repeat] and [fake_write] start with: while the queue is
    longer than [_maximum_queue_size] and its head can be written, the call
    waits for the writer thread.  The test of the head sorts the queue. *)
Definition wait_for_queue : M Writer unit :=
  w ← get;
  if bool_decide (_maximum_queue_size w < Z.of_nat (length (_queue w))) then
    sequenced ← have_sequenced_image_at_queue_head;
    if sequenced : bool then (throw Waiting : M Writer unit) else mret tt
  else mret tt.

(** The end of [repeat] and of [fake_write]: the item is queued once, or for
    the left and the right eye when the film is 3D and the frame is for both
    eyes. *)
Definition push_for_eyes (type_ : QueueItemType) (item_size : Z) (qi_reel : nat)
    (qi_frame : Z) (eyes_ : Eyes) : M Writer unit :=
  w ← get;
  let qi e := {| type := type_; encoded := None; size_ := item_size;
                 reel := qi_reel; frame := qi_frame; eyes := e |} in
  if three_d (film w) && bool_decide (eyes_ = BOTH) then
    modify (λ w, set_queue (_queue w ++ [qi LEFT]) w);;
    modify (λ w, set_queue (_queue w ++ [qi RIGHT]) w)
  else
    modify (λ w, set_queue (_queue w ++ [qi eyes_]) w).

Definition repeat (frame_ : Z) (eyes_ : Eyes) : M Writer unit :=
  wait_for_queue;;
  qi_reel ← video_reel (to_int frame_);
  w ← get;
  r ← deref (_reels w !! qi_reel);
  push_for_eyes REPEAT 0 qi_reel (to_int (frame_ - ReelWriter_start (film w) r)) eyes_.

(** [read_frame_info] stands for [_reels[reel].read_frame_info (info_file,
    frame_in_reel, eyes).size], the size that the frame-info file of the
    segment holds for the frame. *)
Definition fake_write (read_frame_info : nat → Z → Eyes → Z) (frame_ : Z) (eyes_ : Eyes)
  : M Writer unit :=
  wait_for_queue;;
  reel_ ← video_reel (to_int frame_);
  w ← get;
  r ← deref (_reels w !! reel_);
  let frame_in_reel := frame_ - ReelWriter_start (film w) r in
  push_for_eyes FAKE (read_frame_info reel_ frame_in_reel eyes_) reel_
    (to_int frame_in_reel) eyes_.

(** ** [Writer::thread] *)

(** The writer with what its thread has done: the items written to the
    segment writers, in order, the frames pushed to disk, in order, and the
    four counters. *)
Record WriterThread : Type := {
  writer : Writer;
  written : list QueueItem;
  on_disk : list QueueItem;
  _full_written : Z;
  _fake_written : Z;
  _repeat_written : Z;
  _pushed_to_disk : Z
}.

Definition set_writer (v : Writer) (t : WriterThread) : WriterThread :=
  {| writer := v; written := written t; on_disk := on_disk t;
     _full_written := _full_written t; _fake_written := _fake_written t;
     _repeat_written := _repeat_written t; _pushed_to_disk := _pushed_to_disk t |}.

(** A computation on the writer, as a step of the thread. *)
Definition on_writer {A} (m : M Writer A) : M WriterThread A := λ t,
  let '(res, w) := m (writer t) in (res, set_writer w t).

(** [Writer::LastWritten::update]. *)
Definition LastWritten_update (qi : QueueItem) : LastWritten :=
  {| lw_frame := frame qi; lw_eyes := eyes qi |}.

(** The [switch] on the type of the item: the segment writer writes it and
    the counter of its type goes up. *)
Definition reel_write_item (qi : QueueItem) (t : WriterThread) : WriterThread :=
  {| writer := writer t; written := written t ++ [qi]; on_disk := on_disk t;
     _full_written := if type qi is FULL then _full_written t + 1 else _full_written t;
     _fake_written := if type qi is FAKE then _fake_written t + 1 else _fake_written t;
     _repeat_written :=
       if type qi is REPEAT then _repeat_written t + 1 else _repeat_written t;
     _pushed_to_disk := _pushed_to_disk t |}.

(** What the thread does to the writer for the head [qi] of the queue, under
    the lock: [qi] is the last written of its segment, it leaves the queue,
    and a full frame that is in memory is no longer counted. *)
Definition take_front (qi : QueueItem) (w : Writer) : Writer :=
  let w1 := set_last_written (alter (λ _, LastWritten_update qi) (reel qi) (_last_written w)) w in
  let w2 := set_queue (tail (_queue w1)) w1 in
  if bool_decide (type qi = FULL) && bool_decide (encoded qi ≠ None)
  then set_queued_full_in_memory (_queued_full_in_memory w2 - 1) w2
  else w2.

(** The loop [while (have_sequenced_image_at_queue_head ())]: write any
    frames that we can write.  Every turn takes an item off the queue, so
    [fuel] bounds the turns. *)
Fixpoint write_sequenced (fuel : nat) : M WriterThread unit :=
  sequenced ← on_writer have_sequenced_image_at_queue_head;
  if sequenced : bool then
    match fuel with
    | O => throw OutOfFuel
    | S fuel' =>
      t ← get;
      qi ← deref (head (_queue (writer t)));
      modify (λ t, set_writer (take_front qi (writer t)) t);;
      modify (reel_write_item qi);;
      write_sequenced fuel'
    end
  else mret tt.

(** [i->encoded.reset ()]. *)
Definition encoded_reset (i : QueueItem) : QueueItem :=
  {| type := type i; encoded := None; size_ := size_ i; reel := reel i;
     frame := frame i; eyes := eyes i |}.

(** The search from the back of the queue for a full frame that is in
    memory; [rqueue] is the queue from its back.  The frame found loses its
    data. *)
Fixpoint reset_last_full (rqueue : list QueueItem) : option (QueueItem * list QueueItem) :=
  match rqueue with
  | [] => None
  | i :: rest =>
    if bool_decide (type i ≠ FULL) || bool_decide (encoded i = None) then
      '(found, rest') ← reset_last_full rest;
      Some (found, i :: rest')
    else
      Some (i, encoded_reset i :: rest)
  end.

(** The loop [while (_queued_full_in_memory > _maximum_frames_in_memory)]:
    write some FULL frames to disk. *)
Fixpoint push_to_disk (fuel : nat) : M WriterThread unit :=
  t ← get;
  let w := writer t in
  if bool_decide (_maximum_frames_in_memory w < _queued_full_in_memory w) then
    match fuel with
    | O => throw OutOfFuel
    | S fuel' =>
      (* Find one from the back of the queue *)
      let sorted := queue_sort (_queue w) in
      match reset_last_full (reverse sorted) with
      | None =>
        modify (set_writer (set_queue sorted w));;
        DCPOMATIC_ASSERT 465 false
      | Some (i, rqueue) =>
        let w' := set_queued_full_in_memory (_queued_full_in_memory w - 1)
                    (set_queue (reverse rqueue) w) in
        modify (λ t,
          {| writer := w'; written := written t; on_disk := on_disk t ++ [i];
             _full_written := _full_written t; _fake_written := _fake_written t;
             _repeat_written := _repeat_written t;
             _pushed_to_disk := _pushed_to_disk t + 1 |});;
        push_to_disk fuel'
      end
    end
  else mret tt.

(** One pass of the thread between two waits: the frames in sequence are
    written, then frames are pushed to disk until no more than
    [_maximum_frames_in_memory] are in memory.  The thread gives up its lock
    while it writes; the calls of other threads that it lets in then are
    taken to come before or after the pass. *)
Definition thread_pass : M WriterThread unit :=
  t ← get;
  write_sequenced (length (_queue (writer t)));;
  t ← get;
  push_to_disk
    (Z.to_nat (_queued_full_in_memory (writer t) - _maximum_frames_in_memory (writer t))).

(** The thread with nothing done yet. *)
Definition WriterThread_new (w : Writer) : WriterThread :=
  {| writer := w; written := []; on_disk := []; _full_written := 0;
     _fake_written := 0; _repeat_written := 0; _pushed_to_disk := 0 |}.

(** ** [Writer::set_encoder_threads] *)

(** [frames_in_memory] is what [lrint] gives for the number of threads times
    the multiplier of the configuration. *)
Definition set_encoder_threads (threads frames_in_memory : Z) (w : Writer) : Writer :=
  {| film := film w; _reels := _reels w; _last_written := _last_written w;
     _queue := _queue w; _queued_full_in_memory := _queued_full_in_memory w;
     _maximum_frames_in_memory := frames_in_memory;
     _maximum_queue_size := threads * 16;
     _audio_reel := _audio_reel w; _subtitle_reel := _subtitle_reel w;
     _caption_reels := _caption_reels w; _hanging_texts := _hanging_texts w;
     _fonts := _fonts w; _chosen_interop_font := _chosen_interop_font w;
     _have_subtitles := _have_subtitles w;
     _have_closed_captions := _have_closed_captions w; _output := _output w |}.

(** ** Predicates on what the thread writes *)

(** The items continue what was last written, one after the other. *)
Fixpoint in_sequence (lw : LastWritten) (l : list QueueItem) : Prop :=
  match l with
  | [] => True
  | qi :: l' => LastWritten_next lw qi = true ∧ in_sequence (LastWritten_update qi) l'
  end.

(** A full frame whose data is in memory. *)
Definition in_memory (qi : QueueItem) : bool :=
  bool_decide (type qi = FULL) && bool_decide (encoded qi ≠ None).

(** What an item is but for its data. *)
Definition QueueItem_key (qi : QueueItem) : QueueItemType * Z * nat * Z * Eyes :=
  (type qi, size_ qi, reel qi, frame qi, eyes qi).

(** How many items of a type, and how many full frames in memory, a list of
    items has. *)
Definition count_type (ty : QueueItemType) (l : list QueueItem) : Z :=
  Z.of_nat (length (filter (λ qi, type qi = ty) l)).

Definition count_in_memory (l : list QueueItem) : Z :=
  Z.of_nat (length (filter (λ qi, in_memory qi = true) l)).

(** ** What the queue keeps *)

(** There is a last written frame for every segment, every item of the queue
    is for a segment of the film, and the count of full frames in memory is
    the number of full frames with data in the queue. *)
Definition Writer_inv (w : Writer) : Prop :=
  length (_last_written w) = length (_reels w)
  ∧ (∀ qi, qi ∈ _queue w → (reel qi < length (_reels w))%nat)
  ∧ _queued_full_in_memory w = count_in_memory (_queue w).

(** ** What a call with audio writes *)

(** Between [w] and [w'] the segments before the audio cursor of [w] are
    left as they are and every segment from the cursor on gets a piece of
    audio, which may be empty; the pieces, in the order of the segments, are
    a beginning of [buffer]. *)
Definition written_in_pieces (w : Writer) (buffer : AudioBuffers) (w' : Writer) : Prop :=
  ∃ pieces : list AudioBuffers,
    length pieces = length (drop (_audio_reel w) (_reels w))
    ∧ _reels w' =
        take (_audio_reel w) (_reels w)
        ++ zip_with ReelWriter_write_audio (drop (_audio_reel w) (_reels w)) pieces
    ∧ concat pieces `prefix_of` buffer
    ∧ (_audio_reel w ≤ _audio_reel w')%nat.

(** ** The active area and the cover sheet of [Writer::finish] *)

(** What [finish] gives [set_main_picture_active_area] for the active area of
    the film, a width and a height; [None] when it does not call it. *)
Definition main_picture_active_area (active_area : Z * Z) : option (Z * Z) :=
  let '(width, height) := active_area in
  if bool_decide (0 < width) && bool_decide (0 < height) then
    (* the sizes must be multiples of 2 *)
    Some (Z.land width (Z.lnot 1), Z.land height (Z.lnot 1))
  else None.

(** What [write_cover_sheet] puts for [$LENGTH], from the hours, minutes and
    seconds of the length of the film. *)
Definition cover_sheet_length (h m s : Z) : string :=
  if bool_decide (h = 0) && bool_decide (m = 0) then
    pretty s +:+ "s"
  else if bool_decide (h = 0) && bool_decide (0 < m) then
    pretty m +:+ "m" +:+ pretty s +:+ "s"
  else if bool_decide (0 < h) && bool_decide (0 < m) then
    pretty h +:+ "h" +:+ pretty m +:+ "m" +:+ pretty s +:+ "s"
  else "".

(** ** The fillers of [fill_both_eyes] *)

(** The two fillers for the index [i] that the loop of [fill_both_eyes]
    pushes, for the left eye and then for the right eye. *)
Definition filler_pair (f : Fillers) (i : Z) : list ContentVideo :=
  [ {| cv_image := filler_left_image f; cv_eyes := LEFT; cv_part := filler_left_part f;
       cv_frame := i |};
    {| cv_image := filler_right_image f; cv_eyes := RIGHT; cv_part := filler_right_part f;
       cv_frame := i |} ].

(** The fillers from the black image of a decoder. *)
Definition black_fillers (d : VideoDecoder) : Fillers :=
  {| filler_left_image := Some (RawImageProxy (_black_image d));
     filler_right_image := Some (RawImageProxy (_black_image d));
     filler_left_part := PART_WHOLE; filler_right_part := PART_WHOLE |}.

(** The index and the eye of a frame that the decoder holds. *)
Definition frame_and_eyes (v : ContentVideo) : Z * Eyes := (cv_frame v, cv_eyes v).

(** The left and the right eye of [n] consecutive indices from [a] on. *)
Definition eye_pairs (a n : Z) : list (Z * Eyes) :=
  concat ((λ i, [(i, LEFT); (i, RIGHT)]) <$> seqZ a n).

(** * Properties *)

Ltac unfold_M :=
  unfold audio_reel_write, DCPOMATIC_ASSERT, when, deref, throw, get, modify,
    mbind, M_bind, mret, M_ret.

(** ** Rounding *)

Lemma frames_ceil_spec (t r : Z) :
  0 < HZ → HZ * (frames_ceil t r - 1) < t * r ≤ HZ * frames_ceil t r.
Proof.
  intros HHZ. unfold frames_ceil.
  pose proof (Z.div_mod (- (t * r)) HZ ltac:(lia)) as Hdm.
  pose proof (Z.mod_pos_bound (- (t * r)) HZ HHZ) as Hb.
  lia.
Qed.

Lemma frames_floor_spec (t r : Z) :
  0 < HZ → 0 ≤ t * r → HZ * frames_floor t r ≤ t * r < HZ * (frames_floor t r + 1).
Proof.
  intros HHZ Hnn. unfold frames_floor.
  rewrite Z.quot_div_nonneg by lia.
  pose proof (Z.div_mod (t * r) HZ ltac:(lia)) as Hdm.
  pose proof (Z.mod_pos_bound (t * r) HZ HHZ) as Hb.
  lia.
Qed.

Lemma from_frames_spec (f r : Z) :
  0 < HZ → 0 < r → 0 ≤ f → from_frames f r * r ≤ f * HZ < (from_frames f r + 1) * r.
Proof.
  intros HHZ Hr Hf. unfold from_frames.
  rewrite Z.quot_div_nonneg by lia.
  pose proof (Z.div_mod (f * HZ) r ltac:(lia)) as Hdm.
  pose proof (Z.mod_pos_bound (f * HZ) r Hr) as Hb.
  lia.
Qed.

Lemma from_frames_exact (f r : Z) :
  0 < HZ → 0 < r → 0 ≤ f → (r | HZ) → from_frames f r * r = f * HZ.
Proof.
  intros HHZ Hr Hf [k Hk]. unfold from_frames.
  assert (0 ≤ f * HZ) by (apply Z.mul_nonneg_nonneg; lia).
  rewrite Z.quot_div_nonneg by lia.
  rewrite Hk. replace (f * (k * r)) with (f * k * r) by ring.
  rewrite Z.div_mul by lia. ring.
Qed.

(** The comment above the assertion of line 295: the two parts are never more
    than the buffer holds. *)
Lemma part_frames_le (n afr a : Z) :
  0 < HZ → 0 < afr → 0 ≤ n → 0 ≤ a ≤ from_frames n afr →
  frames_ceil a afr + frames_floor (from_frames n afr - a) afr ≤ n.
Proof.
  intros HHZ Hafr Hn Ha.
  pose proof (frames_ceil_spec a afr HHZ) as Hc.
  assert (0 ≤ (from_frames n afr - a) * afr) as Hnn by (apply Z.mul_nonneg_nonneg; lia).
  pose proof (frames_floor_spec (from_frames n afr - a) afr HHZ Hnn) as Hf.
  pose proof (from_frames_spec n afr HHZ Hafr Hn) as HL.
  set (c := frames_ceil a afr) in *. set (f := frames_floor _ afr) in *.
  set (L := from_frames n afr) in *.
  assert (HZ * (c - 1 + f) < HZ * n) as Hlt by lia.
  apply Z.mul_lt_mono_pos_l in Hlt; lia.
Qed.

Lemma part_frames_eq (n afr a : Z) :
  0 < HZ → 0 < afr → 0 ≤ n → (afr | HZ) → 0 ≤ a ≤ from_frames n afr →
  frames_ceil a afr + frames_floor (from_frames n afr - a) afr = n.
Proof.
  intros HHZ Hafr Hn Hdiv Ha.
  pose proof (frames_ceil_spec a afr HHZ) as Hc.
  assert (0 ≤ (from_frames n afr - a) * afr) as Hnn by (apply Z.mul_nonneg_nonneg; lia).
  pose proof (frames_floor_spec (from_frames n afr - a) afr HHZ Hnn) as Hf.
  pose proof (from_frames_exact n afr HHZ Hafr Hn Hdiv) as HL.
  set (c := frames_ceil a afr) in *. set (f := frames_floor _ afr) in *.
  set (L := from_frames n afr) in *.
  assert (HZ * (c - 1 + f) < HZ * n) as Hlt by lia.
  assert (HZ * (n - 1) < HZ * (c + f)) as Hgt by lia.
  apply Z.mul_lt_mono_pos_l in Hlt; [|lia].
  apply Z.mul_lt_mono_pos_l in Hgt; lia.
Qed.

Lemma frames_ceil_pos (a afr : Z) :
  0 < HZ → 0 < afr → 0 < a → 0 < frames_ceil a afr.
Proof.
  intros HHZ Hafr Ha. pose proof (frames_ceil_spec a afr HHZ) as Hc.
  assert (0 < a * afr) by (apply Z.mul_pos_pos; lia).
  assert (HZ * 0 < HZ * frames_ceil a afr) as Hlt by lia.
  apply Z.mul_lt_mono_pos_l in Hlt; lia.
Qed.

Lemma frames_floor_nonneg (a afr : Z) :
  0 < HZ → 0 < afr → 0 ≤ a → 0 ≤ frames_floor a afr.
Proof.
  intros HHZ Hafr Ha.
  assert (0 ≤ a * afr) as Hnn by (apply Z.mul_nonneg_nonneg; lia).
  pose proof (frames_floor_spec a afr HHZ Hnn) as Hf.
  assert (HZ * (-1) < HZ * frames_floor a afr) as Hlt by lia.
  apply Z.mul_lt_mono_pos_l in Hlt; lia.
Qed.

(** ** Audio over a segment boundary *)

Lemma AudioBuffers_part_frames (a : AudioBuffers) (n off : Z) :
  0 ≤ n → 0 ≤ off → off + n ≤ frames a → frames (AudioBuffers_part a n off) = n.
Proof.
  unfold frames, AudioBuffers_part. intros Hn Hoff Hle.
  rewrite length_take, length_drop. lia.
Qed.

Lemma AudioBuffers_part_app (a : AudioBuffers) (n0 n1 : Z) :
  0 ≤ n0 → 0 ≤ n1 →
  AudioBuffers_part a n0 0 ++ AudioBuffers_part a n1 n0 = take (Z.to_nat (n0 + n1)) a.
Proof.
  unfold AudioBuffers_part. intros H0 H1. simpl. rewrite drop_0.
  rewrite Z2Nat.inj_add by lia. apply take_take_drop.
Qed.

(** One turn of the loop, case by case. *)

Lemma write_audio_loop_done fuel audio (t end_ : DCPTime) (w : Writer) :
  ¬ t < end_ → write_audio_loop fuel audio t end_ w = (Returned tt, w).
Proof.
  intros Hge. destruct fuel; simpl; rewrite bool_decide_eq_false_2; done.
Qed.

Lemma write_audio_loop_off_end fuel audio (t end_ : DCPTime) (w : Writer) :
  t < end_ → _reels w !! _audio_reel w = None →
  write_audio_loop (S fuel) audio t end_ w = (Returned tt, w).
Proof.
  intros Hlt Hnone. simpl. rewrite bool_decide_eq_true_2 by done.
  unfold_M. simpl. by rewrite Hnone.
Qed.

Lemma write_audio_loop_easy fuel (a : AudioBuffers) (t end_ : DCPTime) (w : Writer) r :
  t < end_ → _reels w !! _audio_reel w = Some r → end_ ≤ to (period r) →
  write_audio_loop (S fuel) (Some a) t end_ w =
    (Returned tt,
     set_reels (alter (λ r, ReelWriter_write_audio r a) (_audio_reel w) (_reels w)) w).
Proof.
  intros Hlt Hr Hend. simpl. rewrite bool_decide_eq_true_2 by done.
  unfold_M. simpl. rewrite Hr. rewrite bool_decide_eq_true_2 by done. simpl.
  apply write_audio_loop_done. lia.
Qed.

Lemma write_audio_loop_easy_null fuel (t end_ : DCPTime) (w : Writer) r :
  t < end_ → _reels w !! _audio_reel w = Some r → end_ ≤ to (period r) →
  write_audio_loop (S fuel) None t end_ w = (Thrown InvalidAccess, w).
Proof.
  intros Hlt Hr Hend. simpl. rewrite bool_decide_eq_true_2 by done.
  unfold_M. simpl. rewrite Hr. by rewrite bool_decide_eq_true_2 by done.
Qed.

Lemma write_audio_loop_skip fuel audio (t end_ : DCPTime) (w : Writer) r :
  t < end_ → _reels w !! _audio_reel w = Some r →
  to (period r) < end_ → to (period r) ≤ t →
  write_audio_loop (S fuel) audio t end_ w =
    write_audio_loop fuel audio t end_ (set_audio_reel (S (_audio_reel w)) w).
Proof.
  intros Hlt Hr Hend Hbefore. simpl. rewrite bool_decide_eq_true_2 by done.
  unfold_M. simpl. rewrite Hr. rewrite bool_decide_eq_false_2 by lia.
  by rewrite bool_decide_eq_true_2 by done.
Qed.

Lemma write_audio_loop_split fuel (a : AudioBuffers) (t end_ : DCPTime) (w : Writer) r :
  let afr := audio_frame_rate (film w) in
  let part_frames0 := frames_ceil (to (period r) - t) afr in
  let part_frames1 := frames_floor (end_ - to (period r)) afr in
  _reels w !! _audio_reel w = Some r →
  t < to (period r) < end_ →
  part_frames0 ≠ 0 →
  part_frames0 + part_frames1 ≤ frames a →
  write_audio_loop (S fuel) (Some a) t end_ w =
    write_audio_loop fuel
      (if bool_decide (part_frames1 ≠ 0)
       then Some (AudioBuffers_part a part_frames1 part_frames0) else None)
      (to (period r)) end_
      (set_audio_reel (S (_audio_reel w))
         (set_reels
            (alter (λ r, ReelWriter_write_audio r (AudioBuffers_part a part_frames0 0))
               (_audio_reel w) (_reels w)) w)).
Proof.
  intros afr p0 p1 Hr [Ht HT] Hp0 Hle. simpl. rewrite bool_decide_eq_true_2 by lia.
  unfold_M. simpl. rewrite Hr.
  rewrite bool_decide_eq_false_2 by lia. rewrite bool_decide_eq_false_2 by lia.
  fold afr. fold p0 p1.
  rewrite (bool_decide_eq_true_2 (p0 + p1 ≤ frames a)) by done.
  rewrite (bool_decide_eq_true_2 (p0 ≠ 0)) by done. simpl.
  by replace (t + (to (period r) - t)) with (to (period r)) by lia.
Qed.

Lemma write_audio_unfold (a : AudioBuffers) (t : DCPTime) (w : Writer) :
  write_audio (Some a) t w =
    write_audio_loop (S (length (_reels w) - _audio_reel w)) (Some a) t
      (t + from_frames (frames a) (audio_frame_rate (film w))) w.
Proof. reflexivity. Qed.

(** The loop ends: it never gets to the bound of its turns. *)
Lemma write_audio_loop_ends fuel audio (t end_ : DCPTime) (w : Writer) :
  (length (_reels w) - _audio_reel w < fuel)%nat →
  (write_audio_loop fuel audio t end_ w).1 ≠ Thrown OutOfFuel.
Proof.
  revert audio t w. induction fuel as [|fuel IH]; intros audio t w Hfuel; [lia|].
  destruct (decide (t < end_)) as [Hlt|Hge]; [|by rewrite write_audio_loop_done].
  destruct (_reels w !! _audio_reel w) as [r|] eqn:Hr;
    [|by rewrite write_audio_loop_off_end].
  pose proof (lookup_lt_Some _ _ _ Hr) as Hidx.
  destruct (decide (end_ ≤ to (period r))) as [Heasy|Hlater].
  { destruct audio as [a|].
    - by rewrite (write_audio_loop_easy _ _ _ _ _ r).
    - by rewrite (write_audio_loop_easy_null _ _ _ _ r). }
  destruct (decide (to (period r) ≤ t)) as [Hskip|Hin].
  { rewrite (write_audio_loop_skip _ _ _ _ _ r) by (done || lia).
    apply IH. simpl. lia. }
  cbn [write_audio_loop]. rewrite bool_decide_eq_true_2 by done.
  unfold mbind at 1. unfold M_bind at 1. unfold get at 1. rewrite Hr.
  rewrite bool_decide_eq_false_2 by done. rewrite bool_decide_eq_false_2 by done.
  destruct audio as [a|]; [|done].
  unfold mbind at 1. unfold M_bind at 1. unfold deref at 1. unfold mret at 1, M_ret at 1.
  unfold mbind at 1. unfold M_bind at 1. unfold DCPOMATIC_ASSERT at 1.
  case_bool_decide; [|done]. unfold mret at 1, M_ret at 1.
  unfold mbind at 1. unfold M_bind at 1. unfold when at 1.
  case_bool_decide.
  - unfold audio_reel_write at 1. unfold mbind at 1. unfold M_bind at 1. unfold deref at 1.
    unfold mret at 1, M_ret at 1. unfold modify at 1.
    unfold mbind at 1. unfold M_bind at 1. unfold modify at 1.
    apply IH. simpl. rewrite length_alter. lia.
  - unfold mret at 1, M_ret at 1.
    unfold mbind at 1. unfold M_bind at 1. unfold modify at 1.
    apply IH. simpl. lia.
Qed.

(** [write] for audio always comes to an end. *)
Lemma write_audio_ends audio (time : DCPTime) (w : Writer) :
  (write_audio audio time w).1 ≠ Thrown OutOfFuel.
Proof.
  destruct audio as [a|]; [|done].
  rewrite write_audio_unfold. apply write_audio_loop_ends. lia.
Qed.

(** C1.  A buffer [a] is written at time [t]; it starts in the segment [r1]
    under the audio cursor and ends after [r1] does, in the next segment [r2].
    Then [r1] gets a first part and [r2] a second part of [a]; the first part
    has the ceiling of the time to the boundary in frames, the second the
    floor of the time after the boundary in frames; the two counts are no
    more than [a] has; the two parts, one after the other, are the first
    frames of [a]; the call returns when the second part is not empty.  When
    the tick rate is a multiple of the audio frame rate, the two counts add
    up to the count of [a] and the two parts, one after the other, are [a]. *)
Theorem write_audio_across_boundary (w : Writer) (a : AudioBuffers) (t : DCPTime)
    (r1 r2 : ReelWriter) :
  let afr := audio_frame_rate (film w) in
  let end_ := t + from_frames (frames a) afr in
  let part_frames0 := frames_ceil (to (period r1) - t) afr in
  let part_frames1 := frames_floor (end_ - to (period r1)) afr in
  let w' := (write_audio (Some a) t w).2 in
  0 < HZ → 0 < afr →
  _reels w !! _audio_reel w = Some r1 →
  _reels w !! S (_audio_reel w) = Some r2 →
  t < to (period r1) < end_ →
  end_ ≤ to (period r2) →
  ∃ part0 part1 : AudioBuffers,
    sound <$> _reels w' !! _audio_reel w = Some (sound r1 ++ part0) ∧
    sound <$> _reels w' !! S (_audio_reel w) = Some (sound r2 ++ part1) ∧
    frames part0 = part_frames0 ∧ frames part1 = part_frames1 ∧
    part_frames0 + part_frames1 ≤ frames a ∧
    part0 ++ part1 = take (Z.to_nat (part_frames0 + part_frames1)) a ∧
    (part_frames1 ≠ 0 → (write_audio (Some a) t w).1 = Returned tt) ∧
    ((afr | HZ) → part_frames0 + part_frames1 = frames a ∧ part0 ++ part1 = a).
Proof.
  intros afr end_ p0 p1 w' HHZ Hafr Hr1 Hr2 [Ht HT] Hend.
  assert (0 ≤ frames a) as Hfa by (unfold frames; lia).
  assert (0 < p0) as Hp0 by (apply frames_ceil_pos; lia).
  assert (0 ≤ p1) as Hp1 by (apply frames_floor_nonneg; lia).
  assert (p0 + p1 ≤ frames a) as Hle.
  { subst p0 p1 end_.
    replace (t + from_frames (frames a) afr - to (period r1))
      with (from_frames (frames a) afr - (to (period r1) - t)) by lia.
    apply part_frames_le; lia. }
  pose proof (lookup_lt_Some _ _ _ Hr2) as Hlen.
  destruct (length (_reels w) - _audio_reel w)%nat as [|[|k]] eqn:Hfuel; [lia|lia|].
  subst w'. rewrite write_audio_unfold, Hfuel. fold afr end_.
  rewrite (write_audio_loop_split _ a t end_ w r1 Hr1) by (fold afr p0 p1; lia).
  fold afr p0 p1.
  set (w1 := set_audio_reel _ _).
  assert (_reels w1 !! _audio_reel w1 = Some r2) as Hr2'.
  { subst w1. simpl. rewrite list_lookup_alter_ne by lia. done. }
  assert (∀ x : AudioBuffers, frames x = Z.of_nat (length x)) as Hfr by done.
  exists (AudioBuffers_part a p0 0).
  case_bool_decide as Hz.
  - exists (AudioBuffers_part a p1 p0).
    rewrite (write_audio_loop_easy _ _ _ _ w1 r2) by (done || lia).
    simpl. repeat (rewrite list_lookup_alter_eq || rewrite list_lookup_alter_ne by lia).
    rewrite Hr1, Hr2. simpl.
    rewrite !AudioBuffers_part_frames by lia.
    rewrite AudioBuffers_part_app by lia.
    split_and!; try done.
    intros Hdiv.
    assert (p0 + p1 = frames a) as Heq.
    { subst p0 p1 end_.
      replace (t + from_frames (frames a) afr - to (period r1))
        with (from_frames (frames a) afr - (to (period r1) - t)) by lia.
      apply part_frames_eq; (done || lia). }
    split; [done|]. rewrite Heq. apply take_ge. rewrite Hfr. lia.
  - exists [].
    rewrite (write_audio_loop_easy_null _ _ _ w1 r2) by (done || lia).
    simpl. repeat (rewrite list_lookup_alter_eq || rewrite list_lookup_alter_ne by lia).
    rewrite Hr1, Hr2. simpl.
    assert (p1 = 0) as Hp1z by (destruct (decide (p1 = 0)); done).
    rewrite AudioBuffers_part_frames by lia.
    rewrite !app_nil_r. rewrite Hp1z, Z.add_0_r.
    unfold AudioBuffers_part at 2. simpl. rewrite drop_0.
    split_and!; try done; try lia.
    intros Hdiv.
    assert (p0 + p1 = frames a) as Heq.
    { subst p0 p1 end_.
      replace (t + from_frames (frames a) afr - to (period r1))
        with (from_frames (frames a) afr - (to (period r1) - t)) by lia.
      apply part_frames_eq; (done || lia). }
    split; [lia|]. unfold AudioBuffers_part. simpl. rewrite drop_0.
    apply take_ge. rewrite Hfr in Heq. lia.
Qed.

(** ** The head of the sorted queue *)

Lemma QueueItem_lt_spec (a b : QueueItem) :
  QueueItem_lt a b = true ↔
    (reel a < reel b)%nat
    ∨ (reel a = reel b
       ∧ (frame a < frame b
          ∨ (frame a = frame b ∧ Eyes_to_int (eyes a) < Eyes_to_int (eyes b)))).
Proof.
  unfold QueueItem_lt.
  repeat case_bool_decide; split; intros Hlt; try done; try lia.
Qed.

Lemma QueueItem_lt_false_spec (a b : QueueItem) :
  QueueItem_lt a b = false ↔
    (reel b < reel a)%nat
    ∨ (reel a = reel b
       ∧ (frame b < frame a
          ∨ (frame a = frame b ∧ Eyes_to_int (eyes b) ≤ Eyes_to_int (eyes a)))).
Proof.
  rewrite <- not_true_iff_false, QueueItem_lt_spec. lia.
Qed.

Lemma queue_insert_perm (x : QueueItem) (l : list QueueItem) :
  queue_insert x l ≡ₚ x :: l.
Proof.
  induction l as [|y l IH]; simpl; [done|].
  destruct (QueueItem_lt y x); [|done].
  rewrite IH. apply Permutation_swap.
Qed.

Lemma queue_sort_perm (l : list QueueItem) : queue_sort l ≡ₚ l.
Proof.
  induction l as [|x l IH]; simpl; [done|].
  by rewrite queue_insert_perm, IH.
Qed.

(** No item of the queue is before the head of the sorted queue. *)
Lemma queue_sort_head_least (l : list QueueItem) (f : QueueItem) :
  head (queue_sort l) = Some f → ∀ x, x ∈ l → QueueItem_lt x f = false.
Proof.
  revert f. induction l as [|y l IH]; intros f Hf x Hx; [by apply elem_of_nil in Hx|].
  simpl in Hf. destruct (queue_sort l) as [|z s] eqn:Hs.
  - assert (l = []) as -> by (apply Permutation_nil; by rewrite <- Hs, queue_sort_perm).
    simpl in Hf. injection Hf as <-. apply list_elem_of_singleton in Hx as ->.
    apply QueueItem_lt_false_spec. lia.
  - simpl in Hf. specialize (IH z eq_refl).
    destruct (QueueItem_lt z y) eqn:Hzy; simpl in Hf; injection Hf as <-.
    + apply elem_of_cons in Hx as [->|Hx]; [|by apply IH].
      apply QueueItem_lt_spec in Hzy. apply QueueItem_lt_false_spec. lia.
    + apply elem_of_cons in Hx as [->|Hx].
      * apply QueueItem_lt_false_spec. lia.
      * specialize (IH x Hx). apply QueueItem_lt_false_spec in IH, Hzy.
        apply QueueItem_lt_false_spec. lia.
Qed.

Lemma queue_sort_head_elem (l : list QueueItem) :
  l ≠ [] → ∃ f, head (queue_sort l) = Some f ∧ f ∈ l.
Proof.
  intros Hne. destruct (queue_sort l) as [|f s] eqn:Hs.
  - destruct Hne. apply Permutation_nil. by rewrite <- Hs, queue_sort_perm.
  - exists f. split; [done|]. rewrite <- queue_sort_perm, Hs. apply elem_of_cons. by left.
Qed.

(** What [LastWritten::next] accepts. *)
Lemma LastWritten_next_spec (lw : LastWritten) (qi : QueueItem) :
  LastWritten_next lw qi = true ↔
    (eyes qi = BOTH ∧ frame qi = lw_frame lw + 1)
    ∨ (lw_eyes lw = LEFT ∧ eyes qi = RIGHT ∧ frame qi = lw_frame lw)
    ∨ (lw_eyes lw = RIGHT ∧ eyes qi = LEFT ∧ frame qi = lw_frame lw + 1).
Proof.
  unfold LastWritten_next.
  destruct (eyes qi), (lw_eyes lw); repeat (case_bool_decide; simpl);
    (split; [intros Hnext|intros [[? ?]|[(? & ? & ?)|(? & ? & ?)]]]);
    first [done | lia | by left | by right; left | by right; right].
Qed.

(** C2.  The queue is not empty.  The sort rearranges the queue and puts at
    its head an item [f] that is least by the key (segment, offset, channel),
    the channels in the order [BOTH], [LEFT], [RIGHT] ([COUNT], which is no
    channel, comes last): every item of the queue is for a later segment, or
    for the same segment and a later offset, or for the same segment and
    offset and a channel that is not before that of [f].  The head is
    reported ready exactly when it continues what was last written to its
    segment: a [BOTH] item at the next offset; or a [RIGHT] item at the same
    offset after a [LEFT] one; or a [LEFT] item at the next offset after a
    [RIGHT] one.  The queue is left sorted, and no other item is looked
    at. *)
Theorem have_sequenced_image_at_queue_head_ready (w : Writer) :
  _queue w ≠ [] →
  ∃ f : QueueItem,
    head (queue_sort (_queue w)) = Some f ∧ f ∈ _queue w ∧
    queue_sort (_queue w) ≡ₚ _queue w ∧
    (∀ x, x ∈ _queue w →
       (reel f < reel x)%nat
       ∨ (reel f = reel x
          ∧ (frame f < frame x
             ∨ (frame f = frame x
                ∧ (eyes f = eyes x ∨ eyes f = BOTH ∨ eyes x = COUNT
                   ∨ (eyes f = LEFT ∧ eyes x = RIGHT)))))) ∧
    ∀ lw : LastWritten, _last_written w !! reel f = Some lw →
      (∃ ready : bool,
         have_sequenced_image_at_queue_head w
           = (Returned ready, set_queue (queue_sort (_queue w)) w) ∧
         (ready = true ↔
            (eyes f = BOTH ∧ frame f = lw_frame lw + 1)
            ∨ (lw_eyes lw = LEFT ∧ eyes f = RIGHT ∧ frame f = lw_frame lw)
            ∨ (lw_eyes lw = RIGHT ∧ eyes f = LEFT ∧ frame f = lw_frame lw + 1))).
Proof.
  intros Hne. destruct (queue_sort_head_elem _ Hne) as (f & Hf & Hin).
  exists f. split_and!; [done|done|apply queue_sort_perm| |].
  - intros x Hx. pose proof (queue_sort_head_least _ _ Hf x Hx) as Hleast.
    apply QueueItem_lt_false_spec in Hleast as [Hreel|[Hreel [Hframe|[Hframe Heyes]]]].
    + by left.
    + right. split; [done|]. by left.
    + right. split; [done|]. right. split; [done|].
      destruct (eyes f), (eyes x); cbn in Heyes;
        first [lia | by left | by right; left | by right; right; left
              | by right; right; right].
  - intros lw Hlw. exists (LastWritten_next lw f). split; [|apply LastWritten_next_spec].
    unfold have_sequenced_image_at_queue_head. unfold_M. simpl.
    rewrite bool_decide_eq_false_2 by done. simpl. rewrite Hf. simpl. by rewrite Hlw.
Qed.

(** ** Video frames and their channel *)

Lemma video_reel_from_bound (reels : list ReelWriter) (t : DCPTime) (i : nat) :
  (i ≤ video_reel_from reels t i ≤ i + length reels)%nat.
Proof.
  revert i. induction reels as [|r reels IH]; intros i; simpl; [lia|].
  destruct (contains (period r) t); [lia|]. specialize (IH (S i)). lia.
Qed.

Lemma video_reel_run (frame_ : Z) (w : Writer) :
  let i := video_reel_from (_reels w) (from_frames frame_ (video_frame_rate (film w))) 0 in
  video_reel frame_ w =
    if bool_decide (i < length (_reels w))%nat then (Returned i, w)
    else (Thrown (ProgrammingError 977), w).
Proof.
  intros i. unfold video_reel. unfold_M. simpl. fold i.
  by destruct (bool_decide (i < length (_reels w))%nat).
Qed.

Lemma video_reel_from_spec (reels : list ReelWriter) (t : DCPTime) (k i : nat) :
  video_reel_from reels t k = (k + i)%nat ↔
    (i ≤ length reels)%nat
    ∧ (∀ j r, (j < i)%nat → reels !! j = Some r → contains (period r) t = false)
    ∧ ((i < length reels)%nat → ∃ r, reels !! i = Some r ∧ contains (period r) t = true).
Proof.
  revert k i. induction reels as [|r0 reels IH]; intros k i; simpl.
  - split.
    + intros Hk. assert (i = 0%nat) as -> by lia. split_and!; [lia| |lia].
      intros j r Hj. lia.
    + intros (Hi & _ & _). lia.
  - destruct (contains (period r0) t) eqn:Hr0.
    + split.
      * intros Hk. assert (i = 0%nat) as -> by lia. split_and!; [lia| |].
        -- intros j r Hj. lia.
        -- intros _. by exists r0.
      * intros (Hi & Hbefore & Hat). destruct i as [|i]; [lia|].
        specialize (Hbefore 0%nat r0 ltac:(lia) eq_refl). congruence.
    + destruct i as [|i].
      * split.
        -- intros Hk. pose proof (video_reel_from_bound reels t (S k)). lia.
        -- intros (_ & _ & Hat). destruct Hat as (r & [= <-] & Hr); [lia|]. congruence.
      * replace (k + S i)%nat with (S k + i)%nat by lia. rewrite IH. split.
        -- intros (Hi & Hbefore & Hat). split_and!; [lia| |].
           ++ intros [|j] r Hj Hr; [simpl in Hr; congruence|].
              apply (Hbefore j r); [lia|done].
           ++ intros Hlt. apply Hat. lia.
        -- intros (Hi & Hbefore & Hat). split_and!; [lia| |].
           ++ intros j r Hj Hr. apply (Hbefore (S j) r); [lia|done].
           ++ intros Hlt. apply Hat. lia.
Qed.

Lemma video_reel_found (frame_ : Z) (w : Writer) (i : nat) (r : ReelWriter) :
  let t := from_frames frame_ (video_frame_rate (film w)) in
  _reels w !! i = Some r → contains (period r) t = true →
  (∀ j rj, (j < i)%nat → _reels w !! j = Some rj → contains (period rj) t = false) →
  video_reel frame_ w = (Returned i, w).
Proof.
  intros t Hr Hin Hbefore. rewrite video_reel_run. fold t.
  assert (video_reel_from (_reels w) t 0 = (0 + i)%nat) as ->.
  { apply video_reel_from_spec. split_and!.
    - apply lookup_lt_Some in Hr. lia.
    - done.
    - intros _. by exists r. }
  rewrite bool_decide_eq_true_2; [done|]. by eapply lookup_lt_Some.
Qed.

Lemma video_reel_not_found (frame_ : Z) (w : Writer) :
  let t := from_frames frame_ (video_frame_rate (film w)) in
  (∀ r, r ∈ _reels w → contains (period r) t = false) →
  video_reel frame_ w = (Thrown (ProgrammingError 977), w).
Proof.
  intros t Hnone. rewrite video_reel_run. fold t.
  set (k := video_reel_from (_reels w) t 0).
  assert (video_reel_from (_reels w) t 0 = (0 + k)%nat) as Hk by done.
  apply video_reel_from_spec in Hk as (Hle & _ & Hat).
  case_bool_decide as Hlt; [|done].
  destruct (Hat Hlt) as (r & Hr & Hin).
  rewrite Hnone in Hin; [done|]. by eapply list_elem_of_lookup_2.
Qed.

Lemma to_int_range (z : Z) : - 2 ^ 31 ≤ to_int z < 2 ^ 31.
Proof. unfold to_int. pose proof (Z.mod_pos_bound (z + 2 ^ 31) (2 ^ 32)). lia. Qed.

Lemma to_int_id (z : Z) : - 2 ^ 31 ≤ z < 2 ^ 31 → to_int z = z.
Proof. intros Hz. unfold to_int. rewrite Z.mod_small; lia. Qed.

(** C8.  [t] is the time of the frame index as [video_reel] gets it: converted
    to [int], which leaves an index between [-2^31] and [2^31 - 1] as it is.
    A call that finds more full frames in memory than are allowed waits.  Any
    other call fails on the assertion of [video_reel] (line 977), whatever
    the channel is, when no segment holds [t].  When [i] is the first segment
    that holds [t], the call fails on the assertion of line 156 if the film
    is 3D and the channel is [BOTH], or the film is 2D and the channel is not
    [BOTH]; otherwise it returns with one more [FULL] item at the back of the
    queue, for segment [i], the index less the start of that segment (as an
    [int]) and the channel given, and with one more full frame counted.  A call that
    fails leaves the writer as it was, so nothing is queued under another
    channel. *)
Theorem write_video_channel (w : Writer) (encoded_ : option Data) (frame_ : Z)
    (eyes_ : Eyes) :
  let disagree :=
    (three_d (film w) = true ∧ eyes_ = BOTH)
    ∨ (three_d (film w) = false ∧ eyes_ ≠ BOTH) in
  let agree :=
    (three_d (film w) = true ∧ eyes_ ≠ BOTH)
    ∨ (three_d (film w) = false ∧ eyes_ = BOTH) in
  let t := from_frames (to_int frame_) (video_frame_rate (film w)) in
  (- 2 ^ 31 ≤ frame_ < 2 ^ 31 → t = from_frames frame_ (video_frame_rate (film w)))
  ∧ (_maximum_frames_in_memory w < _queued_full_in_memory w →
     write_video encoded_ frame_ eyes_ w = (Thrown Waiting, w))
  ∧ (_queued_full_in_memory w ≤ _maximum_frames_in_memory w →
     ((∀ r, r ∈ _reels w → contains (period r) t = false) →
      write_video encoded_ frame_ eyes_ w = (Thrown (ProgrammingError 977), w))
     ∧ (∀ i r,
          _reels w !! i = Some r → contains (period r) t = true →
          (∀ j rj, (j < i)%nat → _reels w !! j = Some rj →
                   contains (period rj) t = false) →
          (disagree →
           write_video encoded_ frame_ eyes_ w = (Thrown (ProgrammingError 156), w))
          ∧ (agree →
             write_video encoded_ frame_ eyes_ w =
               (Returned tt,
                set_queued_full_in_memory (_queued_full_in_memory w + 1)
                  (set_queue
                     (_queue w
                      ++ [ {| type := FULL; encoded := encoded_; size_ := 0; reel := i;
                              frame := to_int (frame_ - ReelWriter_start (film w) r);
                              eyes := eyes_ |} ]) w))))).
Proof.
  intros disagree agree t. split_and!.
  - intros Hframe. subst t. by rewrite to_int_id.
  - intros Hfull. unfold write_video.
    unfold mbind at 1. unfold M_bind at 1. unfold get at 1.
    by rewrite bool_decide_eq_true_2 by lia.
  - intros Hroom. split.
    + intros Hnone. unfold write_video.
      unfold mbind at 1. unfold M_bind at 1. unfold get at 1.
      rewrite bool_decide_eq_false_2 by lia.
      unfold mbind at 1. unfold M_bind at 1.
      by rewrite video_reel_not_found.
    + intros i r Hr Hin Hbefore.
      assert (write_video encoded_ frame_ eyes_ w =
                (DCPOMATIC_ASSERT 156
                   ((three_d (film w) && bool_decide (eyes_ ≠ BOTH))
                    || (negb (three_d (film w)) && bool_decide (eyes_ = BOTH)));;
                 modify (λ w0,
                   set_queue
                     (_queue w0
                      ++ [ {| type := FULL; encoded := encoded_; size_ := 0; reel := i;
                              frame := to_int (frame_ - ReelWriter_start (film w) r);
                              eyes := eyes_ |} ]) w0);;
                 modify (λ w0,
                   set_queued_full_in_memory (_queued_full_in_memory w0 + 1) w0))
                  w) as ->.
      { unfold write_video.
        unfold mbind at 1. unfold M_bind at 1. unfold get at 1.
        rewrite bool_decide_eq_false_2 by lia.
        unfold mbind at 1. unfold M_bind at 1.
        rewrite (video_reel_found _ _ i r) by done.
        unfold mbind at 1. unfold M_bind at 1. by rewrite Hr. }
      split.
      * intros [[H3d ->]|[H3d Heyes]]; unfold_M; rewrite H3d; cbn.
        -- done.
        -- by rewrite bool_decide_eq_false_2.
      * intros [[H3d Heyes]|[H3d ->]]; unfold_M; rewrite H3d; cbn.
        -- by rewrite bool_decide_eq_true_2.
        -- done.
Qed.

(** ** Hanging texts *)

Lemma write_hanging_text_run (index : nat) (w : Writer) (r : ReelWriter) :
  _reels w !! index = Some r →
  write_hanging_text index w =
    (Returned tt,
     set_hanging_texts (write_hanging_text_loop (_hanging_texts w) r).2
       (set_reels (<[index := (write_hanging_text_loop (_hanging_texts w) r).1]> (_reels w))
          w)).
Proof.
  intros Hr. unfold write_hanging_text. unfold_M. simpl. rewrite Hr.
  by destruct (write_hanging_text_loop (_hanging_texts w) r).
Qed.

(** ** [finish] *)

Lemma set_output_set_output (v v' : list Output) (w : Writer) :
  set_output v (set_output v' w) = set_output v w.
Proof. reflexivity. Qed.

Lemma finish_reels_run (l : list nat) (w : Writer) :
  Forall (λ i, i < length (_reels w))%nat l →
  ∃ w', for_each l finish_reel w = (Returned tt, w')
        ∧ _output w' = _output w ++ (reel_finished <$> l).
Proof.
  revert w. induction l as [|i l IH]; intros w Hl.
  - exists w. simpl. by rewrite app_nil_r.
  - apply Forall_cons in Hl as [Hi Hl].
    destruct (lookup_lt_is_Some_2 _ _ Hi) as [r Hr].
    simpl. unfold mbind at 1. unfold M_bind at 1.
    unfold finish_reel at 1. unfold mbind at 1. unfold M_bind at 1.
    rewrite (write_hanging_text_run _ _ _ Hr). unfold emit at 1, modify at 1.
    match goal with |- context [for_each l finish_reel ?w1] =>
      destruct (IH w1) as (w' & Hrun & Hout) end.
    { simpl. by rewrite length_insert. }
    exists w'. split; [done|]. rewrite Hout. simpl. by rewrite <- app_assoc.
Qed.

Lemma finish_run (config : Config) (w : Writer) :
  ∃ (w1 w2 : Writer) (cpl : CPL),
    _output w1 = _output w ++ (reel_finished <$> seq 0 (length (_reels w)))
                 ++ [digests_calculated]
    ∧ _output w2 = _output w1 ++ [xml_written cpl; cover_sheet_written]
    ∧ cpl_content_versions cpl =
        (if bool_decide (content_versions (film w) = []) then [Build_ContentVersion "1"]
         else Build_ContentVersion <$> content_versions (film w))
    ∧ finish config w =
        if signer_chain_valid config then (Returned tt, w2)
        else (Thrown (InvalidSignerError (signer_chain_reason config)), w1).
Proof.
  destruct (finish_reels_run (seq 0 (length (_reels w))) w) as (w0 & Hrun & Hout).
  { apply Forall_forall. intros i Hi. apply elem_of_seq in Hi. lia. }
  unfold finish. unfold mbind at 1. unfold M_bind at 1. unfold get at 1.
  unfold mbind at 1. unfold M_bind at 1.
  rewrite Hrun. unfold mbind at 1. unfold M_bind at 1. unfold emit at 1, modify at 1.
  set (w1 := set_output _ w0). set (cpl := Build_CPL _ _ _ _).
  exists w1, (set_output (_output w1 ++ [xml_written cpl; cover_sheet_written]) w1), cpl.
  split_and!.
  - subst w1. simpl. by rewrite Hout, <- app_assoc.
  - done.
  - subst cpl. simpl. destruct (content_versions (film w)); done.
  - destruct (signer_chain_valid config); [|done].
    unfold emit. unfold_M. subst w1. cbn [negb _output set_output].
    rewrite set_output_set_output. by rewrite <- !app_assoc.
Qed.

(** C7.  The signing identity is valid.  [finish] returns, and the one
    composition it writes carries the single content version ["1"] when the
    film supplies none, and the film's content versions, in their order,
    otherwise. *)
Theorem finish_default_content_version (config : Config) (w : Writer) :
  signer_chain_valid config = true →
  ∃ (w' : Writer) (cpl : CPL) (before : list Output),
    finish config w = (Returned tt, w')
    ∧ _output w' = _output w ++ before ++ [xml_written cpl; cover_sheet_written]
    ∧ (∀ c, xml_written c ∉ before)
    ∧ (content_versions (film w) = [] →
       cpl_content_versions cpl = [ {| label_text := "1" |} ])
    ∧ (content_versions (film w) ≠ [] →
       label_text <$> cpl_content_versions cpl = content_versions (film w)).
Proof.
  intros Hvalid.
  destruct (finish_run config w) as (w1 & w2 & cpl & Hout & Hout2 & Hcv & Hrun).
  rewrite Hvalid in Hrun.
  exists w2, cpl, ((reel_finished <$> seq 0 (length (_reels w))) ++ [digests_calculated]).
  split_and!; [exact Hrun| | | |].
  - rewrite Hout2, Hout. by rewrite <- !app_assoc.
  - intros c Hc. apply elem_of_app in Hc as [Hc|Hc].
    + apply list_elem_of_fmap in Hc as (i & Hi & _). done.
    + apply list_elem_of_singleton in Hc. done.
  - intros Hnil. rewrite Hcv. by rewrite Hnil.
  - intros Hne. rewrite Hcv. rewrite bool_decide_eq_false_2 by done.
    rewrite <- list_fmap_compose. apply list_fmap_id.
Qed.

(** C9.  The signing identity is not valid.  The constructor fails with
    [InvalidSignerError] and the reason the identity gives, and so does
    [finish]; what [finish] has put out by then holds no composition. *)
Theorem invalid_signer_fails (f : Film) (config : Config) (w : Writer) :
  signer_chain_valid config = false →
  Writer_new f config = Thrown (InvalidSignerError (signer_chain_reason config))
  ∧ ∃ (w' : Writer) (out : list Output),
      finish config w = (Thrown (InvalidSignerError (signer_chain_reason config)), w')
      ∧ _output w' = _output w ++ out
      ∧ ∀ c, xml_written c ∉ out.
Proof.
  intros Hvalid. split.
  - unfold Writer_new. by rewrite Hvalid.
  - destruct (finish_run config w) as (w1 & w2 & cpl & Hout & Hout2 & Hcv & Hrun).
    rewrite Hvalid in Hrun. eexists w1, _. split_and!; [exact Hrun|exact Hout|].
    intros c Hc. apply elem_of_app in Hc as [Hc|Hc].
    + apply list_elem_of_fmap in Hc as (i & Hi & _). done.
    + apply list_elem_of_singleton in Hc. done.
Qed.

(** ** Texts over a segment boundary *)

Lemma write_hanging_text_loop_spec (hanging : list HangingText) (r : ReelWriter) :
  write_hanging_text_loop hanging r =
    ({| period := period r; sound := sound r;
        texts := texts r
                 ++ (HangingText_write
                       <$> filter (λ h, from (ht_period h) = from (period r)) hanging) |},
     filter (λ h, from (ht_period h) ≠ from (period r)) hanging).
Proof.
  revert r. induction hanging as [|h hanging IH]; intros r; simpl.
  - rewrite app_nil_r. by destruct r.
  - rewrite !filter_cons. case_bool_decide as Hfrom.
    + rewrite IH. simpl. rewrite decide_True by done.
      rewrite decide_False by (intros Hne; by apply Hne).
      by rewrite <- app_assoc.
    + rewrite IH. rewrite decide_False by done. by rewrite decide_True by done.
Qed.

Lemma hanging_parts_spec (f : Film) text type_ track (p : DCPTimePeriod)
    (later : list ReelWriter) (h : HangingText) :
  h ∈ hanging_parts f text type_ track p later ↔
    ∃ (ri : ReelWriter) (o : DCPTimePeriod),
      ri ∈ later ∧ overlap (period ri) p = Some o
      ∧ h = {| ht_text := text; ht_type := type_; ht_track := track;
               ht_period := back_off f o |}.
Proof.
  induction later as [|ri later IH]; simpl.
  - split; [by intros ?%elem_of_nil|]. intros (? & ? & ?%elem_of_nil & _). done.
  - destruct (overlap (period ri) p) as [o|] eqn:Ho.
    + rewrite elem_of_cons, IH. split.
      * intros [->|(rj & o' & Hin & Ho' & ->)].
        -- exists ri, o. split_and!; [by left|done|done].
        -- exists rj, o'. split_and!; [by right|done|done].
      * intros (rj & o' & Hin & Ho' & ->). apply elem_of_cons in Hin as [->|Hin].
        -- left. congruence.
        -- right. by exists rj, o'.
    + rewrite IH. split.
      * intros (rj & o' & Hin & Ho' & ->). exists rj, o'. split_and!; [by right|done|done].
      * intros (rj & o' & Hin & Ho' & ->). apply elem_of_cons in Hin as [->|Hin].
        -- congruence.
        -- by exists rj, o'.
Qed.

Lemma overlap_to (a b o : DCPTimePeriod) :
  overlap a b = Some o → from o = Z.max (from a) (from b) ∧ to o = Z.min (to a) (to b).
Proof.
  unfold overlap. case_bool_decide; [done|]. by intros [= <-].
Qed.

Lemma cursor_get_set (c : TextCursor) (v : nat) (w : Writer) :
  cursor_get c (cursor_set c v w) = Some v.
Proof. destruct c; simpl; [done|]. apply lookup_insert_eq. Qed.

(** The loop that moves the cursor ends: it never gets to the bound of its
    turns, as the cursor cannot pass the last segment. *)
Lemma advance_text_reel_ends (fuel : nat) (c : TextCursor) (period_from : DCPTime)
    (w : Writer) (i : nat) :
  cursor_get c w = Some i → (length (_reels w) ≤ i + fuel)%nat →
  (advance_text_reel fuel c period_from w).1 ≠ Thrown OutOfFuel.
Proof.
  revert w i. induction fuel as [|fuel IH]; intros w i Hc Hfuel.
  - cbn [advance_text_reel]. unfold_M. rewrite Hc.
    destruct (_reels w !! i) as [r|] eqn:Hr; [|done].
    apply lookup_lt_Some in Hr. lia.
  - cbn [advance_text_reel]. unfold mbind at 1. unfold M_bind at 1. unfold get at 1.
    rewrite Hc. unfold mbind at 1. unfold M_bind at 1. unfold deref at 1.
    unfold mret at 1, M_ret at 1.
    destruct (_reels w !! i) as [r|] eqn:Hr; [|done].
    unfold mbind at 1. unfold M_bind at 1. unfold deref at 1. unfold mret at 1, M_ret at 1.
    case_bool_decide; [|done].
    unfold mbind at 1. unfold M_bind at 1. unfold modify at 1.
    unfold mbind at 1. unfold M_bind at 1. unfold DCPOMATIC_ASSERT at 1.
    case_bool_decide as Hnext; [|done]. unfold mret at 1, M_ret at 1.
    assert (_reels (cursor_set c (S i) w) = _reels w) as Hreels by (by destruct c).
    destruct (lookup_lt_is_Some_2 (_reels w) (S i) Hnext) as [r' Hr'].
    unfold mbind at 1. unfold M_bind at 1.
    rewrite (write_hanging_text_run _ _ r') by (by rewrite Hreels).
    apply (IH _ (S i)).
    + destruct c; simpl; [done|]. apply lookup_insert_eq.
    + simpl. rewrite length_insert, Hreels. lia.
Qed.

Lemma write_text_unfold text (type_ : TextType) track (p : DCPTimePeriod)
    (c : TextCursor) (i : nat) (w w0 w1 : Writer) :
  select_text_cursor type_ track w = (Returned c, w0) →
  cursor_get c w0 = Some i → (i < length (_reels w0))%nat →
  advance_text_reel (length (_reels w0)) c (from p) w0 = (Returned tt, w1) →
  write_text text type_ track p w = write_text_at c text type_ track p w1.
Proof.
  intros Hsel Hc Hi Hadv. unfold write_text.
  unfold mbind at 1. unfold M_bind at 1. rewrite Hsel.
  unfold mbind at 1. unfold M_bind at 1. unfold get at 1.
  rewrite Hc. unfold_M. rewrite bool_decide_eq_true_2 by done.
  by rewrite Hadv.
Qed.

(** C10.  A text is written; [w1] is the writer once the cursor of the text's
    type and track has been moved to the segment [r] that the text starts in,
    and the text's period ends after [r] does.  Then the call returns; [r]
    gets the text with its end [2] frames before the end of [r]; and the
    hanging texts stored are, for each later segment that the period
    overlaps, the overlap with its end [2] frames earlier, and nothing else,
    so that each of them ends at least [2] frames before the text's period
    does.  When [write_hanging_text] is then called for a later segment [rj]
    that the period overlaps and that starts at or after the text,
    it returns, and what it adds to the texts of [rj] are hanging texts that
    start where [rj] starts, each with the period it was stored with; the
    part of this text is among them, and its end is [2] frames before the
    earlier of the end of [rj] and the end of the text's period, also when
    these two are the same.  The hanging texts that are left are those that
    start elsewhere. *)
Theorem write_text_backs_off_hanging text (type_ : TextType) track (p : DCPTimePeriod)
    (c : TextCursor) (i0 i : nat) (r : ReelWriter) (w w0 w1 : Writer) :
  let two_frames := from_frames 2 (video_frame_rate (film w1)) in
  select_text_cursor type_ track w = (Returned c, w0) →
  cursor_get c w0 = Some i0 → (i0 < length (_reels w0))%nat →
  advance_text_reel (length (_reels w0)) c (from p) w0 = (Returned tt, w1) →
  cursor_get c w1 = Some i → _reels w1 !! i = Some r →
  to (period r) < to p →
  ∃ (w' : Writer) (stored : list HangingText),
    write_text text type_ track p w = (Returned tt, w')
    ∧ texts <$> _reels w' !! i =
        Some (texts r
              ++ [ {| tw_text := text; tw_type := type_; tw_track := track;
                      tw_period := {| from := from p;
                                      to := to (period r) - two_frames |} |} ])
    ∧ _hanging_texts w' = _hanging_texts w1 ++ stored
    ∧ (∀ h, h ∈ stored ↔
         ∃ (j : nat) (rj : ReelWriter) (o : DCPTimePeriod),
           (i < j)%nat ∧ _reels w1 !! j = Some rj ∧ overlap (period rj) p = Some o
           ∧ h = {| ht_text := text; ht_type := type_; ht_track := track;
                    ht_period := {| from := from o; to := to o - two_frames |} |})
    ∧ (∀ h, h ∈ stored →
         to (ht_period h) + two_frames ≤ to p
         ∧ ∀ rj, rj ∈ _reels w1 → to (period rj) = to p →
             to (ht_period h) + two_frames ≤ to (period rj))
    ∧ (∀ (j : nat) (rj : ReelWriter) (o : DCPTimePeriod),
         (i < j)%nat → _reels w1 !! j = Some rj → overlap (period rj) p = Some o →
         from p ≤ from (period rj) →
         ∃ (w'' : Writer) (flushed : list TextWrite),
           write_hanging_text j w' = (Returned tt, w'')
           ∧ texts <$> _reels w'' !! j = Some (texts rj ++ flushed)
           ∧ {| tw_text := text; tw_type := type_; tw_track := track;
                tw_period :=
                  {| from := from (period rj);
                     to := Z.min (to (period rj)) (to p) - two_frames |} |} ∈ flushed
           ∧ (∀ x, x ∈ flushed →
                ∃ h, h ∈ _hanging_texts w'
                     ∧ from (ht_period h) = from (period rj)
                     ∧ x = {| tw_text := ht_text h; tw_type := ht_type h;
                              tw_track := ht_track h; tw_period := ht_period h |})
           ∧ (∀ h, h ∈ _hanging_texts w'' ↔
                h ∈ _hanging_texts w' ∧ from (ht_period h) ≠ from (period rj))).
Proof.
  intros two Hsel Hc0 Hi0 Hadv Hc Hr Hto.
  rewrite (write_text_unfold _ _ _ _ _ _ _ _ _ Hsel Hc0 Hi0 Hadv).
  unfold write_text_at. unfold_M. simpl. rewrite Hc, Hr.
  rewrite bool_decide_eq_true_2 by done. simpl.
  set (stored := hanging_parts (film w1) text type_ track p (drop (S i) (_reels w1))).
  assert (∀ h, h ∈ stored ↔
            ∃ (j : nat) (rj : ReelWriter) (o : DCPTimePeriod),
              (i < j)%nat ∧ _reels w1 !! j = Some rj ∧ overlap (period rj) p = Some o
              ∧ h = {| ht_text := text; ht_type := type_; ht_track := track;
                       ht_period := {| from := from o; to := to o - two |} |})
    as Hstored.
  { intros h. subst stored. rewrite hanging_parts_spec. split.
    + intros (rj & o & Hin & Ho & ->).
      apply list_elem_of_lookup in Hin as [k Hk]. rewrite lookup_drop in Hk.
      exists (S i + k)%nat, rj, o. split_and!; [lia|done|done|done].
    + intros (j & rj & o & Hj & Hrj & Ho & ->). exists rj, o. split_and!; [|done|done].
      apply list_elem_of_lookup. exists (j - S i)%nat. rewrite lookup_drop.
      by replace (S i + (j - S i))%nat with j by lia. }
  eexists _, stored.
  split_and!; [reflexivity| |done|exact Hstored| |].
  - simpl. by rewrite list_lookup_alter_eq, Hr.
  - intros h (j & rj & o & _ & _ & Ho & ->)%Hstored. simpl.
    apply overlap_to in Ho as [_ Ho]. split; [lia|].
    intros rk _ Hrk. lia.
  - intros j rj o Hj Hrj Ho Hfrom.
    set (w' := set_reels _ _).
    assert (_reels w' !! j = Some rj) as Hrj'.
    { subst w'. cbn [_reels set_reels]. rewrite list_lookup_alter_ne by lia.
      by cbn [_reels set_hanging_texts]. }
    assert (_hanging_texts w' = _hanging_texts w1 ++ stored) as Hhanging by done.
    rewrite (write_hanging_text_run j w' rj) by done.
    rewrite write_hanging_text_loop_spec.
    eexists _, _. split_and!; [reflexivity| | | |].
    + cbn [_reels set_reels set_hanging_texts fst]. rewrite list_lookup_insert_eq; [done|].
      by eapply lookup_lt_Some.
    + pose proof (overlap_to _ _ _ Ho) as [Hfrom_o Hto_o].
      apply list_elem_of_fmap.
      exists {| ht_text := text; ht_type := type_; ht_track := track;
                ht_period := {| from := from o; to := to o - two |} |}.
      split.
      * unfold HangingText_write. cbn [ht_text ht_type ht_track ht_period].
        do 2 f_equal; lia.
      * apply list_elem_of_filter. split.
        -- cbn [ht_period from]. lia.
        -- rewrite Hhanging. apply elem_of_app. right. apply Hstored.
           by exists j, rj, o.
    + intros x (h & -> & [Hh_from Hh_in]%list_elem_of_filter)%list_elem_of_fmap.
      by exists h.
    + intros h. cbn [_hanging_texts set_hanging_texts snd].
      rewrite list_elem_of_filter. split; intros [? ?]; by split.
Qed.

(** ** Frames that come too early *)

(** C4.  [frontier] is the first frame that the decoder does not have yet:
    the frame after the last one decoded or, when nothing is decoded, the
    frame of the last accurate seek.  A frame before it is dropped: [give]
    returns, nothing is added to what is decoded, no filler either, and the
    frontier stays; the decoder only logs that it received the frame, when it
    is not ignoring its input altogether. *)
Theorem give_drops_earlier_frame (d : VideoDecoder) (image : option ImageProxy)
    (frame_ frontier : Z) :
  give_from d = Some frontier →
  frame_ < frontier →
  ∃ d' : VideoDecoder,
    give image frame_ d = (Returned tt, d')
    ∧ d' = (if _ignore d then d else set_log (_log d ++ [VD_receives frame_]) d)
    ∧ _decoded d' = _decoded d
    ∧ _last_seek_time d' = _last_seek_time d
    ∧ _last_seek_accurate d' = _last_seek_accurate d
    ∧ give_from d' = Some frontier.
Proof.
  intros Hfrom Hlt. unfold give. unfold_M. simpl.
  destruct (_ignore d) eqn:Hignore.
  - exists d. by split_and!.
  - rewrite Hfrom. rewrite bool_decide_eq_true_2 by done.
    eexists. split_and!; [reflexivity|done|done|done|done|].
    by rewrite <- Hfrom.
Qed.

(** ** Fonts of an Interop package *)

Lemma set_fonts_set_fonts (v v' : gmap positive string) (w : Writer) :
  set_fonts v (set_fonts v' w) = set_fonts v w.
Proof. reflexivity. Qed.

Lemma fix_id_spec (id : string) :
  (id = "" → fix_id id = "font") ∧ (id ≠ "" → fix_id id = id) ∧ fix_id id ≠ "".
Proof.
  unfold fix_id. case_bool_decide; split_and!; done.
Qed.

Lemma write_fonts_interop_run (fonts : list Font) (id : string) (w : Writer) :
  write_fonts_interop fonts id w =
    (Returned tt,
     set_fonts (foldl (λ m f, <[font_ptr f := id]> m) (_fonts w) fonts) w).
Proof.
  revert w. induction fonts as [|font rest IH]; intros w; simpl.
  - by destruct w.
  - unfold mbind at 1. unfold M_bind at 1. unfold modify at 1.
    rewrite IH. by rewrite set_fonts_set_fonts.
Qed.

Lemma lookup_put_all (fonts : list Font) (id : string) (m : gmap positive string)
    (p : positive) :
  foldl (λ m f, <[font_ptr f := id]> m) m fonts !! p =
    if decide (p ∈ font_ptr <$> fonts) then Some id else m !! p.
Proof.
  revert m. induction fonts as [|font rest IH]; intros m.
  - case_decide as Hin; [|done]. by apply elem_of_nil in Hin.
  - rewrite fmap_cons. cbn [foldl]. rewrite IH.
    destruct (decide (p ∈ font_ptr <$> rest)) as [Hin|Hnin].
    + rewrite decide_True; [done|]. by right.
    + rewrite lookup_insert. destruct (decide (font_ptr font = p)) as [<-|Hne].
      * rewrite decide_True; [done|]. by left.
      * rewrite decide_False; [done|]. by intros [?|?]%elem_of_cons.
Qed.

(** C6.  The package is Interop and at least one font is given.  The call
    returns; every font given is mapped to the identifier of the first one,
    or to ["font"] when that is empty; the one font chosen to go into the
    package is the first one; and, the table being empty before, one
    identifier is all it holds afterwards. *)
Theorem write_fonts_interop_one_id (w : Writer) (first : Font) (rest : list Font) :
  interop (film w) = true →
  ∃ w' : Writer,
    write_fonts (first :: rest) w = (Returned tt, w')
    ∧ (∀ f, f ∈ first :: rest → _fonts w' !! font_ptr f = Some (fix_id (font_id first)))
    ∧ (font_id first = "" → fix_id (font_id first) = "font")
    ∧ (font_id first ≠ "" → fix_id (font_id first) = font_id first)
    ∧ _chosen_interop_font w' = Some first
    ∧ (_fonts w = ∅ → map_img (_fonts w') = ({[ fix_id (font_id first) ]} : gset string)).
Proof.
  intros Hinterop. unfold write_fonts.
  unfold mbind at 1. unfold M_bind at 1. unfold get at 1. rewrite Hinterop.
  unfold mbind at 1. unfold M_bind at 1. rewrite write_fonts_interop_run.
  unfold modify. eexists. split_and!; [reflexivity| | | | |].
  - intros f Hf. cbn [_fonts set_chosen_interop_font set_fonts].
    rewrite lookup_put_all. rewrite decide_True; [done|]. by apply list_elem_of_fmap_2.
  - apply fix_id_spec.
  - apply fix_id_spec.
  - done.
  - intros Hempty. cbn [_fonts set_chosen_interop_font set_fonts].
    apply set_eq. intros x. rewrite elem_of_map_img, elem_of_singleton. split.
    + intros [p Hp]. rewrite lookup_put_all in Hp. case_decide; [congruence|].
      by rewrite Hempty, lookup_empty in Hp.
    + intros ->. exists (font_ptr first). rewrite lookup_put_all.
      rewrite decide_True; [done|]. rewrite fmap_cons. by left.
Qed.


(** ** Fonts of a package that is not Interop *)

Lemma substr_to_app (a b : string) : substr_to (String.length a) (a +:+ b) = a.
Proof. induction a as [|c a IH]; simpl; [done|]. by rewrite IH. Qed.

Lemma find_last_of_app_0 (id : string) :
  find_last_of "_" (id +:+ "_0") = Some (String.length id).
Proof. induction id as [|a id IH]; simpl; [done|]. by rewrite IH. Qed.

Lemma underscore_number_position_app_0 (id : string) :
  underscore_number_position (id +:+ "_0") = Some (String.length id).
Proof.
  unfold underscore_number_position. rewrite find_last_of_app_0.
  assert (substr_from (S (String.length id)) (id +:+ "_0") = "0") as ->; [|done].
  induction id as [|a id IH]; [done|].
  change (substr_from (S (String.length id)) (id +:+ "_0") = "0"). apply IH.
Qed.

Lemma compose_id_inj (a : string) (n m : Z) : compose_id a n = compose_id a m → n = m.
Proof.
  unfold compose_id. intros Heq.
  apply (inj (String.append a)) in Heq. apply (inj (String.append "_")) in Heq.
  by apply (inj pretty) in Heq.
Qed.

Lemma to_int_to_int_add (x y : Z) : to_int (to_int x + y) = to_int (x + y).
Proof.
  unfold to_int. f_equal.
  replace ((x + 2 ^ 31) `mod` 2 ^ 32 - 2 ^ 31 + y + 2 ^ 31)
    with ((x + 2 ^ 31) `mod` 2 ^ 32 + y) by lia.
  rewrite Zplus_mod_idemp_l. f_equal. lia.
Qed.

(** Fewer than [2^32] steps on from a number do not come back to it. *)
Lemma to_int_add_ne (n i j : Z) :
  i < j → j - i < 2 ^ 32 → to_int (n + i) ≠ to_int (n + j).
Proof.
  unfold to_int. intros Hij Hlt Heq.
  assert ((n + j + 2 ^ 31) `mod` 2 ^ 32 = (n + i + 2 ^ 31) `mod` 2 ^ 32) as Hmod by lia.
  assert ((j - i) `mod` 2 ^ 32 = 0) as Hzero.
  { replace (j - i) with ((n + j + 2 ^ 31) - (n + i + 2 ^ 31)) by lia.
    rewrite Zminus_mod, Hmod, Z.sub_diag. done. }
  rewrite Z.mod_small in Hzero by lia. lia.
Qed.

Lemma fix_id_decide (id : string) :
  fix_id id = if decide (id = "") then "font" else id.
Proof. unfold fix_id. case_bool_decide; by destruct (decide (id = "")). Qed.

Lemma all_digits_digits (d : string) : all_digits d = true ↔ digits d.
Proof.
  unfold digits. induction d as [|c d IH]; cbn [all_digits list_ascii_of_string].
  - split; [intros _; constructor|done].
  - rewrite Forall_cons, <- IH. unfold isdigit.
    rewrite !andb_true_iff, !bool_decide_eq_true. split.
    + intros [[? ?] ?]. split; [lia|done].
    + intros [? ?]. split; [split; lia|done].
Qed.

Lemma digits_no_underscore (d : string) : digits d → find_last_of "_" d = None.
Proof.
  unfold digits. induction d as [|c d IH]; cbn [find_last_of list_ascii_of_string]; [done|].
  intros [Hc Hd]%Forall_cons. rewrite (IH Hd).
  rewrite bool_decide_eq_false_2; [done|]. intros ->.
  change (nat_of_ascii "_") with 95%nat in Hc. lia.
Qed.

Lemma find_last_of_split (c : ascii) (s : string) (i : nat) :
  find_last_of c s = Some i →
  ∃ a d, s = a +:+ String c d ∧ String.length a = i.
Proof.
  revert i. induction s as [|x s IH]; intros i; cbn [find_last_of]; [done|].
  destruct (find_last_of c s) as [j|].
  - intros [= <-]. destruct (IH j eq_refl) as (a & d & -> & <-).
    by exists (String x a), d.
  - case_bool_decide as Hx; [|done]. intros [= <-]. subst x. by exists "", s.
Qed.

Lemma find_last_of_append (c : ascii) (a d : string) :
  find_last_of c d = None → find_last_of c (a +:+ String c d) = Some (String.length a).
Proof.
  intros Hd. induction a as [|x a IH].
  - change (find_last_of c (String c d) = Some 0%nat). cbn [find_last_of].
    rewrite Hd. by rewrite bool_decide_eq_true_2.
  - change (find_last_of c (String x (a +:+ String c d)) = Some (S (String.length a))).
    cbn [find_last_of]. by rewrite IH.
Qed.

Lemma substr_from_S_app (c : ascii) (a d : string) :
  substr_from (S (String.length a)) (a +:+ String c d) = d.
Proof. induction a as [|x a IH]; [done|]. exact IH. Qed.

(** What the lambda [underscore_number_position] finds: the underscore of a
    string that ends in an underscore and digits. *)
Lemma underscore_number_position_Some (s : string) (e : nat) :
  underscore_number_position s = Some e →
  ∃ a d, s = a +:+ "_" +:+ d ∧ digits d ∧ String.length a = e.
Proof.
  unfold underscore_number_position.
  destruct (find_last_of "_" s) as [i|] eqn:Hi; [|done].
  destruct (find_last_of_split _ _ _ Hi) as (a & d & -> & <-).
  rewrite substr_from_S_app. destruct (all_digits d) eqn:Hd; [|done].
  intros [= <-]. exists a, d. split_and!; [done| |done]. by apply all_digits_digits.
Qed.

Lemma underscore_number_position_form (a d : string) :
  digits d → underscore_number_position (a +:+ "_" +:+ d) = Some (String.length a).
Proof.
  intros Hd. unfold underscore_number_position.
  change (a +:+ "_" +:+ d) with (a +:+ String "_" d).
  rewrite find_last_of_append by (by apply digits_no_underscore).
  rewrite substr_from_S_app. by rewrite (proj2 (all_digits_digits d) Hd).
Qed.

Lemma candidate_nonempty (a d : string) (j : nat) : candidate a d j ≠ "".
Proof. destruct j; unfold candidate; by destruct a. Qed.

Lemma substr_before_candidate (a d : string) (j : nat) :
  substr_before (S (String.length a)) (candidate a d j) = a.
Proof. destruct j; cbn [substr_before candidate]; apply substr_to_app. Qed.

(** The identifiers tried after the first one differ from one another, as
    long as there are no more than [2^32] of them. *)
Lemma candidate_ne (a d : string) (i j : nat) :
  (i < j)%nat → Z.of_nat j - Z.of_nat i < 2 ^ 32 →
  candidate a d (S i) ≠ candidate a d (S j).
Proof.
  intros Hij Hlt Heq. cbn [candidate] in Heq.
  apply (compose_id_inj a) in Heq. revert Heq. apply to_int_add_ne; lia.
Qed.

(** The loop goes through the identifiers tried up to the first one that is
    not used. *)
Lemma increment_suffix_run (a d : string) (used_ids : gset string) (m fuel j : nat) :
  (∀ i, (i < m)%nat → candidate a d (j + i) ∈ used_ids) →
  candidate a d (j + m) ∉ used_ids →
  (m ≤ fuel)%nat →
  increment_suffix fuel used_ids (S (String.length a))
    (to_int (raw_convert d + Z.of_nat j)) (candidate a d j)
  = Some (candidate a d (j + m)).
Proof.
  revert fuel j. induction m as [|m IH]; intros fuel j Hused Hfree Hfuel.
  - rewrite Nat.add_0_r in *.
    destruct fuel; cbn [increment_suffix]; by rewrite bool_decide_eq_false_2.
  - destruct fuel as [|fuel]; [lia|]. cbn [increment_suffix].
    rewrite bool_decide_eq_true_2.
    2:{ specialize (Hused 0%nat ltac:(lia)). by rewrite Nat.add_0_r in Hused. }
    rewrite substr_before_candidate, to_int_to_int_add.
    replace (raw_convert d + Z.of_nat j + 1) with (raw_convert d + Z.of_nat (S j)) by lia.
    change (compose_id a (to_int (raw_convert d + Z.of_nat (S j))))
      with (candidate a d (S j)).
    replace (j + S m)%nat with (S j + m)%nat by lia. apply IH.
    + intros i Hi. replace (S j + i)%nat with (j + S i)%nat by lia. apply Hused. lia.
    + by replace (S j + m)%nat with (j + S m)%nat by lia.
    + lia.
Qed.

(** Of more identifiers than are used, all different, the first that is not
    used. *)
Lemma least_unused (cand : nat → string) (used_ids : gset string) (n : nat) :
  (∀ i i', (i < i' ≤ n)%nat → cand i ≠ cand i') →
  (size used_ids ≤ n)%nat →
  ∃ m, (m ≤ n)%nat ∧ (cand m ∉ used_ids) ∧ ∀ i, (i < m)%nat → cand i ∈ used_ids.
Proof.
  revert cand used_ids. induction n as [|n IH]; intros cand used_ids Hne Hsize.
  - exists 0%nat. assert (used_ids = ∅) as ->.
    { apply leibniz_equiv, size_empty_iff. lia. }
    split_and!; [lia|apply not_elem_of_empty|]. intros i Hi. lia.
  - destruct (decide (cand 0%nat ∈ used_ids)) as [Hin|Hnin].
    + set (first := cand 0%nat) in *.
      destruct (IH (λ i, cand (S i)) (used_ids ∖ {[first]}))
        as (m & Hm & Hfree & Hused).
      * intros i i' Hi. apply Hne. lia.
      * rewrite size_difference by (by apply singleton_subseteq_l).
        rewrite size_singleton. lia.
      * exists (S m). split_and!; [lia| |].
        -- intros Hin'. apply Hfree. apply elem_of_difference. split; [done|].
           rewrite elem_of_singleton. intros Heq. symmetry in Heq. revert Heq.
           apply Hne. lia.
        -- intros [|i] Hi; [done|]. specialize (Hused i ltac:(lia)).
           by apply elem_of_difference in Hused as [? _].
    + exists 0%nat. split_and!; [lia|done|]. intros i Hi. lia.
Qed.

(** The identifier for a font whose own one is used: the loop comes to an
    end, at the first of the identifiers tried that is not used. *)
Lemma unique_id_spec (used_ids : gset string) (id : string) :
  Z.of_nat (size used_ids) < 2 ^ 32 →
  ∃ (a d : string) (j : nat),
    ((id = a +:+ "_" +:+ d ∧ digits d)
     ∨ (a = id ∧ d = "0" ∧ ∀ a' d', id = a' +:+ "_" +:+ d' → ¬ digits d'))
    ∧ unique_id used_ids id = Some (candidate a d j)
    ∧ (candidate a d j ∉ used_ids)
    ∧ ∀ j', (j' < j)%nat → candidate a d j' ∈ used_ids.
Proof.
  intros Hsize.
  assert (∃ a d,
            ((id = a +:+ "_" +:+ d ∧ digits d)
             ∨ (a = id ∧ d = "0" ∧ ∀ a' d', id = a' +:+ "_" +:+ d' → ¬ digits d'))
            ∧ unique_id used_ids id =
                increment_suffix (S (size used_ids)) used_ids (S (String.length a))
                  (to_int (raw_convert d + Z.of_nat 0)) (candidate a d 0))
    as (a & d & Hform & ->).
  { unfold unique_id. destruct (underscore_number_position id) as [e|] eqn:Hpos.
    - destruct (underscore_number_position_Some _ _ Hpos) as (a & d & -> & Hd & <-).
      exists a, d. split; [by left|]. cbn [position_succ].
      change (a +:+ "_" +:+ d) with (a +:+ String "_" d) at 1.
      rewrite substr_from_S_app. by rewrite Z.add_0_r.
    - exists id, "0". split.
      + right. split_and!; [done|done|]. intros a' d' -> Hd'.
        by rewrite underscore_number_position_form in Hpos.
      + rewrite underscore_number_position_app_0. cbn [position_succ].
        change (id +:+ "_0") with (id +:+ String "_" "0") at 1.
        rewrite substr_from_S_app. by rewrite Z.add_0_r. }
  exists a, d.
  destruct (decide (candidate a d 0 ∈ used_ids)) as [Hin|Hnin].
  - destruct (least_unused (λ i, candidate a d (S i)) used_ids (size used_ids))
      as (m & Hm & Hfree & Hused).
    + intros i i' Hi. apply candidate_ne; lia.
    + done.
    + exists (S m). split_and!; [done| |done|].
      * apply (increment_suffix_run a d used_ids (S m) _ 0); [|done|lia].
        intros [|i] Hi; [done|]. apply Hused. lia.
      * intros [|j'] Hj'; [done|]. apply Hused. lia.
  - exists 0%nat. split_and!; [done| |done|].
    + by apply (increment_suffix_run a d used_ids 0 _ 0); [intros i Hi; lia| |lia].
    + intros j' Hj'. lia.
Qed.

Lemma fonts_inv_empty : fonts_inv ∅ ∅.
Proof.
  split_and!; [apply map_img_empty_L|by rewrite map_size_empty, size_empty|].
  intros p q id Hp. by rewrite lookup_empty in Hp.
Qed.

Lemma fonts_inv_insert (m : gmap positive string) (used_ids : gset string)
    (p : positive) (id : string) :
  fonts_inv m used_ids → m !! p = None → id ∉ used_ids →
  fonts_inv (<[p := id]> m) ({[id]} ∪ used_ids).
Proof.
  intros (Himg & Hsize & Hinj) Hp Hid. split_and!.
  - rewrite map_img_insert_notin_L by done. by rewrite Himg.
  - rewrite map_size_insert_None by done.
    rewrite size_union by (by apply disjoint_singleton_l). rewrite size_singleton. lia.
  - intros q q' x Hq Hq'. rewrite lookup_insert in Hq, Hq'.
    destruct (decide (p = q)) as [<-|Hne], (decide (p = q')) as [<-|Hne'].
    + done.
    + injection Hq as <-. destruct Hid. rewrite <- Himg. by eapply elem_of_map_img_2.
    + injection Hq' as <-. destruct Hid. rewrite <- Himg. by eapply elem_of_map_img_2.
    + by eapply Hinj.
Qed.

(** One turn of the loop over the fonts: the font gets the identifier that
    [assigned] describes, which becomes a used one. *)
Lemma write_fonts_smpte_step (font : Font) (rest : list Font) (used_ids : gset string)
    (w : Writer) :
  Z.of_nat (size used_ids) < 2 ^ 32 →
  ∃ id, (id ∉ used_ids) ∧ (id ≠ "")
        ∧ assigned used_ids (if decide (font_id font = "") then "font" else font_id font) id
        ∧ write_fonts_smpte (font :: rest) used_ids w =
            write_fonts_smpte rest ({[id]} ∪ used_ids)
              (set_fonts (<[font_ptr font := id]> (_fonts w)) w).
Proof.
  intros Hsize. cbn [write_fonts_smpte]. rewrite <- fix_id_decide.
  destruct (decide (fix_id (font_id font) ∈ used_ids)) as [Hin|Hnin].
  - rewrite bool_decide_eq_false_2 by (by intros Hn; apply Hn).
    destruct (unique_id_spec used_ids (fix_id (font_id font)) Hsize)
      as (a & d & j & Hform & -> & Hfree & Hused).
    exists (candidate a d j). split_and!; [done|apply candidate_nonempty| |done].
    split; [done|]. intros _. by exists a, d, j.
  - rewrite bool_decide_eq_true_2 by done.
    exists (fix_id (font_id font)).
    split_and!; [done|apply fix_id_spec| |].
    + split; [done|]. intros Hin. by destruct Hnin.
    + unfold mbind, M_bind, modify. cbn [_fonts set_fonts].
      by rewrite insert_insert_eq, set_fonts_set_fonts.
Qed.

Lemma write_fonts_smpte_run (fonts : list Font) (used_ids : gset string) (w : Writer) :
  fonts_inv (_fonts w) used_ids →
  NoDup (font_ptr <$> fonts) →
  (∀ f, f ∈ fonts → _fonts w !! font_ptr f = None) →
  Z.of_nat (size used_ids + length fonts) ≤ 2 ^ 32 →
  ∃ (w' : Writer) (ids : list string),
    write_fonts_smpte fonts used_ids w = (Returned (list_to_set ids ∪ used_ids), w')
    ∧ fonts_inv (_fonts w') (list_to_set ids ∪ used_ids)
    ∧ size (_fonts w') = (size (_fonts w) + length fonts)%nat
    ∧ (∀ p id, _fonts w !! p = Some id → _fonts w' !! p = Some id)
    ∧ length ids = length fonts
    ∧ NoDup ids
    ∧ (∀ id, id ∈ ids → id ≠ "" ∧ id ∉ used_ids)
    ∧ (∀ k f, fonts !! k = Some f → _fonts w' !! font_ptr f = ids !! k)
    ∧ (∀ k f id, fonts !! k = Some f → ids !! k = Some id →
         assigned (used_ids ∪ list_to_set (take k ids))
           (if decide (font_id f = "") then "font" else font_id f) id).
Proof.
  revert used_ids w.
  induction fonts as [|font rest IH]; intros used_ids w Hinv Hnodup Hfresh Hbound.
  - exists w, []. cbn [list_to_set]. rewrite (left_id_L ∅ (∪)).
    split_and!; [done|done|simpl; lia|done|done|constructor| | |].
    + by intros id ?%elem_of_nil.
    + intros k f Hk. by rewrite lookup_nil in Hk.
    + intros k f id Hk. by rewrite lookup_nil in Hk.
  - rewrite fmap_cons in Hnodup. apply NoDup_cons in Hnodup as [Hptr Hnodup].
    assert (_fonts w !! font_ptr font = None) as Hnone by (apply Hfresh; by left).
    cbn [length] in Hbound.
    destruct (write_fonts_smpte_step font rest used_ids w)
      as (id & Hid & Hne & Hassigned & ->); [lia|].
    set (w1 := set_fonts _ w).
    destruct (IH ({[id]} ∪ used_ids) w1)
      as (w' & ids & Hrun & Hinv' & Hsize & Hkeep & Hlen & Hnd & Hids & Hlookup & Hall).
    + by apply fonts_inv_insert.
    + done.
    + intros f Hf. subst w1. cbn [_fonts set_fonts]. rewrite lookup_insert_ne.
      * apply Hfresh. by right.
      * intros Heq. apply Hptr. rewrite Heq. by apply list_elem_of_fmap_2.
    + rewrite size_union, size_singleton by (by apply disjoint_singleton_l). lia.
    + assert (list_to_set ids ∪ ({[id]} ∪ used_ids)
              = list_to_set (id :: ids) ∪ used_ids :> gset string) as Hset.
      { cbn [list_to_set].
        by rewrite (comm_L (∪) {[id]} (list_to_set ids)), (assoc_L (∪)). }
      rewrite Hset in Hrun, Hinv'.
      exists w', (id :: ids). split_and!; [done|done| | | | | | |].
      * rewrite Hsize. subst w1. cbn [_fonts set_fonts length].
        rewrite map_size_insert_None by done. lia.
      * intros p x Hp. apply Hkeep. subst w1. cbn [_fonts set_fonts].
        rewrite lookup_insert_ne; [done|]. intros <-. congruence.
      * cbn [length]. by rewrite Hlen.
      * constructor; [|done]. intros Hin. destruct (Hids id Hin) as [_ Hnin].
        apply Hnin. apply elem_of_union_l. by apply elem_of_singleton.
      * intros x [->|Hx]%elem_of_cons; [done|]. destruct (Hids x Hx) as [? Hnin].
        split; [done|]. intros Hin. apply Hnin. by apply elem_of_union_r.
      * intros [|k] f Hk.
        -- injection Hk as <-. cbn [lookup list_lookup]. apply Hkeep. subst w1.
           cbn [_fonts set_fonts]. by rewrite lookup_insert_eq.
        -- apply (Hlookup k f Hk).
      * intros [|k] f x Hk Hx.
        -- injection Hk as <-. injection Hx as <-. cbn [take list_to_set].
           by rewrite (right_id_L ∅ (∪)).
        -- cbn [take list_to_set].
           rewrite (assoc_L (∪)), (comm_L (∪) used_ids {[id]}).
           by apply (Hall k f x).
Qed.

(** C5.  The package is not Interop, the font table is empty and the fonts
    given are [N] different font objects, no more than [2^32].  The call
    returns; its assertion holds; the table has [N] entries, one for each
    font given, [ids] in the order of the fonts; no identifier in it is
    empty; no two fonts have the same identifier, so there are as many
    identifiers as entries.  A font keeps its own identifier (["font"] when
    that is empty) unless an earlier font of the list has got it; then it
    gets the first identifier that no earlier font has got of: its own one
    with [_0] added, or its own one as it is when that ends in an underscore
    and digits, and then that with the number replaced by the numbers after
    it, one after the other. *)
Theorem write_fonts_smpte_unique_ids (w : Writer) (fonts : list Font) :
  interop (film w) = false →
  _fonts w = ∅ →
  NoDup (font_ptr <$> fonts) →
  Z.of_nat (length fonts) ≤ 2 ^ 32 →
  ∃ (w' : Writer) (ids : list string),
    write_fonts fonts w = (Returned tt, w')
    ∧ length ids = length fonts
    ∧ size (_fonts w') = length fonts
    ∧ (∀ k f, fonts !! k = Some f → _fonts w' !! font_ptr f = ids !! k)
    ∧ NoDup ids
    ∧ (∀ id, id ∈ ids → id ≠ "")
    ∧ (∀ k f id, fonts !! k = Some f → ids !! k = Some id →
         assigned (list_to_set (take k ids))
           (if decide (font_id f = "") then "font" else font_id f) id)
    ∧ (∀ p q id, _fonts w' !! p = Some id → _fonts w' !! q = Some id → p = q)
    ∧ size (map_img (_fonts w') : gset string) = size (_fonts w').
Proof.
  intros Hinterop Hempty Hnodup Hbound. destruct fonts as [|first rest].
  - exists w, []. rewrite Hempty. split_and!; [done|done|done| |constructor| | | |].
    + intros k f Hk. by rewrite lookup_nil in Hk.
    + by intros id ?%elem_of_nil.
    + intros k f id Hk. by rewrite lookup_nil in Hk.
    + intros p q id Hp. by rewrite lookup_empty in Hp.
    + by rewrite map_img_empty_L, map_size_empty, size_empty.
  - destruct (write_fonts_smpte_run (first :: rest) ∅ w)
      as (w' & ids & Hrun & (Himg & Hsize' & Hinj) & Hsize & _ & Hlen & Hnd & Hids
          & Hlookup & Hall).
    + rewrite Hempty. apply fonts_inv_empty.
    + done.
    + intros f _. by rewrite Hempty, lookup_empty.
    + by rewrite size_empty.
    + exists w', ids. unfold write_fonts.
      unfold mbind at 1. unfold M_bind at 1. unfold get at 1. rewrite Hinterop.
      unfold mbind at 1. unfold M_bind at 1. rewrite Hrun.
      unfold mbind at 1. unfold M_bind at 1. unfold get at 1.
      unfold DCPOMATIC_ASSERT. rewrite bool_decide_eq_true_2 by done.
      split_and!; [done|done| |done|done| | |done|].
      * rewrite Hsize, Hempty, map_size_empty. done.
      * intros id Hid. by destruct (Hids id Hid).
      * intros k f id Hk Hid. specialize (Hall k f id Hk Hid).
        by rewrite (left_id_L ∅ (∪)) in Hall.
      * by rewrite Himg.
Qed.

(** ** Filling gaps *)

Lemma set_decoded_set_decoded (v v' : list ContentVideo) (d : VideoDecoder) :
  set_decoded v (set_decoded v' d) = set_decoded v d.
Proof. reflexivity. Qed.

Lemma push_back_each (g : Z → ContentVideo) (l : list Z) (d : VideoDecoder) :
  for_each l (λ i, push_back (g i)) d =
    (Returned tt, set_decoded (_decoded d ++ (g <$> l)) d).
Proof.
  revert d. induction l as [|i l IH]; intros d.
  - simpl. rewrite app_nil_r. by destruct d.
  - cbn [for_each]. unfold mbind at 1. unfold M_bind at 1. unfold push_back at 1.
    unfold modify at 1. rewrite IH. cbn [_decoded set_decoded].
    by rewrite set_decoded_set_decoded, <- app_assoc.
Qed.

(** What [fill_one_eye] does when there is something decoded: a filler for
    every frame of the gap, with the image and the part of the frame decoded
    last. *)
Lemma fill_one_eye_repeats_last (from_ to_ : Z) (eye : Eyes) (d : VideoDecoder)
    (back : ContentVideo) :
  to_ ≠ 0 → last (_decoded d) = Some back →
  fill_one_eye from_ to_ eye d =
    (Returned tt,
     set_decoded
       (_decoded d
        ++ ((λ i, {| cv_image := cv_image back; cv_eyes := eye;
                     cv_part := cv_part back; cv_frame := i |})
              <$> seqZ from_ (to_ - from_))) d).
Proof.
  intros Hto Hback. unfold fill_one_eye. rewrite bool_decide_eq_false_2 by done.
  unfold mbind, M_bind, get. rewrite Hback. apply push_back_each.
Qed.

(** What [fill_one_eye] does when nothing is decoded: black fillers. *)
Lemma fill_one_eye_black (from_ to_ : Z) (eye : Eyes) (d : VideoDecoder) :
  to_ ≠ 0 → _decoded d = [] →
  fill_one_eye from_ to_ eye d =
    (Returned tt,
     set_decoded
       ((λ i, {| cv_image := Some (RawImageProxy (_black_image d)); cv_eyes := eye;
                 cv_part := PART_WHOLE; cv_frame := i |})
          <$> seqZ from_ (to_ - from_)) d).
Proof.
  intros Hto Hempty. unfold fill_one_eye. rewrite bool_decide_eq_false_2 by done.
  unfold mbind, M_bind, get. rewrite Hempty. cbn [last].
  rewrite push_back_each. by rewrite Hempty.
Qed.

(** The loop of [fill_both_eyes] over what is decoded changes nothing: the
    filler images are the black image when it starts, not empty, and it only
    replaces an empty one. *)
Lemma find_fillers_keeps (rdecoded : list ContentVideo) (f : Fillers) :
  filler_left_image f ≠ None → filler_right_image f ≠ None →
  find_fillers rdecoded f = f.
Proof.
  intros Hleft Hright. destruct rdecoded as [|i rest]; [done|].
  cbn [find_fillers].
  rewrite (bool_decide_eq_false_2 (filler_left_image f = None)) by done.
  rewrite (bool_decide_eq_false_2 (filler_right_image f = None)) by done.
  rewrite !andb_false_r.
  rewrite (bool_decide_eq_true_2 (filler_left_image f ≠ None)) by done.
  by rewrite (bool_decide_eq_true_2 (filler_right_image f ≠ None)) by done.
Qed.

Lemma set_decoded_id (d : VideoDecoder) : set_decoded (_decoded d) d = d.
Proof. by destruct d. Qed.

(** Whatever the loop of [fill_both_eyes] pushes carries one of the two
    filler images. *)
Lemma fill_both_eyes_loop_images (fuel : nat) (f : Fillers) (filler_frame : Z)
    (filler_eye : Eyes) (to_ : Z) (eye : Eyes) (d : VideoDecoder) :
  ∃ fillers : list ContentVideo,
    (fill_both_eyes_loop fuel f filler_frame filler_eye to_ eye d).2
      = set_decoded (_decoded d ++ fillers) d
    ∧ Forall (λ v, cv_image v = filler_left_image f ∨ cv_image v = filler_right_image f)
        fillers.
Proof.
  revert filler_frame filler_eye d.
  induction fuel as [|fuel IH]; intros filler_frame filler_eye d.
  - exists []. rewrite app_nil_r, set_decoded_id. split; [|done].
    cbn [fill_both_eyes_loop]. by destruct (_ || _).
  - cbn [fill_both_eyes_loop]. destruct (_ || _).
    2:{ exists []. by rewrite app_nil_r, set_decoded_id. }
    unfold mbind at 1. unfold M_bind at 1. unfold push_back at 1. unfold modify at 1.
    set (v := Build_ContentVideo _ _ _ _). set (d1 := set_decoded _ d).
    assert (cv_image v = filler_left_image f ∨ cv_image v = filler_right_image f) as Hv.
    { subst v. cbn [cv_image]. case_bool_decide; [by left|by right]. }
    destruct (bool_decide (filler_eye = LEFT)).
    + destruct (IH filler_frame RIGHT d1) as (l & -> & Hl).
      exists (v :: l). split; [|by constructor].
      subst d1. cbn [_decoded set_decoded].
      by rewrite set_decoded_set_decoded, <- app_assoc.
    + destruct (IH (filler_frame + 1) LEFT d1) as (l & -> & Hl).
      exists (v :: l). split; [|by constructor].
      subst d1. cbn [_decoded set_decoded].
      by rewrite set_decoded_set_decoded, <- app_assoc.
Qed.

(** The fillers of [fill_both_eyes] are black, whatever is decoded. *)
Lemma fill_both_eyes_black (from_ to_ : Z) (eye : Eyes) (d : VideoDecoder) :
  ∃ fillers : list ContentVideo,
    (fill_both_eyes from_ to_ eye d).2 = set_decoded (_decoded d ++ fillers) d
    ∧ Forall (λ v, cv_image v = Some (RawImageProxy (_black_image d))) fillers.
Proof.
  unfold fill_both_eyes. destruct (_ && _).
  { exists []. by rewrite app_nil_r, set_decoded_id. }
  unfold mbind, M_bind, get. rewrite find_fillers_keeps by done.
  set (f := Build_Fillers _ _ _ _).
  destruct (match last (_decoded d) with
            | Some back => _
            | None => (0, LEFT)
            end) as [filler_frame filler_eye].
  destruct (fill_both_eyes_loop_images (Z.to_nat (2 * (to_ - filler_frame) + 2)) f
              filler_frame filler_eye to_ eye d) as (l & Hrun & Hl).
  exists l. split; [done|]. eapply Forall_impl; [exact Hl|]. by intros v [?|?].
Qed.

(** * More properties *)

(** ** The order of queue items *)

Lemma Eyes_to_int_inj (a b : Eyes) : Eyes_to_int a = Eyes_to_int b → a = b.
Proof. by destruct a, b. Qed.

(** X1.  [operator<] on queue items is a strict weak ordering, as the sort of
    the queue needs: no item is before itself, the order is transitive, and
    so is not being before.  Two items that neither is before the other of
    are the ones [operator==] holds for: the same segment, offset and
    channel, whatever their type and data. *)
Theorem QueueItem_lt_strict_weak_order (a b c : QueueItem) :
  QueueItem_lt a a = false
  ∧ (QueueItem_lt a b = true → QueueItem_lt b c = true → QueueItem_lt a c = true)
  ∧ (QueueItem_lt a b = false → QueueItem_lt b c = false → QueueItem_lt a c = false)
  ∧ (QueueItem_eq a b = true ↔ QueueItem_lt a b = false ∧ QueueItem_lt b a = false).
Proof.
  split_and!.
  - apply QueueItem_lt_false_spec. lia.
  - rewrite !QueueItem_lt_spec. lia.
  - rewrite !QueueItem_lt_false_spec. lia.
  - unfold QueueItem_eq. rewrite !andb_true_iff, !bool_decide_eq_true.
    rewrite !QueueItem_lt_false_spec. split.
    + intros [[-> ->] ->]. lia.
    + intros [Hab Hba].
      assert (Eyes_to_int (eyes a) = Eyes_to_int (eyes b)) as Heyes by lia.
      apply Eyes_to_int_inj in Heyes. split_and!; [lia|lia|done].
Qed.

(** ** The segment of a frame *)

(** X2.  [video_reel] gives the first segment whose period holds the time of
    the frame, and fails on its assertion exactly when no segment holds it;
    either way the writer is as it was. *)
Theorem video_reel_first_containing (frame_ : Z) (w : Writer) :
  let t := from_frames frame_ (video_frame_rate (film w)) in
  (∀ i : nat,
     video_reel frame_ w = (Returned i, w) ↔
       (∃ r, _reels w !! i = Some r ∧ contains (period r) t = true)
       ∧ ∀ j r, (j < i)%nat → _reels w !! j = Some r → contains (period r) t = false)
  ∧ (video_reel frame_ w = (Thrown (ProgrammingError 977), w) ↔
       ∀ r, r ∈ _reels w → contains (period r) t = false)
  ∧ (video_reel frame_ w).2 = w.
Proof.
  intros t. rewrite video_reel_run. fold t.
  set (k := video_reel_from (_reels w) t 0).
  assert (video_reel_from (_reels w) t 0 = (0 + k)%nat) as Hk by done.
  apply video_reel_from_spec in Hk as (Hle & Hbefore & Hat).
  split_and!.
  - intros i. case_bool_decide as Hlt.
    + destruct (Hat Hlt) as (r & Hr & Hin). split.
      * intros [= <-]. split; [by exists r|done].
      * intros [(r' & Hr' & Hin') Hbefore']. f_equal. f_equal.
        destruct (Nat.lt_trichotomy k i) as [Hki|[->|Hik]]; [|done|].
        -- specialize (Hbefore' _ _ Hki Hr). congruence.
        -- specialize (Hbefore _ _ Hik Hr'). congruence.
    + split; [done|]. intros [(r & Hr & Hin) _].
      assert (i < k)%nat as Hik by (apply lookup_lt_Some in Hr; lia).
      specialize (Hbefore _ _ Hik Hr). congruence.
  - case_bool_decide as Hlt.
    + destruct (Hat Hlt) as (r & Hr & Hin). split; [done|].
      intros Hnone. rewrite Hnone in Hin; [done|]. by eapply list_elem_of_lookup_2.
    + split; [|done]. intros _ r [j Hj]%list_elem_of_lookup.
      apply (Hbefore j r); [|done]. apply lookup_lt_Some in Hj. lia.
  - by case_bool_decide.
Qed.

(** ** The writer thread *)

Lemma set_writer_id (t : WriterThread) : set_writer (writer t) t = t.
Proof. by destruct t. Qed.

Lemma queue_sort_nil_inv (l : list QueueItem) : queue_sort l = [] → l = [].
Proof. intros Hs. apply Permutation_nil. by rewrite <- Hs, queue_sort_perm. Qed.

Lemma have_sequenced_image_at_queue_head_run (w : Writer) :
  have_sequenced_image_at_queue_head w =
    match queue_sort (_queue w) with
    | [] => (Returned false, w)
    | f :: _ =>
      match _last_written w !! reel f with
      | Some lw => (Returned (LastWritten_next lw f), set_queue (queue_sort (_queue w)) w)
      | None => (Thrown InvalidAccess, set_queue (queue_sort (_queue w)) w)
      end
    end.
Proof.
  unfold have_sequenced_image_at_queue_head. unfold_M.
  destruct (_queue w) as [|x q] eqn:Hq; [done|].
  rewrite bool_decide_eq_false_2 by done.
  destruct (queue_sort (x :: q)) as [|f s] eqn:Hs.
  { by apply queue_sort_nil_inv in Hs. }
  simpl. by destruct (_last_written w !! reel f).
Qed.

(** One turn of the loop that writes the frames in sequence. *)
Lemma write_sequenced_step (fuel : nat) (t : WriterThread) :
  write_sequenced (S fuel) t =
    match queue_sort (_queue (writer t)) with
    | [] => (Returned tt, t)
    | f :: _ =>
      let w := set_queue (queue_sort (_queue (writer t))) (writer t) in
      match _last_written (writer t) !! reel f with
      | None => (Thrown InvalidAccess, set_writer w t)
      | Some lw =>
        if LastWritten_next lw f
        then write_sequenced fuel (reel_write_item f (set_writer (take_front f w) t))
        else (Returned tt, set_writer w t)
      end
    end.
Proof.
  cbn [write_sequenced]. unfold mbind at 1. unfold M_bind at 1. unfold on_writer at 1.
  rewrite have_sequenced_image_at_queue_head_run.
  destruct (queue_sort (_queue (writer t))) as [|f s] eqn:Hs.
  { by rewrite set_writer_id. }
  cbn zeta. destruct (_last_written (writer t) !! reel f) as [lw|]; [|done].
  destruct (LastWritten_next lw f); [|done].
  unfold_M. cbn [writer set_writer _queue set_queue head]. by destruct t.
Qed.

Lemma write_sequenced_0 (t : WriterThread) :
  write_sequenced 0 t =
    match queue_sort (_queue (writer t)) with
    | [] => (Returned tt, t)
    | f :: _ =>
      let w := set_queue (queue_sort (_queue (writer t))) (writer t) in
      match _last_written (writer t) !! reel f with
      | None => (Thrown InvalidAccess, set_writer w t)
      | Some lw =>
        if LastWritten_next lw f then (Thrown OutOfFuel, set_writer w t)
        else (Returned tt, set_writer w t)
      end
    end.
Proof.
  cbn [write_sequenced]. unfold mbind at 1. unfold M_bind at 1. unfold on_writer at 1.
  rewrite have_sequenced_image_at_queue_head_run.
  destruct (queue_sort (_queue (writer t))) as [|f s] eqn:Hs.
  { by rewrite set_writer_id. }
  cbn zeta. destruct (_last_written (writer t) !! reel f) as [lw|]; [|done].
  by destruct (LastWritten_next lw f).
Qed.

(** Frames for both eyes that are in sequence have the offsets that follow
    the last one written. *)
Lemma in_sequence_2d (lw : LastWritten) (l : list QueueItem) :
  in_sequence lw l → Forall (λ qi, eyes qi = BOTH) l →
  frame <$> l = seqZ (lw_frame lw + 1) (Z.of_nat (length l)).
Proof.
  revert lw. induction l as [|qi l IH]; intros lw Hseq Hboth; [done|].
  destruct Hseq as [Hnext Hseq]. apply Forall_cons in Hboth as [Hqi Hboth].
  apply LastWritten_next_spec in Hnext as [[_ Hframe]|[(_ & ? & _)|(_ & ? & _)]];
    [|congruence|congruence].
  rewrite fmap_cons, (IH _ Hseq Hboth). cbn [LastWritten_update lw_frame length].
  rewrite (seqZ_cons (lw_frame lw + 1)) by lia. rewrite Hframe. f_equal. f_equal; lia.
Qed.

(** X3.  Whatever is in the queue and however long the loop runs, what the
    thread writes to a segment continues what was last written to it, item
    by item, and the last item written is the new last written of the
    segment; so in a 2D film the offsets written to a segment are the ones
    that follow the last one, with no gap.  No item is lost: the items
    written and the items left in the queue are the items that were queued. *)
Theorem write_sequenced_in_sequence (fuel : nat) (t : WriterThread) :
  let t' := (write_sequenced fuel t).2 in
  ∃ ws : list QueueItem,
    written t' = written t ++ ws
    ∧ ws ++ _queue (writer t') ≡ₚ _queue (writer t)
    ∧ ∀ (r : nat) (lw : LastWritten),
        _last_written (writer t) !! r = Some lw →
        let ws_r := filter (λ qi, reel qi = r) ws in
        in_sequence lw ws_r
        ∧ _last_written (writer t') !! r = Some (default lw (LastWritten_update <$> last ws_r))
        ∧ (Forall (λ qi, eyes qi = BOTH) ws_r →
           frame <$> ws_r = seqZ (lw_frame lw + 1) (Z.of_nat (length ws_r))).
Proof.
  assert (∀ fuel t,
    ∃ ws : list QueueItem,
      written (write_sequenced fuel t).2 = written t ++ ws
      ∧ ws ++ _queue (writer (write_sequenced fuel t).2) ≡ₚ _queue (writer t)
      ∧ ∀ (r : nat) (lw : LastWritten),
          _last_written (writer t) !! r = Some lw →
          in_sequence lw (filter (λ qi, reel qi = r) ws)
          ∧ _last_written (writer (write_sequenced fuel t).2) !! r
            = Some (default lw (LastWritten_update <$> last (filter (λ qi, reel qi = r) ws))))
    as Hmain.
  { clear fuel t. intros fuel. induction fuel as [|fuel IH]; intros t.
    - rewrite write_sequenced_0. exists [].
      destruct (queue_sort (_queue (writer t))) as [|f s] eqn:Hs.
      { rewrite app_nil_r. by split_and!. }
      assert (_queue (writer t) ≡ₚ f :: s) as Hperm by (by rewrite <- Hs, queue_sort_perm).
      cbn zeta. destruct (_last_written (writer t) !! reel f) as [lw|];
        [destruct (LastWritten_next lw f)|];
        (rewrite app_nil_r; split_and!; [done|by symmetry|done]).
    - rewrite write_sequenced_step.
      destruct (queue_sort (_queue (writer t))) as [|f s] eqn:Hs.
      { exists []. rewrite app_nil_r. by split_and!. }
      assert (_queue (writer t) ≡ₚ f :: s) as Hperm by (by rewrite <- Hs, queue_sort_perm).
      cbn zeta. destruct (_last_written (writer t) !! reel f) as [lw|] eqn:Hlw.
      2:{ exists []. rewrite app_nil_r. split_and!; [done|by symmetry|done]. }
      destruct (LastWritten_next lw f) eqn:Hnext.
      2:{ exists []. rewrite app_nil_r. split_and!; [done|by symmetry|done]. }
      set (t1 := reel_write_item f _).
      destruct (IH t1) as (ws & Hws & Hleft & Hreels).
      assert (_queue (writer t1) = s) as Hq1.
      { subst t1. unfold take_front. cbn [writer reel_write_item set_writer].
        by destruct (_ && _). }
      assert (_last_written (writer t1)
              = alter (λ _, LastWritten_update f) (reel f) (_last_written (writer t)))
        as Hlw1.
      { subst t1. unfold take_front. cbn [writer reel_write_item set_writer].
        by destruct (_ && _). }
      exists (f :: ws). split_and!.
      + rewrite Hws. subst t1. cbn [written reel_write_item set_writer].
        by rewrite <- app_assoc.
      + rewrite Hperm. cbn [app]. f_equiv. by rewrite Hleft, Hq1.
      + intros r lw' Hr. rewrite filter_cons. destruct (decide (reel f = r)) as [<-|Hne].
        * assert (lw' = lw) as -> by congruence.
          destruct (Hreels (reel f) (LastWritten_update f)) as [Hseq Hlast].
          { rewrite Hlw1. rewrite list_lookup_alter_eq, Hlw. done. }
          split; [done|]. rewrite Hlast. f_equal.
          by destruct (filter _ ws) as [|x l] using rev_ind;
            [|rewrite last_snoc, last_cons, last_snoc].
        * destruct (Hreels r lw') as [Hseq Hlast]; [|done].
          rewrite Hlw1. by rewrite list_lookup_alter_ne. }
  intros t'. destruct (Hmain fuel t) as (ws & Hws & Hleft & Hreels).
  exists ws. split_and!; [done|done|].
  intros r lw Hr ws_r. destruct (Hreels r lw Hr) as [Hseq Hlast].
  split_and!; [done|done|]. by apply in_sequence_2d.
Qed.

Lemma count_type_cons (ty : QueueItemType) (x : QueueItem) (l : list QueueItem) :
  count_type ty (x :: l) = (if decide (type x = ty) then 1 else 0) + count_type ty l.
Proof.
  unfold count_type. rewrite filter_cons. destruct (decide (type x = ty)); simpl length; lia.
Qed.

Lemma count_in_memory_cons (x : QueueItem) (l : list QueueItem) :
  count_in_memory (x :: l) = (if in_memory x then 1 else 0) + count_in_memory l.
Proof.
  unfold count_in_memory. rewrite filter_cons.
  destruct (decide (in_memory x = true)) as [->|Hx]; [simpl length; lia|].
  apply not_true_is_false in Hx. rewrite Hx. lia.
Qed.

Lemma count_in_memory_perm (l k : list QueueItem) :
  l ≡ₚ k → count_in_memory l = count_in_memory k.
Proof. intros Hp. unfold count_in_memory. by rewrite Hp. Qed.

(** X4.  When the items of the queue, put in the order of [operator<], continue
    for every segment what was last written to it, the loop writes all of
    them in that order, whatever the order they were queued in, and leaves
    the queue empty; the counters of the three types go up by the number of
    items of each type, and the count of full frames in memory goes down by
    the number of such frames written. *)
Theorem write_sequenced_writes_all (t : WriterThread) (l : list QueueItem) :
  _queue (writer t) ≡ₚ l →
  StronglySorted (λ a b, QueueItem_lt a b = true) l →
  (∀ qi, qi ∈ l → (reel qi < length (_last_written (writer t)))%nat) →
  (∀ r lw, _last_written (writer t) !! r = Some lw →
           in_sequence lw (filter (λ qi, reel qi = r) l)) →
  ∃ t' : WriterThread,
    write_sequenced (length (_queue (writer t))) t = (Returned tt, t')
    ∧ _queue (writer t') = []
    ∧ written t' = written t ++ l
    ∧ _full_written t' = _full_written t + count_type FULL l
    ∧ _fake_written t' = _fake_written t + count_type FAKE l
    ∧ _repeat_written t' = _repeat_written t + count_type REPEAT l
    ∧ _queued_full_in_memory (writer t')
      = _queued_full_in_memory (writer t) - count_in_memory l.
Proof.
  intros Hperm. rewrite (Permutation_length Hperm).
  revert t Hperm. induction l as [|x l IH]; intros t Hperm Hsorted Hreel Hseq.
  - symmetry in Hperm. apply Permutation_nil in Hperm. exists t. cbn [length].
    rewrite write_sequenced_0, Hperm. cbn [queue_sort].
    unfold count_type, count_in_memory. cbn. rewrite app_nil_r. split_and!; done || lia.
  - cbn [length]. rewrite write_sequenced_step.
    destruct (queue_sort (_queue (writer t))) as [|f s] eqn:Hs.
    { apply queue_sort_nil_inv in Hs. rewrite Hs in Hperm.
      by apply Permutation_nil_cons in Hperm. }
    assert (f :: s ≡ₚ x :: l) as Hfs by (by rewrite <- Hs, queue_sort_perm).
    apply StronglySorted_inv in Hsorted as [Hsorted Hx].
    assert (f = x) as ->.
    { assert (f ∈ x :: l) as Hf by (rewrite <- Hfs; apply elem_of_cons; by left).
      apply elem_of_cons in Hf as [?|Hf]; [done|].
      rewrite Forall_forall in Hx. specialize (Hx f Hf).
      rewrite (queue_sort_head_least (_queue (writer t)) f) in Hx; [done|by rewrite Hs|].
      rewrite Hperm. apply elem_of_cons. by left. }
    apply Permutation_cons_inv in Hfs.
    cbn zeta.
    destruct (lookup_lt_is_Some_2 (_last_written (writer t)) (reel x)) as [lw Hlw].
    { apply Hreel, elem_of_cons. by left. }
    rewrite Hlw. pose proof (Hseq _ _ Hlw) as Hseqx.
    rewrite filter_cons_True in Hseqx by done. destruct Hseqx as [Hnext Hseqx].
    rewrite Hnext.
    set (t1 := reel_write_item x _).
    assert (_queue (writer t1) = s) as Hq1.
    { subst t1. unfold take_front. cbn [writer reel_write_item set_writer].
      by destruct (_ && _). }
    assert (_last_written (writer t1)
            = alter (λ _, LastWritten_update x) (reel x) (_last_written (writer t)))
      as Hlw1.
    { subst t1. unfold take_front. cbn [writer reel_write_item set_writer].
      by destruct (_ && _). }
    assert (_queued_full_in_memory (writer t1)
            = _queued_full_in_memory (writer t) - (if in_memory x then 1 else 0)) as Hmem1.
    { subst t1. unfold take_front, in_memory.
      cbn [writer reel_write_item set_writer].
      destruct (_ && _); cbn; lia. }
    destruct (IH t1) as (t' & Hrun & Hempty & Hwritten & Hfull & Hfake & Hrepeat & Hmem).
    + by rewrite Hq1.
    + done.
    + intros qi Hqi. rewrite Hlw1, length_alter. apply Hreel, elem_of_cons. by right.
    + intros r lw' Hr. rewrite Hlw1 in Hr.
      destruct (decide (reel x = r)) as [<-|Hne].
      * rewrite list_lookup_alter_eq, Hlw in Hr. by injection Hr as <-.
      * rewrite list_lookup_alter_ne in Hr by done.
        specialize (Hseq _ _ Hr). by rewrite filter_cons_False in Hseq.
    + exists t'. rewrite !count_type_cons, count_in_memory_cons.
      split_and!; [done|done|..].
      * rewrite Hwritten. subst t1. cbn [written reel_write_item set_writer].
        by rewrite <- app_assoc.
      * rewrite Hfull. subst t1. cbn [_full_written reel_write_item set_writer].
        destruct (type x); repeat case_decide; try done; lia.
      * rewrite Hfake. subst t1. cbn [_fake_written reel_write_item set_writer].
        destruct (type x); repeat case_decide; try done; lia.
      * rewrite Hrepeat. subst t1. cbn [_repeat_written reel_write_item set_writer].
        destruct (type x); repeat case_decide; try done; lia.
      * rewrite Hmem, Hmem1. lia.
Qed.

(** The sorted queue is in order: no item is before an earlier one. *)
Lemma queue_insert_sorted (x : QueueItem) (l : list QueueItem) :
  StronglySorted (λ a b, QueueItem_lt b a = false) l →
  StronglySorted (λ a b, QueueItem_lt b a = false) (queue_insert x l).
Proof.
  induction l as [|y l IH]; intros Hsorted; cbn [queue_insert].
  { repeat constructor. }
  apply StronglySorted_cons in Hsorted as [Hy Hsorted].
  destruct (QueueItem_lt y x) eqn:Hyx.
  - apply StronglySorted_cons. split; [|by apply IH].
    rewrite queue_insert_perm. apply Forall_cons. split; [|done].
    apply QueueItem_lt_spec in Hyx. apply QueueItem_lt_false_spec. lia.
  - apply StronglySorted_cons. split; [|by apply StronglySorted_cons].
    apply Forall_cons. split; [done|].
    eapply Forall_impl; [exact Hy|]. intros b Hb. cbn beta in Hb.
    apply QueueItem_lt_false_spec in Hyx, Hb. apply QueueItem_lt_false_spec. lia.
Qed.

Lemma queue_sort_sorted (l : list QueueItem) :
  StronglySorted (λ a b, QueueItem_lt b a = false) (queue_sort l).
Proof.
  induction l as [|x l IH]; cbn [queue_sort]; [constructor|by apply queue_insert_sorted].
Qed.

Lemma in_memory_encoded_reset (i : QueueItem) : in_memory (encoded_reset i) = false.
Proof.
  unfold in_memory. apply andb_false_iff. right. apply bool_decide_eq_false.
  intros Hne. by apply Hne.
Qed.

Lemma QueueItem_key_encoded_reset (i : QueueItem) :
  QueueItem_key (encoded_reset i) = QueueItem_key i.
Proof. done. Qed.

(** What the search from the back finds: the first full frame in memory. *)
Lemma reset_last_full_spec (rqueue : list QueueItem) :
  match reset_last_full rqueue with
  | Some (i, rqueue') =>
    ∃ pre post, rqueue = pre ++ i :: post ∧ rqueue' = pre ++ encoded_reset i :: post
                ∧ in_memory i = true ∧ Forall (λ q, in_memory q = false) pre
  | None => Forall (λ q, in_memory q = false) rqueue
  end.
Proof.
  induction rqueue as [|i rest IH]; cbn [reset_last_full]; [constructor|].
  destruct (bool_decide (type i ≠ FULL) || bool_decide (encoded i = None)) eqn:Hi.
  - assert (in_memory i = false) as Hmem.
    { unfold in_memory. apply orb_true_iff in Hi as [Hi|Hi]; apply bool_decide_eq_true in Hi.
      - by rewrite bool_decide_eq_false_2.
      - apply andb_false_iff. right. apply bool_decide_eq_false. intros Hne. by apply Hne. }
    destruct (reset_last_full rest) as [[found rest']|]; cbn.
    + destruct IH as (pre & post & -> & -> & Hfound & Hpre).
      exists (i :: pre), post. split_and!; [done|done|done|by constructor].
    + by constructor.
  - exists [], rest. split_and!; [done|done| |constructor].
    apply orb_false_iff in Hi as [Hty Hen]. apply bool_decide_eq_false in Hty, Hen.
    unfold in_memory. apply andb_true_iff. split; apply bool_decide_eq_true; [|done].
    by destruct (decide (type i = FULL)).
Qed.

Lemma count_in_memory_app (l k : list QueueItem) :
  count_in_memory (l ++ k) = count_in_memory l + count_in_memory k.
Proof. unfold count_in_memory. rewrite filter_app, length_app. lia. Qed.

Lemma count_in_memory_none (l : list QueueItem) :
  Forall (λ q, in_memory q = false) l → count_in_memory l = 0.
Proof.
  induction 1 as [|x l Hx _ IH]; [done|]. by rewrite count_in_memory_cons, Hx, IH.
Qed.

Lemma count_in_memory_nonneg (l : list QueueItem) : 0 ≤ count_in_memory l.
Proof. unfold count_in_memory. lia. Qed.

Lemma push_to_disk_done (fuel : nat) (t : WriterThread) :
  _queued_full_in_memory (writer t) ≤ _maximum_frames_in_memory (writer t) →
  push_to_disk fuel t = (Returned tt, t).
Proof.
  intros Hle. destruct fuel; cbn [push_to_disk]; unfold_M;
    by rewrite bool_decide_eq_false_2 by lia.
Qed.

(** One turn of the loop that pushes frames to disk. *)
Lemma push_to_disk_step (fuel : nat) (t : WriterThread) :
  _maximum_frames_in_memory (writer t) < _queued_full_in_memory (writer t) →
  push_to_disk (S fuel) t =
    match reset_last_full (reverse (queue_sort (_queue (writer t)))) with
    | None =>
      (Thrown (ProgrammingError 465),
       set_writer (set_queue (queue_sort (_queue (writer t))) (writer t)) t)
    | Some (i, rqueue) =>
      push_to_disk fuel
        {| writer := set_queued_full_in_memory (_queued_full_in_memory (writer t) - 1)
                       (set_queue (reverse rqueue) (writer t));
           written := written t; on_disk := on_disk t ++ [i];
           _full_written := _full_written t; _fake_written := _fake_written t;
           _repeat_written := _repeat_written t;
           _pushed_to_disk := _pushed_to_disk t + 1 |}
    end.
Proof.
  intros Hlt. cbn [push_to_disk]. unfold_M. rewrite bool_decide_eq_true_2 by done.
  by destruct (reset_last_full _) as [[i rqueue]|].
Qed.

(** What the loop that pushes frames to disk does in its [over] turns, when
    the count of full frames in memory is right. *)
Lemma push_to_disk_turns (over : nat) (t : WriterThread) :
  let w := writer t in
  over = Z.to_nat (_queued_full_in_memory w - _maximum_frames_in_memory w) →
  _queued_full_in_memory w = count_in_memory (_queue w) →
  0 ≤ _maximum_frames_in_memory w →
  ∃ (t' : WriterThread) (pushed : list QueueItem),
    push_to_disk over t = (Returned tt, t')
    ∧ _queued_full_in_memory (writer t')
      = Z.min (_queued_full_in_memory w) (_maximum_frames_in_memory w)
    ∧ _queued_full_in_memory (writer t') = count_in_memory (_queue (writer t'))
    ∧ QueueItem_key <$> _queue (writer t') ≡ₚ QueueItem_key <$> _queue w
    ∧ on_disk t' = on_disk t ++ pushed
    ∧ length pushed = over
    ∧ _pushed_to_disk t' = _pushed_to_disk t + Z.of_nat over
    ∧ (∀ i, i ∈ pushed → i ∈ _queue w ∧ in_memory i = true)
    ∧ (∀ i q, i ∈ pushed → q ∈ _queue (writer t') → in_memory q = true →
              QueueItem_lt i q = false)
    ∧ (∀ q, q ∈ _queue (writer t') → in_memory q = true → q ∈ _queue w)
    ∧ written t' = written t
    ∧ _last_written (writer t') = _last_written w
    ∧ _maximum_frames_in_memory (writer t') = _maximum_frames_in_memory w.
Proof.
  intros w. subst w. revert t. induction over as [|n IH]; intros t Hn Hinv Hmax.
  - exists t, []. rewrite push_to_disk_done by lia. rewrite app_nil_r.
    split_and!; try done; try lia.
    + intros i Hi. by apply elem_of_nil in Hi.
    + intros i q Hi. by apply elem_of_nil in Hi.
  - rewrite push_to_disk_step by lia.
    pose proof (reset_last_full_spec (reverse (queue_sort (_queue (writer t))))) as Hfind.
    assert (reverse (queue_sort (_queue (writer t))) ≡ₚ _queue (writer t)) as Hperm.
    { by rewrite reverse_Permutation, queue_sort_perm. }
    destruct (reset_last_full _) as [[i rqueue]|].
    2:{ apply count_in_memory_none in Hfind.
        rewrite (count_in_memory_perm _ _ Hperm) in Hfind. lia. }
    destruct Hfind as (pre & post & Hrev & -> & Hi & Hpre).
    assert (count_in_memory (_queue (writer t)) = 1 + count_in_memory post) as Hcount.
    { rewrite <- (count_in_memory_perm _ _ Hperm), Hrev, count_in_memory_app,
        count_in_memory_cons, Hi, (count_in_memory_none pre) by done. lia. }
    assert (∀ q, q ∈ post → QueueItem_lt i q = false) as Hlast.
    { intros q Hq.
      pose proof (queue_sort_sorted (_queue (writer t))) as Hsorted.
      rewrite <- (reverse_involutive (queue_sort _)), Hrev, reverse_app, reverse_cons
        in Hsorted.
      apply StronglySorted_app_1_l in Hsorted.
      apply (StronglySorted_app_1_elem_of _ _ _ q i) in Hsorted;
        [done|by apply elem_of_reverse|by apply list_elem_of_singleton]. }
    assert (∀ q, q ∈ reverse (pre ++ encoded_reset i :: post) → in_memory q = true →
                 q ∈ post) as Hkept.
    { intros q Hq Hmem. apply elem_of_reverse, elem_of_app in Hq as [Hq|Hq].
      - rewrite Forall_forall in Hpre. by rewrite (Hpre q Hq) in Hmem.
      - apply elem_of_cons in Hq as [->|Hq]; [|done].
        by rewrite in_memory_encoded_reset in Hmem. }
    assert (∀ q, q ∈ post → q ∈ _queue (writer t)) as Hpost.
    { intros q Hq. rewrite <- Hperm, Hrev. apply elem_of_app. right.
      apply elem_of_cons. by right. }
    set (t1 := Build_WriterThread _ _ _ _ _ _ _).
    destruct (IH t1) as (t' & pushed & Hrun & Hmin & Hinv' & Hkeys & Hdisk & Hlen & Hcounter
                         & Hpushed & Hafter & Hstay & Hwritten & Hlw & Hmax').
    { subst t1. cbn. lia. }
    { subst t1. cbn. rewrite (count_in_memory_perm _ (pre ++ encoded_reset i :: post))
        by apply reverse_Permutation.
      rewrite count_in_memory_app, count_in_memory_cons, in_memory_encoded_reset,
        (count_in_memory_none pre) by done. lia. }
    { done. }
    exists t', (i :: pushed). split_and!.
    + done.
    + rewrite Hmin. subst t1. cbn. lia.
    + done.
    + rewrite Hkeys. subst t1. cbn. rewrite reverse_Permutation, <- Hperm, Hrev.
      by rewrite !fmap_app, !fmap_cons, QueueItem_key_encoded_reset.
    + rewrite Hdisk. subst t1. cbn. by rewrite <- app_assoc.
    + cbn [length]. by rewrite Hlen.
    + rewrite Hcounter. subst t1. cbn. lia.
    + intros j Hj. apply elem_of_cons in Hj as [->|Hj].
      * split; [|done]. rewrite <- Hperm, Hrev. apply elem_of_app. right.
        apply elem_of_cons. by left.
      * destruct (Hpushed j Hj) as [Hin Hmem]. split; [|done].
        apply Hpost, Hkept; [|done]. exact Hin.
    + intros j q Hj Hq Hmem. apply elem_of_cons in Hj as [->|Hj].
      * apply Hlast, Hkept; [|done]. by apply Hstay.
      * by apply Hafter.
    + intros q Hq Hmem. apply Hpost, Hkept; [|done]. by apply Hstay.
    + done.
    + done.
    + done.
Qed.

(** X5.  The count of full frames in memory is the number of full frames
    with data in the queue, and the most that may stay in memory is not
    negative.  Then the loop that pushes frames to disk ends without failing
    the assertion of line 465, with no more than the most allowed in memory:
    it pushes as many frames as were over, one by one; each is a full frame
    of the queue that had its data, and none of the frames that stay in
    memory comes after it in the order of the queue, so the frames furthest
    from being written go to disk.  The queue keeps its items, only the data
    of the frames pushed is gone; nothing is written to a segment. *)
Theorem push_to_disk_frees_memory (t : WriterThread) :
  let w := writer t in
  let over := Z.to_nat (_queued_full_in_memory w - _maximum_frames_in_memory w) in
  _queued_full_in_memory w = count_in_memory (_queue w) →
  0 ≤ _maximum_frames_in_memory w →
  ∃ (t' : WriterThread) (pushed : list QueueItem),
    push_to_disk over t = (Returned tt, t')
    ∧ _queued_full_in_memory (writer t')
      = Z.min (_queued_full_in_memory w) (_maximum_frames_in_memory w)
    ∧ _queued_full_in_memory (writer t') = count_in_memory (_queue (writer t'))
    ∧ QueueItem_key <$> _queue (writer t') ≡ₚ QueueItem_key <$> _queue w
    ∧ on_disk t' = on_disk t ++ pushed
    ∧ length pushed = over
    ∧ _pushed_to_disk t' = _pushed_to_disk t + Z.of_nat over
    ∧ (∀ i, i ∈ pushed → i ∈ _queue w ∧ in_memory i = true)
    ∧ (∀ i q, i ∈ pushed → q ∈ _queue (writer t') → in_memory q = true →
              QueueItem_lt i q = false)
    ∧ (∀ q, q ∈ _queue (writer t') → in_memory q = true → q ∈ _queue w)
    ∧ written t' = written t
    ∧ _last_written (writer t') = _last_written w
    ∧ _maximum_frames_in_memory (writer t') = _maximum_frames_in_memory w.
Proof.
  intros w over Hinv Hmax.
  destruct (push_to_disk_turns over t eq_refl Hinv Hmax) as (t' & pushed & Hturns).
  exists t', pushed. exact Hturns.
Qed.

(** The heads of two sorted queues that have the same items, but for their
    data, are for the same segment, offset and eye. *)
Lemma queue_sort_head_key (l l' : list QueueItem) (f f' : QueueItem) :
  QueueItem_key <$> l' ≡ₚ QueueItem_key <$> l →
  head (queue_sort l) = Some f → head (queue_sort l') = Some f' →
  reel f' = reel f ∧ frame f' = frame f ∧ eyes f' = eyes f.
Proof.
  intros Hkeys Hf Hf'.
  assert (∀ k k' h, QueueItem_key <$> k' ≡ₚ QueueItem_key <$> k →
            head (queue_sort k) = Some h →
            ∃ g, g ∈ k' ∧ reel g = reel h ∧ frame g = frame h ∧ eyes g = eyes h)
    as Hsame.
  { intros k k' h Hk Hh.
    assert (h ∈ k) as Hin.
    { rewrite <- queue_sort_perm. destruct (queue_sort k); [done|].
      injection Hh as ->. apply elem_of_cons. by left. }
    assert (QueueItem_key h ∈ QueueItem_key <$> k') as Hkey.
    { rewrite Hk. by apply list_elem_of_fmap_2. }
    apply list_elem_of_fmap in Hkey as (g & Hg & Hgin). exists g.
    unfold QueueItem_key in Hg. injection Hg as _ _ ? ? ?. by split_and!. }
  destruct (Hsame l l' f Hkeys Hf) as (g' & Hg' & Hr' & Hf'' & He').
  destruct (Hsame l' l f' (symmetry Hkeys) Hf') as (g & Hg & Hr & Hfr & He).
  pose proof (queue_sort_head_least l f Hf g Hg) as Hleast.
  pose proof (queue_sort_head_least l' f' Hf' g' Hg') as Hleast'.
  apply QueueItem_lt_false_spec in Hleast, Hleast'.
  rewrite Hr, Hfr, He in Hleast. rewrite Hr', Hf'', He' in Hleast'.
  assert (reel f' = reel f) as Hreel by lia.
  assert (frame f' = frame f) as Hframe by lia.
  split_and!; [done|done|]. apply Eyes_to_int_inj. lia.
Qed.

(** Whether the head of the queue can be written depends on the items of
    the queue, but not on their data or their order, and on what was last
    written. *)
Lemma have_sequenced_image_at_queue_head_keys (w w' : Writer) :
  _last_written w' = _last_written w →
  QueueItem_key <$> _queue w' ≡ₚ QueueItem_key <$> _queue w →
  (have_sequenced_image_at_queue_head w').1 = (have_sequenced_image_at_queue_head w).1.
Proof.
  intros Hlw Hkeys. rewrite !have_sequenced_image_at_queue_head_run.
  destruct (queue_sort (_queue w)) as [|f s] eqn:Hs;
    destruct (queue_sort (_queue w')) as [|f' s'] eqn:Hs'.
  - done.
  - apply queue_sort_nil_inv in Hs. rewrite Hs in Hkeys. symmetry in Hkeys.
    apply Permutation_nil, fmap_nil_inv in Hkeys. by rewrite Hkeys in Hs'.
  - apply queue_sort_nil_inv in Hs'. rewrite Hs' in Hkeys.
    apply Permutation_nil, fmap_nil_inv in Hkeys. by rewrite Hkeys in Hs.
  - destruct (queue_sort_head_key (_queue w) (_queue w') f f') as (Hr & Hf & He);
      [done|by rewrite Hs|by rewrite Hs'|].
    rewrite Hlw, Hr. destruct (_last_written w !! reel f) as [lw|]; [|done].
    cbn [fst]. f_equal. unfold LastWritten_next. by rewrite Hf, He.
Qed.

(** The loop that writes the frames in sequence ends when its fuel is the
    length of the queue, and then the head of the queue cannot be
    written. *)
Lemma write_sequenced_returns (fuel : nat) (t : WriterThread) :
  (length (_queue (writer t)) ≤ fuel)%nat →
  (∀ qi, qi ∈ _queue (writer t) → (reel qi < length (_last_written (writer t)))%nat) →
  ∃ t' : WriterThread,
    write_sequenced fuel t = (Returned tt, t')
    ∧ (have_sequenced_image_at_queue_head (writer t')).1 = Returned false
    ∧ length (_last_written (writer t')) = length (_last_written (writer t))
    ∧ (∀ qi, qi ∈ _queue (writer t') → qi ∈ _queue (writer t))
    ∧ _queued_full_in_memory (writer t') - count_in_memory (_queue (writer t'))
      = _queued_full_in_memory (writer t) - count_in_memory (_queue (writer t))
    ∧ _maximum_frames_in_memory (writer t') = _maximum_frames_in_memory (writer t)
    ∧ on_disk t' = on_disk t
    ∧ _pushed_to_disk t' = _pushed_to_disk t.
Proof.
  revert t. induction fuel as [|fuel IH]; intros t Hfuel Hreel.
  - destruct (_queue (writer t)) as [|x q] eqn:Hq; [|cbn in Hfuel; lia].
    exists t. rewrite write_sequenced_0, have_sequenced_image_at_queue_head_run, Hq.
    by split_and!.
  - rewrite write_sequenced_step.
    destruct (queue_sort (_queue (writer t))) as [|f s] eqn:Hs.
    { exists t. rewrite have_sequenced_image_at_queue_head_run, Hs. by split_and!. }
    assert (f :: s ≡ₚ _queue (writer t)) as Hperm by (by rewrite <- Hs, queue_sort_perm).
    cbn zeta.
    destruct (lookup_lt_is_Some_2 (_last_written (writer t)) (reel f)) as [lw Hlw].
    { apply Hreel. rewrite <- Hperm. apply elem_of_cons. by left. }
    rewrite Hlw. destruct (LastWritten_next lw f) eqn:Hnext.
    + set (t1 := reel_write_item f _).
      assert (_queue (writer t1) = s) as Hq1.
      { subst t1. unfold take_front. cbn [writer reel_write_item set_writer].
        by destruct (_ && _). }
      assert (_last_written (writer t1)
              = alter (λ _, LastWritten_update f) (reel f) (_last_written (writer t)))
        as Hlw1.
      { subst t1. unfold take_front. cbn [writer reel_write_item set_writer].
        by destruct (_ && _). }
      assert (_queued_full_in_memory (writer t1)
              = _queued_full_in_memory (writer t) - (if in_memory f then 1 else 0))
        as Hmem1.
      { subst t1. unfold take_front, in_memory.
        cbn [writer reel_write_item set_writer]. destruct (_ && _); cbn; lia. }
      assert (_maximum_frames_in_memory (writer t1) = _maximum_frames_in_memory (writer t))
        as Hmax1.
      { subst t1. unfold take_front. cbn [writer reel_write_item set_writer].
        by destruct (_ && _). }
      destruct (IH t1) as (t' & Hrun & Hhead & Hlen & Hsub & Hmem & Hmax & Hdisk & Hpushed).
      { rewrite Hq1. apply Permutation_length in Hperm. cbn in Hperm. lia. }
      { intros qi Hqi. rewrite Hlw1, length_alter. apply Hreel. rewrite <- Hperm.
        apply elem_of_cons. right. by rewrite <- Hq1. }
      exists t'. split_and!; [done|done|..].
      * by rewrite Hlen, Hlw1, length_alter.
      * intros qi Hqi. rewrite <- Hperm. apply elem_of_cons. right.
        rewrite <- Hq1. by apply Hsub.
      * rewrite Hmem, Hmem1, Hq1, <- (count_in_memory_perm _ _ Hperm),
          count_in_memory_cons. lia.
      * by rewrite Hmax, Hmax1.
      * done.
      * done.
    + exists (set_writer (set_queue (f :: s) (writer t)) t). split_and!; [done|..].
      * rewrite (have_sequenced_image_at_queue_head_keys (writer t));
          [|done|cbn [writer set_writer _queue set_queue]; by rewrite Hperm].
        by rewrite have_sequenced_image_at_queue_head_run, Hs, Hlw, Hnext.
      * done.
      * intros qi Hqi. by rewrite <- Hperm.
      * cbn [writer set_writer _queue set_queue _queued_full_in_memory].
        by rewrite (count_in_memory_perm _ _ Hperm).
      * done.
      * done.
      * done.
Qed.

(** A call that queues a frame waits only when the thread can write the head
    of the queue, for [repeat] and [fake_write], or when too many frames are
    in memory, for [write]. *)
Lemma wait_for_queue_waits (w : Writer) :
  (wait_for_queue w).1 = Thrown Waiting →
  (have_sequenced_image_at_queue_head w).1 = Returned true.
Proof.
  unfold wait_for_queue. unfold mbind at 1. unfold M_bind at 1. unfold get at 1.
  case_bool_decide; [|done]. unfold mbind, M_bind.
  rewrite have_sequenced_image_at_queue_head_run.
  destruct (queue_sort (_queue w)) as [|f s]; [done|].
  destruct (_last_written w !! reel f) as [lw|]; [|done].
  by destruct (LastWritten_next lw f).
Qed.

Lemma push_for_eyes_returns (type_ : QueueItemType) (item_size : Z) (i : nat)
    (qi_frame : Z) (eyes_ : Eyes) (w : Writer) :
  (push_for_eyes type_ item_size i qi_frame eyes_ w).1 = Returned tt.
Proof. unfold push_for_eyes. unfold_M. by destruct (_ && _). Qed.

Lemma repeat_waits (frame_ : Z) (eyes_ : Eyes) (w : Writer) :
  (repeat frame_ eyes_ w).1 = Thrown Waiting → (wait_for_queue w).1 = Thrown Waiting.
Proof.
  unfold repeat. unfold mbind at 1. unfold M_bind at 1.
  destruct (wait_for_queue w) as [[[]|e] w1]; [|done].
  unfold mbind at 1. unfold M_bind at 1. rewrite video_reel_run.
  case_bool_decide; [|done].
  unfold mbind at 1. unfold M_bind at 1. unfold get at 1.
  unfold mbind at 1. unfold M_bind at 1. unfold deref at 1.
  destruct (_reels w1 !! _); [|done]. unfold mret, M_ret.
  by rewrite push_for_eyes_returns.
Qed.

Lemma fake_write_waits (read_frame_info : nat → Z → Eyes → Z) (frame_ : Z) (eyes_ : Eyes)
    (w : Writer) :
  (fake_write read_frame_info frame_ eyes_ w).1 = Thrown Waiting →
  (wait_for_queue w).1 = Thrown Waiting.
Proof.
  unfold fake_write. unfold mbind at 1. unfold M_bind at 1.
  destruct (wait_for_queue w) as [[[]|e] w1]; [|done].
  unfold mbind at 1. unfold M_bind at 1. rewrite video_reel_run.
  case_bool_decide; [|done].
  unfold mbind at 1. unfold M_bind at 1. unfold get at 1.
  unfold mbind at 1. unfold M_bind at 1. unfold deref at 1.
  destruct (_reels w1 !! _); [|done]. unfold mret, M_ret.
  by rewrite push_for_eyes_returns.
Qed.

Lemma write_video_waits (encoded_ : option Data) (frame_ : Z) (eyes_ : Eyes) (w : Writer) :
  (write_video encoded_ frame_ eyes_ w).1 = Thrown Waiting →
  _maximum_frames_in_memory w < _queued_full_in_memory w.
Proof.
  unfold write_video. unfold mbind at 1. unfold M_bind at 1. unfold get at 1.
  case_bool_decide; [done|].
  unfold mbind at 1. unfold M_bind at 1. rewrite video_reel_run.
  case_bool_decide; [|done].
  unfold mbind at 1. unfold M_bind at 1. unfold deref at 1.
  destruct (_reels w !! _); [|done].
  unfold mbind at 1. unfold M_bind at 1. unfold DCPOMATIC_ASSERT at 1.
  by destruct (_ || _).
Qed.

(** X6.  Every item of the queue is for a segment of the film, the count of
    full frames in memory is the number of full frames with data in the
    queue, and the most that may stay in memory is not negative.  Then a
    pass of the thread ends, and leaves the thread nothing to do: no more
    frames than allowed are in memory and the head of the queue cannot be
    written, so pushing frames to disk does not make an item ready that the
    first loop left.  What the pass assumed still holds after it, and no call
    that queues a frame waits for the thread then, however long the queue
    is. *)
Theorem thread_pass_leaves_nothing_to_do (t : WriterThread) :
  let w := writer t in
  (∀ qi, qi ∈ _queue w → (reel qi < length (_last_written w))%nat) →
  _queued_full_in_memory w = count_in_memory (_queue w) →
  0 ≤ _maximum_frames_in_memory w →
  ∃ t' : WriterThread,
    thread_pass t = (Returned tt, t')
    ∧ _queued_full_in_memory (writer t') ≤ _maximum_frames_in_memory (writer t')
    ∧ (have_sequenced_image_at_queue_head (writer t')).1 = Returned false
    ∧ (∀ qi, qi ∈ _queue (writer t') →
             (reel qi < length (_last_written (writer t')))%nat)
    ∧ _queued_full_in_memory (writer t') = count_in_memory (_queue (writer t'))
    ∧ _maximum_frames_in_memory (writer t') = _maximum_frames_in_memory w
    ∧ (∀ encoded_ frame_ eyes_,
         (write_video encoded_ frame_ eyes_ (writer t')).1 ≠ Thrown Waiting)
    ∧ (∀ frame_ eyes_, (repeat frame_ eyes_ (writer t')).1 ≠ Thrown Waiting)
    ∧ (∀ read_frame_info frame_ eyes_,
         (fake_write read_frame_info frame_ eyes_ (writer t')).1 ≠ Thrown Waiting).
Proof.
  intros w Hreel Hinv Hmax. subst w.
  destruct (write_sequenced_returns (length (_queue (writer t))) t)
    as (t1 & Hrun1 & Hhead1 & Hlen1 & Hsub1 & Hmem1 & Hmax1 & _); [done|done|].
  destruct (push_to_disk_turns _ t1 eq_refl)
    as (t' & pushed & Hrun & Hmin & Hinv' & Hkeys & _ & _ & _ & _ & _ & _ & _ & Hlw & Hmax');
    [lia|lia|].
  exists t'. split_and!.
  - unfold thread_pass. unfold_M. rewrite Hrun1. by rewrite Hrun.
  - lia.
  - by rewrite (have_sequenced_image_at_queue_head_keys (writer t1)).
  - intros qi Hqi. rewrite Hlw, Hlen1.
    assert (QueueItem_key qi ∈ QueueItem_key <$> _queue (writer t1)) as Hkey.
    { rewrite <- Hkeys. by apply list_elem_of_fmap_2. }
    apply list_elem_of_fmap in Hkey as (g & Hg & Hgin).
    unfold QueueItem_key in Hg. injection Hg as _ _ -> _ _. by apply Hreel, Hsub1.
  - done.
  - lia.
  - intros encoded_ frame_ eyes_ Hwait%write_video_waits. lia.
  - intros frame_ eyes_ Hwait%repeat_waits%wait_for_queue_waits.
    rewrite (have_sequenced_image_at_queue_head_keys (writer t1)) in Hwait by done.
    congruence.
  - intros read_frame_info frame_ eyes_ Hwait%fake_write_waits%wait_for_queue_waits.
    rewrite (have_sequenced_image_at_queue_head_keys (writer t1)) in Hwait by done.
    congruence.
Qed.

(** ** The queue between the calls and the thread *)

Lemma set_queue_id (w : Writer) : set_queue (_queue w) w = w.
Proof. by destruct w. Qed.

Lemma Writer_inv_set_queue (q : list QueueItem) (w : Writer) :
  q ≡ₚ _queue w → Writer_inv w → Writer_inv (set_queue q w).
Proof.
  intros Hperm (Hlen & Hreel & Hmem). split_and!; [done| |].
  - intros qi Hqi. apply Hreel. by rewrite <- Hperm.
  - cbn [_queued_full_in_memory set_queue _queue].
    by rewrite (count_in_memory_perm _ _ Hperm).
Qed.

(** The wait for the thread leaves the writer as it is, but for the order of
    its queue. *)
Lemma wait_for_queue_state (w : Writer) :
  ∃ q, q ≡ₚ _queue w ∧ (wait_for_queue w).2 = set_queue q w.
Proof.
  unfold wait_for_queue. unfold mbind at 1. unfold M_bind at 1. unfold get at 1.
  case_bool_decide.
  - unfold mbind, M_bind. rewrite have_sequenced_image_at_queue_head_run.
    destruct (queue_sort (_queue w)) as [|f s] eqn:Hs.
    + exists (_queue w). by rewrite set_queue_id.
    + exists (f :: s). split; [by rewrite <- Hs, queue_sort_perm|].
      destruct (_last_written w !! reel f) as [lw|]; [|done].
      by destruct (LastWritten_next lw f).
  - exists (_queue w). by rewrite set_queue_id.
Qed.

Lemma in_memory_no_data (qi : QueueItem) : encoded qi = None → in_memory qi = false.
Proof.
  intros Hnone. unfold in_memory. apply andb_false_iff. right.
  by apply bool_decide_eq_false; intros Hne.
Qed.

Lemma in_memory_data (qi : QueueItem) (data : Data) :
  type qi = FULL → encoded qi = Some data → in_memory qi = true.
Proof.
  intros Hfull Hdata. unfold in_memory. rewrite Hdata.
  apply andb_true_iff. split; by apply bool_decide_eq_true.
Qed.

Lemma count_in_memory_no_data (qi : QueueItem) :
  encoded qi = None → count_in_memory [qi] = 0.
Proof. intros Hnone. by rewrite count_in_memory_cons, in_memory_no_data. Qed.

Lemma push_for_eyes_inv (type_ : QueueItemType) (item_size : Z) (i : nat) (qi_frame : Z)
    (eyes_ : Eyes) (w : Writer) :
  (i < length (_reels w))%nat → Writer_inv w →
  Writer_inv (push_for_eyes type_ item_size i qi_frame eyes_ w).2.
Proof.
  intros Hi (Hlen & Hreel & Hmem). unfold push_for_eyes. unfold_M.
  destruct (three_d (film w) && bool_decide (eyes_ = BOTH)); cbn [snd].
  - split_and!; [done| |].
    + intros qi. cbn [_queue set_queue _reels]. rewrite !elem_of_app, !list_elem_of_singleton.
      intros [[Hqi| ->]| ->]; [by apply Hreel|done|done].
    + cbn [_queued_full_in_memory _queue set_queue].
      rewrite !count_in_memory_app, Hmem, !count_in_memory_no_data by done. lia.
  - split_and!; [done| |].
    + intros qi. cbn [_queue set_queue _reels]. rewrite !elem_of_app, !list_elem_of_singleton.
      intros [Hqi| ->]; [by apply Hreel|done].
    + cbn [_queued_full_in_memory _queue set_queue].
      rewrite !count_in_memory_app, Hmem, !count_in_memory_no_data by done. lia.
Qed.

(** X7.  What the thread needs of the queue holds from the constructor on
    and is kept by every call that queues a frame, whether the call returns,
    waits or fails: there is a last written frame for every segment, every
    item of the queue is for a segment of the film, and the count of full
    frames in memory is the number of full frames with data in the queue.
    [write] keeps it for a frame that has data; [repeat] and [fake_write]
    queue items without data and leave the count alone. *)
Theorem Writer_inv_kept :
  (∀ f : Film, Writer_inv (Writer_init f))
  ∧ ∀ w : Writer, Writer_inv w →
      (∀ (data : Data) (frame_ : Z) (eyes_ : Eyes),
         Writer_inv (write_video (Some data) frame_ eyes_ w).2)
      ∧ (∀ (frame_ : Z) (eyes_ : Eyes), Writer_inv (repeat frame_ eyes_ w).2)
      ∧ (∀ (read_frame_info : nat → Z → Eyes → Z) (frame_ : Z) (eyes_ : Eyes),
           Writer_inv (fake_write read_frame_info frame_ eyes_ w).2).
Proof.
  split.
  { intros f. split_and!; [|by intros qi ?%elem_of_nil|done].
    cbn. by rewrite length_replicate, length_fmap. }
  intros w Hinv. split_and!.
  - intros data frame_ eyes_. unfold write_video.
    unfold mbind at 1. unfold M_bind at 1. unfold get at 1.
    case_bool_decide; [done|].
    unfold mbind at 1. unfold M_bind at 1. rewrite video_reel_run.
    case_bool_decide as Hi; [|done].
    unfold mbind at 1. unfold M_bind at 1. unfold deref at 1.
    destruct (_reels w !! _) as [r|]; [|done].
    unfold mbind at 1. unfold M_bind at 1. unfold DCPOMATIC_ASSERT at 1.
    destruct (_ || _); [|done]. unfold_M. cbn [snd].
    destruct Hinv as (Hlen & Hreel & Hmem). split_and!; [done| |].
    + intros qi. cbn [_queue set_queue set_queued_full_in_memory _reels].
      rewrite elem_of_app, list_elem_of_singleton. intros [Hqi| ->]; [by apply Hreel|done].
    + cbn [_queued_full_in_memory _queue set_queue set_queued_full_in_memory].
      rewrite count_in_memory_app, Hmem, count_in_memory_cons, (in_memory_data _ data)
        by done.
      unfold count_in_memory. cbn. lia.
  - intros frame_ eyes_. unfold repeat.
    destruct (wait_for_queue_state w) as (q & Hq & Hstate).
    unfold mbind at 1. unfold M_bind at 1.
    destruct (wait_for_queue w) as [[[]|e] w1]; cbn [snd] in Hstate; subst w1;
      [|by apply Writer_inv_set_queue].
    unfold mbind at 1. unfold M_bind at 1. rewrite video_reel_run.
    case_bool_decide as Hi; [|by apply Writer_inv_set_queue].
    unfold mbind at 1. unfold M_bind at 1. unfold get at 1.
    unfold mbind at 1. unfold M_bind at 1. unfold deref at 1.
    destruct (_reels (set_queue q w) !! _) as [r|]; [|by apply Writer_inv_set_queue].
    apply push_for_eyes_inv; [done|by apply Writer_inv_set_queue].
  - intros read_frame_info frame_ eyes_. unfold fake_write.
    destruct (wait_for_queue_state w) as (q & Hq & Hstate).
    unfold mbind at 1. unfold M_bind at 1.
    destruct (wait_for_queue w) as [[[]|e] w1]; cbn [snd] in Hstate; subst w1;
      [|by apply Writer_inv_set_queue].
    unfold mbind at 1. unfold M_bind at 1. rewrite video_reel_run.
    case_bool_decide as Hi; [|by apply Writer_inv_set_queue].
    unfold mbind at 1. unfold M_bind at 1. unfold get at 1.
    unfold mbind at 1. unfold M_bind at 1. unfold deref at 1.
    destruct (_reels (set_queue q w) !! _) as [r|]; [|by apply Writer_inv_set_queue].
    apply push_for_eyes_inv; [done|by apply Writer_inv_set_queue].
Qed.

(** ** The assertion on the font table *)

(** The loop over no more than [2^32] fonts never fails: it takes a new
    identifier for every font given, and the table gets an entry for every
    font object given. *)
Lemma write_fonts_smpte_total (fonts : list Font) (used_ids : gset string) (w : Writer) :
  Z.of_nat (size used_ids + length fonts) ≤ 2 ^ 32 →
  ∃ (w' : Writer) (used_ids' : gset string),
    write_fonts_smpte fonts used_ids w = (Returned used_ids', w')
    ∧ size used_ids' = (size used_ids + length fonts)%nat
    ∧ dom (_fonts w') = dom (_fonts w) ∪ list_to_set (font_ptr <$> fonts).
Proof.
  revert used_ids w. induction fonts as [|font rest IH]; intros used_ids w Hbound.
  - exists w, used_ids. split_and!; [done|cbn; lia|].
    cbn. by rewrite (right_id_L ∅ (∪)).
  - cbn [length] in Hbound.
    destruct (write_fonts_smpte_step font rest used_ids w) as (id & Hid & _ & _ & ->);
      [lia|].
    destruct (IH ({[id]} ∪ used_ids)
                (set_fonts (<[font_ptr font := id]> (_fonts w)) w))
      as (w' & used_ids' & Hrun & Hsize & Hdom).
    { rewrite size_union, size_singleton by (by apply disjoint_singleton_l). lia. }
    exists w', used_ids'. split_and!; [done| |].
    + rewrite Hsize, size_union, size_singleton by (by apply disjoint_singleton_l).
      cbn [length]. lia.
    + rewrite Hdom. cbn [_fonts set_fonts]. rewrite dom_insert_L, fmap_cons.
      cbn [list_to_set].
      by rewrite (comm_L (∪) {[font_ptr font]} (dom (_fonts w))), (assoc_L (∪)).
Qed.

Lemma size_list_to_set_le (l : list positive) :
  (size (list_to_set l : gset positive) ≤ length l)%nat
  ∧ (size (list_to_set l : gset positive) = length l → NoDup l).
Proof.
  induction l as [|x l [IHle IHeq]]; [split; [done|constructor]|].
  cbn [list_to_set length]. destruct (decide (x ∈ l)) as [Hin|Hnin].
  - assert ({[x]} ∪ list_to_set l = (list_to_set l : gset positive)) as ->.
    { apply subseteq_union_1_L, singleton_subseteq_l. by apply elem_of_list_to_set. }
    split; lia.
  - rewrite size_union, size_singleton
      by (apply disjoint_singleton_l; by rewrite elem_of_list_to_set).
    split; [lia|].
    intros Heq. constructor; [done|]. apply IHeq. lia.
Qed.

(** X8.  The package is not Interop and fonts are given, no more than [2^32]
    (the counter of the suffix is an [int], so that the loop that increments
    it ends when fewer identifiers than that are used).  The loop over the
    fonts never fails, so the call comes to the assertion of line 925, which
    compares the size of the whole font table with the number of identifiers
    taken in this call.  The call returns when the font objects in the table
    after it are as many as the fonts given, and fails the assertion
    otherwise.  So with an empty table the call returns exactly when no font
    object is given twice, and with no font object given twice it returns
    exactly when the table held no font before that is not given again. *)
Theorem write_fonts_smpte_assertion (w : Writer) (fonts : list Font) :
  let given : gset positive := list_to_set (font_ptr <$> fonts) in
  interop (film w) = false → fonts ≠ [] →
  Z.of_nat (length fonts) ≤ 2 ^ 32 →
  ∃ w' : Writer,
    dom (_fonts w') = dom (_fonts w) ∪ given
    ∧ write_fonts fonts w =
        (if decide (size (dom (_fonts w) ∪ given) = length fonts) then Returned tt
         else Thrown (ProgrammingError 925), w')
    ∧ (_fonts w = ∅ →
       (write_fonts fonts w).1 = Returned tt ↔ NoDup (font_ptr <$> fonts))
    ∧ (NoDup (font_ptr <$> fonts) →
       (write_fonts fonts w).1 = Returned tt ↔ dom (_fonts w) ⊆ given).
Proof.
  intros given Hinterop Hfonts Hbound.
  destruct (write_fonts_smpte_total fonts ∅ w) as (w' & used_ids' & Hrun & Hsize & Hdom).
  { by rewrite size_empty. }
  rewrite size_empty in Hsize. cbn in Hsize.
  assert (write_fonts fonts w =
            (if decide (size (dom (_fonts w) ∪ given) = length fonts) then Returned tt
             else Thrown (ProgrammingError 925), w')) as Hwrite.
  { destruct fonts as [|first rest]; [done|]. unfold write_fonts.
    unfold mbind at 1. unfold M_bind at 1. unfold get at 1. rewrite Hinterop.
    unfold mbind at 1. unfold M_bind at 1. rewrite Hrun.
    unfold mbind at 1. unfold M_bind at 1. unfold get at 1.
    unfold DCPOMATIC_ASSERT. rewrite <- size_dom, Hdom, Hsize.
    by destruct (decide (size (dom (_fonts w) ∪ given) = length (first :: rest))) as [Heq|Hne];
      [rewrite bool_decide_eq_true_2|rewrite bool_decide_eq_false_2]. }
  exists w'. split_and!; [done|done| |].
  - intros Hempty. rewrite Hwrite, Hempty, dom_empty_L, (left_id_L ∅ (∪)). cbn [fst].
    destruct (size_list_to_set_le (font_ptr <$> fonts)) as [Hle Hnodup].
    rewrite length_fmap in Hle, Hnodup. fold given in Hle, Hnodup.
    destruct (decide (size given = length fonts)) as [Heq|Hne].
    + split; [intros _; by apply Hnodup|done].
    + split; [done|]. intros Hnd. destruct Hne. subst given.
      by rewrite size_list_to_set, length_fmap.
  - intros Hnd. rewrite Hwrite. cbn [fst].
    assert (size given = length fonts) as Hgiven.
    { subst given. by rewrite size_list_to_set, length_fmap. }
    destruct (decide (size (dom (_fonts w) ∪ given) = length fonts)) as [Heq|Hne].
    + split; [intros _|done].
      assert (dom (_fonts w) ∪ given = given) as Hsame.
      { symmetry. apply set_subseteq_size_eq; [apply union_subseteq_r|]. lia. }
      rewrite <- Hsame. apply union_subseteq_l.
    + split; [done|]. intros Hsub. destruct Hne.
      by rewrite (subseteq_union_1_L _ _ Hsub).
Qed.

(** ** Audio over any number of segments *)

Lemma ReelWriter_write_audio_nil (r : ReelWriter) : ReelWriter_write_audio r [] = r.
Proof. destruct r. unfold ReelWriter_write_audio. cbn. by rewrite app_nil_r. Qed.

Lemma zip_with_write_audio_nil (l : list ReelWriter) :
  zip_with ReelWriter_write_audio l (replicate (length l) []) = l.
Proof.
  induction l as [|r l IH]; [done|]. cbn. by rewrite ReelWriter_write_audio_nil, IH.
Qed.

Lemma concat_replicate_nil (n : nat) : concat (replicate n ([] : AudioBuffers)) = [].
Proof. induction n as [|n IH]; [done|]. by cbn. Qed.

Lemma written_in_pieces_refl (w : Writer) (buffer : AudioBuffers) :
  written_in_pieces w buffer w.
Proof.
  exists (replicate (length (drop (_audio_reel w) (_reels w))) []).
  split_and!; [by rewrite length_replicate| | |done].
  - by rewrite zip_with_write_audio_nil, take_drop.
  - rewrite concat_replicate_nil. apply prefix_nil.
Qed.

Lemma written_in_pieces_here (w w' : Writer) (r : ReelWriter) (a : AudioBuffers) :
  _reels w !! _audio_reel w = Some r →
  _reels w' = alter (λ r, ReelWriter_write_audio r a) (_audio_reel w) (_reels w) →
  _audio_reel w' = _audio_reel w →
  written_in_pieces w a w'.
Proof.
  intros Hr Hreels Hcursor.
  exists (a :: replicate (length (drop (S (_audio_reel w)) (_reels w))) []).
  rewrite (drop_S _ _ _ Hr). split_and!.
  - cbn. by rewrite length_replicate.
  - cbn [zip_with]. rewrite zip_with_write_audio_nil, Hreels.
    rewrite <- (take_drop_middle (alter _ _ _) (_audio_reel w) (ReelWriter_write_audio r a))
      by (by rewrite list_lookup_alter_eq, Hr).
    by rewrite take_alter_ge, drop_alter_lt by lia.
  - cbn [concat]. by rewrite concat_replicate_nil, app_nil_r.
  - lia.
Qed.

Lemma written_in_pieces_next (w w1 w' : Writer) (r : ReelWriter)
    (piece0 rest buffer : AudioBuffers) :
  _reels w !! _audio_reel w = Some r →
  _audio_reel w1 = S (_audio_reel w) →
  _reels w1 = alter (λ r, ReelWriter_write_audio r piece0) (_audio_reel w) (_reels w) →
  written_in_pieces w1 rest w' →
  piece0 ++ rest `prefix_of` buffer →
  written_in_pieces w buffer w'.
Proof.
  intros Hr Hcursor Hreels (pieces & Hlen & Hreels' & Hprefix & Hle) Hbuffer.
  rewrite Hcursor, Hreels in Hlen, Hreels'. rewrite Hcursor in Hle.
  rewrite drop_alter_lt in Hlen, Hreels' by lia.
  rewrite (take_S_r _ _ (ReelWriter_write_audio r piece0)) in Hreels'
    by (by rewrite list_lookup_alter_eq, Hr).
  rewrite take_alter_ge in Hreels' by lia.
  exists (piece0 :: pieces). rewrite (drop_S _ _ _ Hr). split_and!.
  - cbn. by rewrite Hlen.
  - cbn [zip_with]. by rewrite Hreels', <- app_assoc.
  - cbn [concat]. etrans; [|exact Hbuffer]. by apply prefix_app.
  - lia.
Qed.

(** What the loop writes, whatever is left of the buffer and wherever the
    cursor is. *)
Lemma write_audio_loop_pieces (fuel : nat) (audio : option AudioBuffers) (t end_ : DCPTime)
    (w : Writer) :
  written_in_pieces w (default [] audio) (write_audio_loop fuel audio t end_ w).2.
Proof.
  revert audio t w. induction fuel as [|fuel IH]; intros audio t w.
  { cbn [write_audio_loop]. case_bool_decide; apply written_in_pieces_refl. }
  destruct (decide (t < end_)) as [Hlt|Hge];
    [|rewrite write_audio_loop_done by done; apply written_in_pieces_refl].
  destruct (_reels w !! _audio_reel w) as [r|] eqn:Hr;
    [|rewrite write_audio_loop_off_end by done; apply written_in_pieces_refl].
  destruct (decide (end_ ≤ to (period r))) as [Heasy|Hlater].
  { destruct audio as [a|].
    - rewrite (write_audio_loop_easy _ _ _ _ _ r) by done.
      by apply (written_in_pieces_here _ _ r).
    - rewrite (write_audio_loop_easy_null _ _ _ _ r) by done.
      apply written_in_pieces_refl. }
  destruct (decide (to (period r) ≤ t)) as [Hskip|Hin].
  { rewrite (write_audio_loop_skip _ _ _ _ _ r) by (done || lia).
    apply (written_in_pieces_next w (set_audio_reel (S (_audio_reel w)) w) _ r []
             (default [] audio)); [done|done| |apply IH|done].
    cbn [_reels set_audio_reel]. symmetry. apply list_alter_id.
    intros x. apply ReelWriter_write_audio_nil. }
  cbn [write_audio_loop]. rewrite bool_decide_eq_true_2 by done.
  unfold mbind at 1. unfold M_bind at 1. unfold get at 1. rewrite Hr.
  rewrite bool_decide_eq_false_2 by done. rewrite bool_decide_eq_false_2 by done.
  destruct audio as [a|]; [|apply written_in_pieces_refl].
  unfold mbind at 1. unfold M_bind at 1. unfold deref at 1. unfold mret at 1, M_ret at 1.
  unfold mbind at 1. unfold M_bind at 1. unfold DCPOMATIC_ASSERT at 1.
  case_bool_decide; [|apply written_in_pieces_refl]. unfold mret at 1, M_ret at 1.
  unfold mbind at 1. unfold M_bind at 1. unfold when at 1.
  set (part_frames0 := frames_ceil (to (period r) - t) (audio_frame_rate (film w))).
  set (part_frames1 := frames_floor (end_ - to (period r)) (audio_frame_rate (film w))).
  assert (take (Z.to_nat part_frames0) a
          ++ default [] (if bool_decide (part_frames1 ≠ 0)
                         then Some (AudioBuffers_part a part_frames1 part_frames0)
                         else None) `prefix_of` a) as Hprefix.
  { case_bool_decide; cbn [default].
    - unfold AudioBuffers_part. rewrite <- (take_drop (Z.to_nat part_frames0) a) at 3.
      apply prefix_app, prefix_take.
    - rewrite app_nil_r. apply prefix_take. }
  destruct (decide (part_frames0 = 0)) as [Hzero|Hpart0].
  - rewrite (bool_decide_eq_false_2 (part_frames0 ≠ 0)) by (by intros Hne).
    unfold mret, M_ret. cbv beta iota.
    unfold mbind at 1. unfold M_bind at 1. unfold modify at 1.
    assert (take (Z.to_nat part_frames0) a = []) as Htake by (by rewrite Hzero).
    rewrite Htake in Hprefix.
    match goal with
    | |- written_in_pieces _ _ (write_audio_loop _ ?audio' _ _ ?w1).2 =>
      apply (written_in_pieces_next w w1 _ r [] (default [] audio'));
        [done|done| |apply IH|exact Hprefix]
    end.
    cbn [_reels set_audio_reel]. symmetry. apply list_alter_id.
    intros x. apply ReelWriter_write_audio_nil.
  - rewrite (bool_decide_eq_true_2 (part_frames0 ≠ 0)) by done.
    unfold audio_reel_write at 1. unfold mbind at 1. unfold M_bind at 1. unfold deref at 1.
    unfold mret at 1, M_ret at 1. unfold modify at 1.
    unfold mbind at 1. unfold M_bind at 1. unfold modify at 1.
    match goal with
    | |- written_in_pieces _ _ (write_audio_loop _ ?audio' _ _ ?w1).2 =>
      apply (written_in_pieces_next w w1 _ r (take (Z.to_nat part_frames0) a)
               (default [] audio')); [done|done|done|apply IH|exact Hprefix]
    end.
Qed.

(** X9.  Whatever the buffer, the time and the segments are, and whether the
    call returns or fails, a call with audio leaves the segments before the
    audio cursor as they are and gives every segment from the cursor on a
    piece of audio, which may be empty, at the end of its sound; the pieces,
    taken in the order of the segments, are a beginning of the buffer.  So
    no audio frame is written twice, to an earlier segment than the frame
    before it, or in another order than it came in; the audio cursor never
    moves back; and nothing but sound changes in a segment. *)
Theorem write_audio_in_order (w : Writer) (a : AudioBuffers) (t : DCPTime) :
  let w' := (write_audio (Some a) t w).2 in
  let before := take (_audio_reel w) (_reels w) in
  let from_cursor := drop (_audio_reel w) (_reels w) in
  ∃ pieces : list AudioBuffers,
    length pieces = length from_cursor
    ∧ _reels w' = before ++ zip_with ReelWriter_write_audio from_cursor pieces
    ∧ concat pieces `prefix_of` a
    ∧ (_audio_reel w ≤ _audio_reel w')%nat
    ∧ (∀ i r', _reels w' !! i = Some r' →
         ∃ r, _reels w !! i = Some r ∧ period r' = period r ∧ texts r' = texts r
              ∧ sound r `prefix_of` sound r').
Proof.
  intros w' before from_cursor. subst w'. rewrite write_audio_unfold.
  destruct (write_audio_loop_pieces (S (length (_reels w) - _audio_reel w)) (Some a) t
              (t + from_frames (frames a) (audio_frame_rate (film w))) w)
    as (pieces & Hlen & Hreels & Hprefix & Hle).
  exists pieces. split_and!; [done|done|done|done|].
  intros i r' Hr'. rewrite Hreels in Hr'.
  rewrite <- (take_drop (_audio_reel w) (_reels w)).
  apply lookup_app_Some in Hr' as [Hr'|[Hge Hr']].
  - exists r'. split_and!; [by apply lookup_app_l_Some|done|done|done].
  - apply lookup_zip_with_Some in Hr' as (r & piece & -> & Hr & Hpiece).
    exists r. split_and!; [|done|done|by apply prefix_app_r].
    rewrite lookup_app_r by done. exact Hr.
Qed.

(** ** The segment a text goes to *)

Lemma cursor_get_reels_hanging (c : TextCursor) (reels : list ReelWriter)
    (hanging : list HangingText) (w : Writer) :
  cursor_get c (set_hanging_texts hanging (set_reels reels w)) = cursor_get c w.
Proof. by destruct c. Qed.

(** Where the loop that moves a text cursor ends: at the first segment, from
    the cursor on, that ends after [period_from], or past the last segment
    with the assertion of line 827 failed.  The segments keep their periods,
    and no text is added to the hanging ones. *)
Lemma advance_text_reel_spec (fuel : nat) (c : TextCursor) (period_from : DCPTime)
    (w : Writer) (i : nat) :
  cursor_get c w = Some i → (i < length (_reels w))%nat →
  (length (_reels w) ≤ i + fuel)%nat →
  ∃ j : nat,
    cursor_get c (advance_text_reel fuel c period_from w).2 = Some j
    ∧ (i ≤ j)%nat
    ∧ period <$> _reels (advance_text_reel fuel c period_from w).2 = period <$> _reels w
    ∧ (∀ m q, (i ≤ m < j)%nat → (period <$> _reels w) !! m = Some q → to q ≤ period_from)
    ∧ (∀ h, h ∈ _hanging_texts (advance_text_reel fuel c period_from w).2 →
            h ∈ _hanging_texts w)
    ∧ film (advance_text_reel fuel c period_from w).2 = film w
    ∧ ((advance_text_reel fuel c period_from w).1 = Returned tt
       ∧ (∃ q, (period <$> _reels w) !! j = Some q ∧ period_from < to q)
       ∨ (advance_text_reel fuel c period_from w).1 = Thrown (ProgrammingError 827)
         ∧ j = length (_reels w)).
Proof.
  revert w i. induction fuel as [|fuel IH]; intros w i Hc Hi Hfuel; [lia|].
  destruct (lookup_lt_is_Some_2 (_reels w) i Hi) as [r Hr].
  remember (advance_text_reel (S fuel) c period_from w) as res eqn:Hres.
  cbn [advance_text_reel] in Hres.
  unfold mbind at 1 in Hres. unfold M_bind at 1 in Hres. unfold get at 1 in Hres.
  rewrite Hc in Hres. unfold mbind at 1 in Hres. unfold M_bind at 1 in Hres.
  unfold deref at 1 in Hres. unfold mret at 1, M_ret at 1 in Hres. rewrite Hr in Hres.
  unfold mbind at 1 in Hres. unfold M_bind at 1 in Hres. unfold deref at 1 in Hres.
  unfold mret at 1, M_ret at 1 in Hres.
  case_bool_decide as Hends.
  2:{ unfold mret, M_ret in Hres. subst res. cbn [fst snd].
      exists i. split_and!; [done|done|done| |done|done|].
      - intros m q Hm. lia.
      - left. split; [done|]. exists (period r). rewrite list_lookup_fmap, Hr.
        split; [done|lia]. }
  unfold mbind at 1 in Hres. unfold M_bind at 1 in Hres. unfold modify at 1 in Hres.
  unfold mbind at 1 in Hres. unfold M_bind at 1 in Hres.
  unfold DCPOMATIC_ASSERT at 1 in Hres.
  assert (_reels (cursor_set c (S i) w) = _reels w) as Hreels by (by destruct c).
  assert (_hanging_texts (cursor_set c (S i) w) = _hanging_texts w) as Hhanging
    by (by destruct c).
  assert (film (cursor_set c (S i) w) = film w) as Hfilm by (by destruct c).
  assert (∀ m q, (i ≤ m < S i)%nat → (period <$> _reels w) !! m = Some q →
                 to q ≤ period_from) as Hhere.
  { intros m q Hm. assert (m = i) as -> by lia.
    rewrite list_lookup_fmap, Hr. by intros [= <-]. }
  case_bool_decide as Hnext.
  2:{ unfold throw in Hres. subst res. exists (S i). cbn [fst snd].
      rewrite cursor_get_set, Hreels, Hhanging, Hfilm.
      split_and!; [done|lia|done|done|done|done|]. right. split; [done|lia]. }
  unfold mret at 1, M_ret at 1 in Hres.
  destruct (lookup_lt_is_Some_2 (_reels w) (S i) Hnext) as [r' Hr'].
  unfold mbind at 1 in Hres. unfold M_bind at 1 in Hres.
  rewrite (write_hanging_text_run _ _ r') in Hres by (by rewrite Hreels).
  rewrite write_hanging_text_loop_spec in Hres. cbn [fst snd] in Hres.
  rewrite Hreels, Hhanging in Hres.
  set (w1 := set_hanging_texts _ _) in Hres. subst res.
  assert (period <$> _reels w1 = period <$> _reels w) as Hperiods.
  { subst w1. cbn [_reels set_reels set_hanging_texts]. rewrite list_fmap_insert.
    cbn [period]. apply list_insert_id. by rewrite list_lookup_fmap, Hr'. }
  destruct (IH w1 (S i)) as (j & Hj & Hle & Hper & Hbefore & Hsub & Hfilm1 & Hend).
  { subst w1. by rewrite cursor_get_reels_hanging, cursor_get_set. }
  { rewrite <- (length_fmap period), Hperiods, length_fmap. lia. }
  { rewrite <- (length_fmap period), Hperiods, length_fmap. lia. }
  exists j. split_and!; [done|lia|by etrans| | | |].
  - intros m q Hm Hq. destruct (decide (m = i)) as [->|Hne]; [apply (Hhere i); [lia|done]|].
    apply (Hbefore m); [lia|by rewrite Hperiods].
  - intros h Hh. apply Hsub in Hh. subst w1.
    cbn [_hanging_texts set_hanging_texts] in Hh. by apply list_elem_of_filter in Hh as [_ ?].
  - by rewrite Hfilm1.
  - rewrite Hperiods in Hend. rewrite <- (length_fmap period (_reels w1)), Hperiods,
      length_fmap in Hend. exact Hend.
Qed.

(** X10.  A text whose cursor is on a segment of the film goes to the first
    segment, from its cursor on, that ends after the text starts: the cursor
    moves there and never back, the text is the last one of that segment,
    and it has its own period when it does not end after the segment, in
    which case no text is added to the hanging ones; it ends two frames
    before the segment does otherwise.  When every segment from the cursor
    on ends at or before the start of the text, the cursor ends past the
    last segment and the assertion of line 827 fails. *)
Theorem write_text_finds_segment text (type_ : TextType) track (p : DCPTimePeriod)
    (c : TextCursor) (i : nat) (w w0 : Writer) :
  let res := write_text text type_ track p w in
  select_text_cursor type_ track w = (Returned c, w0) →
  cursor_get c w0 = Some i → (i < length (_reels w0))%nat →
  ∃ j : nat,
    cursor_get c res.2 = Some j
    ∧ (i ≤ j)%nat
    ∧ (∀ m q, (i ≤ m < j)%nat → (period <$> _reels w0) !! m = Some q → to q ≤ from p)
    ∧ (res.1 = Returned tt
       ∧ (∃ q r',
            (period <$> _reels w0) !! j = Some q ∧ from p < to q
            ∧ _reels res.2 !! j = Some r' ∧ period r' = q
            ∧ last (texts r') =
                Some {| tw_text := text; tw_type := type_; tw_track := track;
                        tw_period :=
                          if bool_decide (to q < to p)
                          then back_off (film w0) {| from := from p; to := to q |}
                          else p |}
            ∧ (to p ≤ to q → ∀ h, h ∈ _hanging_texts res.2 → h ∈ _hanging_texts w0))
       ∨ res.1 = Thrown (ProgrammingError 827) ∧ j = length (_reels w0)).
Proof.
  intros res Hsel Hc Hi. subst res.
  destruct (advance_text_reel_spec (length (_reels w0)) c (from p) w0 i Hc Hi)
    as (j & Hj & Hle & Hper & Hbefore & Hsub & Hfilm & Hend); [lia|].
  exists j.
  destruct (advance_text_reel (length (_reels w0)) c (from p) w0) as [[[]|e] w1] eqn:Hadv;
    cbn [fst snd] in Hj, Hper, Hsub, Hfilm, Hend.
  - destruct Hend as [[_ (q & Hq & Hstarts)]|[? _]]; [|done].
    rewrite (write_text_unfold _ _ _ _ c i w w0 w1) by done.
    assert (∃ r1, _reels w1 !! j = Some r1 ∧ period r1 = q) as (r1 & Hr1 & Hq1).
    { rewrite <- Hper, list_lookup_fmap in Hq.
      destruct (_reels w1 !! j) as [r1|]; [|done]. exists r1. by injection Hq as <-. }
    unfold write_text_at. unfold_M. rewrite Hj, Hr1, Hq1, Hfilm.
    assert (∀ v h (w2 : Writer), cursor_get c (set_reels v (set_hanging_texts h w2))
                                 = cursor_get c w2) as Hcursor by (by destruct c).
    assert (∀ v (w2 : Writer), cursor_get c (set_reels v w2) = cursor_get c w2)
      as Hcursor' by (by destruct c).
    case_bool_decide as Hcross; cbn [fst snd].
    + rewrite Hcursor, Hj. split_and!; [done|done|done|]. left. split; [done|].
      eexists q, (ReelWriter_write_text r1 _). split_and!; [done|done| |done| |].
      * cbn [_reels set_reels set_hanging_texts]. by rewrite list_lookup_alter_eq, Hr1.
      * cbn [texts ReelWriter_write_text]. rewrite last_snoc.
        by rewrite bool_decide_eq_true_2.
      * intros Hinside. lia.
    + rewrite Hcursor', Hj. split_and!; [done|done|done|]. left. split; [done|].
      eexists q, (ReelWriter_write_text r1 _). split_and!; [done|done| |done| |].
      * cbn [_reels set_reels]. by rewrite list_lookup_alter_eq, Hr1.
      * cbn [texts ReelWriter_write_text]. rewrite last_snoc.
        by rewrite bool_decide_eq_false_2.
      * intros _ h Hh. by apply Hsub.
  - destruct Hend as [[? _]|[[= ->] ->]]; [done|].
    assert (write_text text type_ track p w = (Thrown (ProgrammingError 827), w1)) as ->.
    { unfold write_text. unfold mbind at 1. unfold M_bind at 1. rewrite Hsel.
      unfold mbind at 1. unfold M_bind at 1. unfold get at 1.
      rewrite Hc. unfold_M. rewrite bool_decide_eq_true_2 by done.
      by rewrite Hadv. }
    cbn [fst snd]. split_and!; [done|done|done|]. by right.
Qed.

(** ** What a text is refused for *)

(** X11.  A text that is neither an open subtitle nor a closed caption fails
    the assertion of line 821; a closed caption without a track fails the one
    of line 815, and one for a track that has no cursor, as the constructor
    makes one for every track of the film, the one of line 816; in the three
    cases the writer is left as it was.  A text whose cursor is past the last
    segment fails the assertion of line 824, after the writer has noted that
    there are subtitles, or captions for the track. *)
Theorem write_text_rejects text (track : option DCPTextTrack) (p : DCPTimePeriod)
    (w : Writer) :
  write_text text UNKNOWN track p w = (Thrown (ProgrammingError 821), w)
  ∧ write_text text CLOSED_CAPTION None p w = (Thrown (ProgrammingError 815), w)
  ∧ (∀ tr : DCPTextTrack,
       _caption_reels w !! tr = None →
       write_text text CLOSED_CAPTION (Some tr) p w = (Thrown (ProgrammingError 816), w))
  ∧ (∀ (f : Film) (tr : DCPTextTrack),
       tr ∉ closed_caption_tracks f → _caption_reels (Writer_init f) !! tr = None)
  ∧ ((length (_reels w) ≤ _subtitle_reel w)%nat →
     write_text text OPEN_SUBTITLE track p w
     = (Thrown (ProgrammingError 824), set_have_subtitles true w))
  ∧ (∀ (tr : DCPTextTrack) (i : nat),
       _caption_reels w !! tr = Some i → (length (_reels w) ≤ i)%nat →
       write_text text CLOSED_CAPTION (Some tr) p w
       = (Thrown (ProgrammingError 824),
          set_have_closed_captions ({[tr]} ∪ _have_closed_captions w) w)).
Proof.
  split_and!.
  - done.
  - done.
  - intros tr Hnone. unfold write_text, select_text_cursor. unfold_M. cbn.
    rewrite Hnone. by rewrite bool_decide_eq_false_2 by (by intros [? ?]).
  - intros f tr Hnot. cbn [_caption_reels Writer_init].
    apply not_elem_of_list_to_map. rewrite <- list_fmap_compose.
    intros Hin. apply list_elem_of_fmap in Hin as (tr' & Heq & Hin). cbn in Heq. by subst.
  - intros Hpast. unfold write_text, select_text_cursor. unfold_M. cbn.
    by rewrite bool_decide_eq_false_2 by lia.
  - intros tr i Hsome Hpast. unfold write_text, select_text_cursor. unfold_M. cbn.
    rewrite Hsome. rewrite bool_decide_eq_true_2 by done. cbn. rewrite Hsome.
    by rewrite bool_decide_eq_false_2 by lia.
Qed.

(** ** What [finish] does with the hanging texts and the metadata *)

(** The loop of [finish] over the segments [k], ..., [k + n - 1]. *)
Lemma finish_reels_hanging (n k : nat) (w : Writer) :
  (k + n ≤ length (_reels w))%nat →
  ∃ w' : Writer,
    for_each (seq k n) finish_reel w = (Returned tt, w')
    ∧ period <$> _reels w' = period <$> _reels w
    ∧ (∀ i r, (i < k)%nat → _reels w !! i = Some r → _reels w' !! i = Some r)
    ∧ (∀ h, h ∈ _hanging_texts w →
         (∃ i r', (k ≤ i < k + n)%nat ∧ _reels w' !! i = Some r'
                  ∧ from (ht_period h) = from (period r')
                  ∧ HangingText_write h ∈ texts r')
         ∨ (h ∈ _hanging_texts w'
            ∧ ∀ i q, (k ≤ i < k + n)%nat → (period <$> _reels w) !! i = Some q →
                     from (ht_period h) ≠ from q))
    ∧ (∀ h, h ∈ _hanging_texts w' → h ∈ _hanging_texts w)
    ∧ (∀ i r', _reels w' !! i = Some r' →
         ∃ r, _reels w !! i = Some r ∧ sound r' = sound r
              ∧ texts r `prefix_of` texts r'
              ∧ ∀ x, x ∈ texts r' → x ∈ texts r
                     ∨ ∃ h, h ∈ _hanging_texts w ∧ x = HangingText_write h
                            ∧ from (ht_period h) = from (period r)).
Proof.
  revert k w. induction n as [|n IH]; intros k w Hk.
  { exists w. split_and!; [done|done|done| |done|].
    - intros h Hh. right. split; [done|]. intros i q Hi. lia.
    - intros i r' Hr'. exists r'. split_and!; [done|done|done|]. intros x Hx. by left. }
  destruct (lookup_lt_is_Some_2 (_reels w) k) as [r Hr]; [lia|].
  cbn [seq for_each]. unfold mbind at 1. unfold M_bind at 1.
  unfold finish_reel at 1. unfold mbind at 1. unfold M_bind at 1.
  rewrite (write_hanging_text_run _ _ _ Hr). unfold emit at 1, modify at 1.
  rewrite write_hanging_text_loop_spec. cbn [fst snd].
  set (r1 := Build_ReelWriter _ _ _). set (w1 := set_output _ _).
  assert (_reels w1 = <[k := r1]> (_reels w)) as Hreels1 by done.
  assert (_hanging_texts w1
          = filter (λ h, from (ht_period h) ≠ from (period r)) (_hanging_texts w))
    as Hhanging1 by done.
  assert (period <$> _reels w1 = period <$> _reels w) as Hperiods1.
  { rewrite Hreels1, list_fmap_insert. apply list_insert_id.
    by rewrite list_lookup_fmap, Hr. }
  destruct (IH (S k) w1) as (w' & Hrun & Hper & Hearlier & Hwritten & Hsub & Hgrow).
  { rewrite Hreels1, length_insert. lia. }
  assert (_reels w' !! k = Some r1) as Hr1.
  { apply Hearlier; [lia|]. rewrite Hreels1. apply list_lookup_insert_eq.
    by eapply lookup_lt_Some. }
  exists w'. split_and!; [done|by etrans| | | |].
  - intros i x Hi Hx. apply Hearlier; [lia|].
    rewrite Hreels1, list_lookup_insert_ne by lia. done.
  - intros h Hh. destruct (decide (from (ht_period h) = from (period r))) as [Heq|Hne].
    + left. exists k, r1. split_and!; [lia|lia|done|exact Heq|].
      subst r1. cbn [texts]. apply elem_of_app. right. apply list_elem_of_fmap_2.
      by apply list_elem_of_filter.
    + destruct (Hwritten h) as [(i & r' & Hi & Hr' & Hfrom & Hin)|[Hleft Hnone]].
      { rewrite Hhanging1. by apply list_elem_of_filter. }
      * left. exists i, r'. split_and!; [lia|lia|done|done|done].
      * right. split; [done|]. intros i q Hi Hq.
        destruct (decide (i = k)) as [->|Hik].
        -- rewrite list_lookup_fmap, Hr in Hq. by injection Hq as <-.
        -- apply (Hnone i); [lia|by rewrite Hperiods1].
  - intros h Hh. apply Hsub in Hh. rewrite Hhanging1 in Hh.
    by apply list_elem_of_filter in Hh as [_ ?].
  - intros i r' Hr'. destruct (Hgrow i r' Hr') as (x & Hx & Hsound & Hprefix & Hnew).
    rewrite Hreels1 in Hx. destruct (decide (i = k)) as [->|Hik].
    + rewrite list_lookup_insert_eq in Hx by (by eapply lookup_lt_Some).
      injection Hx as <-. exists r. split_and!; [done|done| |].
      * etrans; [|exact Hprefix]. subst r1. cbn [texts]. by apply prefix_app_r.
      * intros y Hy. destruct (Hnew y Hy) as [Hin|(h & Hh & -> & Hfrom)].
        -- subst r1. cbn [texts] in Hin. apply elem_of_app in Hin as [Hin|Hin]; [by left|].
           right. apply list_elem_of_fmap in Hin as (h & -> & Hh).
           apply list_elem_of_filter in Hh as [Hfrom Hh]. by exists h.
        -- right. exists h. rewrite Hhanging1 in Hh.
           apply list_elem_of_filter in Hh as [_ Hh]. done.
    + rewrite list_lookup_insert_ne in Hx by done. exists x. split_and!; [done|done|done|].
      intros y Hy. destruct (Hnew y Hy) as [Hin|(h & Hh & -> & Hfrom)]; [by left|].
      right. exists h. rewrite Hhanging1 in Hh.
      apply list_elem_of_filter in Hh as [_ Hh]. done.
Qed.

(** What [finish] leaves, by the validity of the signer. *)
Lemma finish_state (config : Config) (w : Writer) :
  ∃ w0 : Writer,
    for_each (seq 0 (length (_reels w))) finish_reel w = (Returned tt, w0)
    ∧ finish config w =
        let w1 := set_output (_output w0 ++ [digests_calculated]) w0 in
        let cpl :=
          {| cpl_name := dcp_name (film w);
             cpl_creator := if bool_decide (dcp_creator config = "") then default_creator
                            else dcp_creator config;
             cpl_issuer := if bool_decide (dcp_issuer config = "") then default_creator
                           else dcp_issuer config;
             cpl_content_versions :=
               if bool_decide (Build_ContentVersion <$> content_versions (film w) = [])
               then [Build_ContentVersion "1"]
               else Build_ContentVersion <$> content_versions (film w) |} in
        if signer_chain_valid config
        then (Returned tt,
              set_output (_output w1 ++ [xml_written cpl; cover_sheet_written]) w1)
        else (Thrown (InvalidSignerError (signer_chain_reason config)), w1).
Proof.
  destruct (finish_reels_run (seq 0 (length (_reels w))) w) as (w0 & Hrun & Hout).
  { apply Forall_forall. intros i Hi. apply elem_of_seq in Hi. lia. }
  exists w0. split; [done|].
  unfold finish. unfold mbind at 1. unfold M_bind at 1. unfold get at 1.
  unfold mbind at 1. unfold M_bind at 1.
  rewrite Hrun. unfold mbind at 1. unfold M_bind at 1. unfold emit at 1, modify at 1.
  cbn zeta. destruct (signer_chain_valid config); [|done].
  unfold emit. unfold_M. cbn [negb _output set_output].
  rewrite set_output_set_output. by rewrite <- !app_assoc.
Qed.

(** X12.  Whether the signer is valid or not, [finish] gives every hanging
    text to a segment that starts where the text starts, when there is one,
    and leaves it hanging when no segment starts there; the segments keep
    their periods and their sound, and what is new in their texts are
    hanging texts that start where they start. *)
Theorem finish_writes_hanging_texts (config : Config) (w : Writer) :
  let w' := (finish config w).2 in
  (∀ h, h ∈ _hanging_texts w →
     (∃ i r', _reels w' !! i = Some r' ∧ from (ht_period h) = from (period r')
              ∧ HangingText_write h ∈ texts r')
     ∨ (h ∈ _hanging_texts w'
        ∧ ∀ r, r ∈ _reels w → from (ht_period h) ≠ from (period r)))
  ∧ (∀ h, h ∈ _hanging_texts w' → h ∈ _hanging_texts w)
  ∧ period <$> _reels w' = period <$> _reels w
  ∧ (∀ i r', _reels w' !! i = Some r' →
       ∃ r, _reels w !! i = Some r ∧ sound r' = sound r
            ∧ texts r `prefix_of` texts r'
            ∧ ∀ x, x ∈ texts r' → x ∈ texts r
                   ∨ ∃ h, h ∈ _hanging_texts w ∧ x = HangingText_write h
                          ∧ from (ht_period h) = from (period r)).
Proof.
  intros w'. destruct (finish_state config w) as (w0 & Hloop & Hfinish).
  destruct (finish_reels_hanging (length (_reels w)) 0 w)
    as (w0' & Hloop' & Hper & _ & Hwritten & Hsub & Hgrow); [lia|].
  assert (w0' = w0) as -> by congruence.
  assert (_reels w' = _reels w0 ∧ _hanging_texts w' = _hanging_texts w0) as [Hreels Hhanging].
  { subst w'. rewrite Hfinish. cbn zeta. by destruct (signer_chain_valid config). }
  rewrite Hreels, Hhanging. split_and!; [|done|done|done].
  intros h Hh. destruct (Hwritten h Hh) as [(i & r' & _ & Hr' & Hfrom & Hin)|[Hleft Hnone]].
  - left. by exists i, r'.
  - right. split; [done|]. intros r [i Hi]%list_elem_of_lookup.
    apply (Hnone i (period r)); [|by rewrite list_lookup_fmap, Hi].
    apply lookup_lt_Some in Hi. lia.
Qed.

Lemma default_creator_nonempty : default_creator ≠ "".
Proof. done. Qed.

(** X13.  With a valid signer [finish] writes the composition under the name
    of the film, with the creator and the issuer of the configuration; an
    empty one is replaced by the name of the program with its version and
    its commit, so neither is ever empty in what is written. *)
Theorem finish_creator_issuer (config : Config) (w : Writer) :
  signer_chain_valid config = true →
  ∃ (w' : Writer) (cpl : CPL) (before : list Output),
    finish config w = (Returned tt, w')
    ∧ _output w' = _output w ++ before ++ [xml_written cpl; cover_sheet_written]
    ∧ cpl_name cpl = dcp_name (film w)
    ∧ (dcp_creator config ≠ "" → cpl_creator cpl = dcp_creator config)
    ∧ (dcp_creator config = "" →
       cpl_creator cpl
       = "DCP-o-matic " +:+ dcpomatic_version +:+ " " +:+ dcpomatic_git_commit)
    ∧ (dcp_issuer config ≠ "" → cpl_issuer cpl = dcp_issuer config)
    ∧ (dcp_issuer config = "" →
       cpl_issuer cpl
       = "DCP-o-matic " +:+ dcpomatic_version +:+ " " +:+ dcpomatic_git_commit)
    ∧ cpl_creator cpl ≠ "" ∧ cpl_issuer cpl ≠ "".
Proof.
  intros Hvalid. destruct (finish_state config w) as (w0 & Hloop & Hfinish).
  destruct (finish_reels_run (seq 0 (length (_reels w))) w) as (w0' & Hloop' & Hout).
  { apply Forall_forall. intros i Hi. apply elem_of_seq in Hi. lia. }
  assert (w0' = w0) as -> by congruence.
  rewrite Hvalid in Hfinish. cbn zeta in Hfinish.
  match type of Hfinish with
  | _ = (_, set_output (_ ++ [xml_written ?cpl; _]) _) =>
    eexists _, cpl,
      ((reel_finished <$> seq 0 (length (_reels w))) ++ [digests_calculated])
  end.
  split_and!; [exact Hfinish| |done|..].
  - cbn [_output set_output]. rewrite Hout. by rewrite <- !app_assoc.
  - intros Hne. cbn [cpl_creator]. by rewrite bool_decide_eq_false_2.
  - intros Heq. cbn [cpl_creator]. by rewrite bool_decide_eq_true_2.
  - intros Hne. cbn [cpl_issuer]. by rewrite bool_decide_eq_false_2.
  - intros Heq. cbn [cpl_issuer]. by rewrite bool_decide_eq_true_2.
  - cbn [cpl_creator]. destruct (decide (dcp_creator config = "")) as [Heq|Hne];
      [rewrite bool_decide_eq_true_2 by done; apply default_creator_nonempty
      |by rewrite bool_decide_eq_false_2].
  - cbn [cpl_issuer]. destruct (decide (dcp_issuer config = "")) as [Heq|Hne];
      [rewrite bool_decide_eq_true_2 by done; apply default_creator_nonempty
      |by rewrite bool_decide_eq_false_2].
Qed.

(** ** Repeated and fake frames *)

(** X14.  [t] is the time of the frame index as [video_reel] gets it, that
    is converted to [int], which leaves an index between [-2^31] and
    [2^31 - 1] as it is; [i] is the first segment that holds [t]; and the
    queue is no longer than [_maximum_queue_size], so that the call does not
    wait.  [repeat] and [fake_write] then queue one item without data for
    segment [i] and the index less the start of that segment (as an [int],
    which an item holds); unlike [write],
    they take a frame for both eyes in a 3D film, and queue it for the left
    eye and then for the right eye, which the thread writes one after the
    other.  [can_repeat] tells whether the index is past the start of
    segment [i]. *)
Theorem repeat_and_fake_write_queue (w : Writer) (frame_ : Z) (eyes_ : Eyes) (i : nat)
    (r : ReelWriter) (read_frame_info : nat → Z → Eyes → Z) :
  let t := from_frames (to_int frame_) (video_frame_rate (film w)) in
  let n := frame_ - ReelWriter_start (film w) r in
  let qi type_ item_size e :=
    {| type := type_; encoded := None; size_ := item_size; reel := i;
       frame := to_int n; eyes := e |} in
  let items type_ item_size :=
    if three_d (film w) && bool_decide (eyes_ = BOTH)
    then [qi type_ item_size LEFT; qi type_ item_size RIGHT]
    else [qi type_ item_size eyes_] in
  _reels w !! i = Some r → contains (period r) t = true →
  (∀ j rj, (j < i)%nat → _reels w !! j = Some rj → contains (period rj) t = false) →
  Z.of_nat (length (_queue w)) ≤ _maximum_queue_size w →
  (- 2 ^ 31 ≤ frame_ < 2 ^ 31 → t = from_frames frame_ (video_frame_rate (film w)))
  ∧ repeat frame_ eyes_ w = (Returned tt, set_queue (_queue w ++ items REPEAT 0) w)
  ∧ fake_write read_frame_info frame_ eyes_ w
    = (Returned tt,
       set_queue (_queue w ++ items FAKE (read_frame_info i n eyes_)) w)
  ∧ can_repeat frame_ w = (Returned (bool_decide (0 < n)), w)
  ∧ (∀ type_ item_size lw,
       LastWritten_next lw (qi type_ item_size LEFT) = true →
       in_sequence lw [qi type_ item_size LEFT; qi type_ item_size RIGHT]).
Proof.
  intros t n qi items Hr Hin Hbefore Hshort.
  assert (video_reel (to_int frame_) w = (Returned i, w)) as Hreel
    by (by apply (video_reel_found _ _ i r)).
  assert (wait_for_queue w = (Returned tt, w)) as Hwait.
  { unfold wait_for_queue. unfold_M. by rewrite bool_decide_eq_false_2 by lia. }
  split_and!.
  - intros Hframe. subst t. by rewrite to_int_id.
  - unfold repeat. unfold mbind at 1. unfold M_bind at 1. rewrite Hwait.
    unfold mbind at 1. unfold M_bind at 1. rewrite Hreel.
    unfold push_for_eyes. unfold_M. rewrite Hr. subst items qi n. cbn beta.
    destruct (three_d (film w) && bool_decide (eyes_ = BOTH)); [|done].
    cbn [_queue set_queue]. by rewrite <- app_assoc.
  - unfold fake_write. unfold mbind at 1. unfold M_bind at 1. rewrite Hwait.
    unfold mbind at 1. unfold M_bind at 1. rewrite Hreel.
    unfold push_for_eyes. unfold_M. rewrite Hr. subst items qi n. cbn beta.
    destruct (three_d (film w) && bool_decide (eyes_ = BOTH)); [|done].
    cbn [_queue set_queue]. by rewrite <- app_assoc.
  - unfold can_repeat. unfold mbind at 1. unfold M_bind at 1. rewrite Hreel.
    unfold_M. rewrite Hr. subst n. do 2 f_equal. apply bool_decide_ext. lia.
  - intros type_ item_size lw Hnext. split; [done|]. split; [|done].
    apply LastWritten_next_spec. right. left. done.
Qed.

(** ** The active area and the length on the cover sheet *)

Lemma land_lnot_1 (x : Z) : Z.land x (Z.lnot 1) = 2 * (x / 2).
Proof.
  rewrite <- Z.ldiff_land. change 1 with (Z.ones 1) at 1.
  rewrite Z.ldiff_ones_r by lia.
  rewrite Z.shiftr_div_pow2, Z.shiftl_mul_pow2 by lia. change (2 ^ 1) with 2. lia.
Qed.

(** X15.  [finish] sets the active area of the picture only for a width and
    a height above zero, and clears the lowest bit of each: what it sets is
    the width and the height rounded down to an even number.  So a width or
    a height of one is set as zero, the value that the comment in the code
    says is not allowed, and no other is. *)
Theorem main_picture_active_area_even (width height : Z) :
  match main_picture_active_area (width, height) with
  | Some (w', h') =>
    0 < width ∧ 0 < height
    ∧ w' = 2 * (width / 2) ∧ h' = 2 * (height / 2)
    ∧ width - 1 ≤ w' ≤ width ∧ height - 1 ≤ h' ≤ height
    ∧ (w' = 0 ↔ width = 1) ∧ (h' = 0 ↔ height = 1)
  | None => width ≤ 0 ∨ height ≤ 0
  end.
Proof.
  unfold main_picture_active_area. rewrite !land_lnot_1.
  do 2 case_bool_decide; cbn [andb]; [|lia|lia|lia].
  pose proof (Z.div_mod width 2 ltac:(lia)). pose proof (Z.mod_pos_bound width 2 ltac:(lia)).
  pose proof (Z.div_mod height 2 ltac:(lia)).
  pose proof (Z.mod_pos_bound height 2 ltac:(lia)).
  split_and!; lia.
Qed.

Lemma append_nonempty_r (a b : string) : b ≠ "" → a +:+ b ≠ "".
Proof. intros Hb. destruct a; [done|]. by cbn. Qed.

(** X16.  For hours and minutes that are not negative, the length on the
    cover sheet is empty exactly when the film is an hour or more long with
    no minutes over: the code has a case for seconds only, one for minutes
    and one for hours with minutes, and none for hours without minutes. *)
Theorem cover_sheet_length_empty (h m s : Z) :
  0 ≤ h → 0 ≤ m →
  (cover_sheet_length h m s = "" ↔ 0 < h ∧ m = 0)
  ∧ (h = 0 → m = 0 → cover_sheet_length h m s = pretty s +:+ "s")
  ∧ (h = 0 → 0 < m → cover_sheet_length h m s = pretty m +:+ "m" +:+ pretty s +:+ "s")
  ∧ (0 < h → 0 < m →
     cover_sheet_length h m s
     = pretty h +:+ "h" +:+ pretty m +:+ "m" +:+ pretty s +:+ "s").
Proof.
  intros Hh Hm. unfold cover_sheet_length. split_and!.
  - repeat case_bool_decide; cbn [andb]; split; try lia; try done.
    + intros Hempty. exfalso. revert Hempty. by apply append_nonempty_r.
    + intros Hempty. exfalso. revert Hempty. by do 3 apply append_nonempty_r.
    + intros Hempty. exfalso. revert Hempty. by do 5 apply append_nonempty_r.
  - intros -> ->. done.
  - intros -> Hpos. rewrite (bool_decide_eq_false_2 (m = 0)) by lia.
    by rewrite (bool_decide_eq_true_2 (0 < m)) by done.
  - intros Hpos Hmpos. rewrite (bool_decide_eq_false_2 (h = 0)) by lia.
    rewrite (bool_decide_eq_true_2 (0 < h)) by done.
    by rewrite (bool_decide_eq_true_2 (0 < m)) by done.
Qed.

(** ** The frames that the video decoder holds *)

Lemma take_seqZ (n : nat) (a len : Z) :
  take n (seqZ a len) = seqZ a (Z.min len (Z.of_nat n)).
Proof.
  apply list_eq. intros i. destruct (decide (i < n)%nat) as [Hlt|Hge].
  - rewrite lookup_take_lt by done. destruct (decide (Z.of_nat i < len)) as [Hin|Hout].
    + by rewrite !lookup_seqZ_lt by lia.
    + by rewrite !lookup_seqZ_ge by lia.
  - rewrite lookup_take_ge by lia. by rewrite lookup_seqZ_ge by lia.
Qed.

(** What [give] does for 2D content when it is not behind what is held. *)
Lemma give_2d_run (d : VideoDecoder) (image : option ImageProxy) (frame_ first : Z) :
  frame_type d = VIDEO_FRAME_TYPE_2D → _ignore d = false →
  give_from d = Some first → 0 ≤ first ≤ frame_ →
  ∃ (d' : VideoDecoder) (fillers : list ContentVideo),
    give image frame_ d = (Returned tt, d')
    ∧ _decoded d' =
        take 96 (_decoded d ++ fillers
                 ++ [ {| cv_image := image; cv_eyes := BOTH; cv_part := PART_WHOLE;
                         cv_frame := frame_ |} ])
    ∧ cv_frame <$> fillers = seqZ first (frame_ - first)
    ∧ Forall (λ v, cv_eyes v = BOTH) fillers.
Proof.
  intros H2d Hignore Hfrom Hle. unfold give.
  unfold mbind at 1. unfold M_bind at 1. unfold get at 1. rewrite Hignore.
  unfold mbind at 1. unfold M_bind at 1. unfold modify at 1.
  rewrite Hfrom. rewrite bool_decide_eq_false_2 by lia. rewrite H2d.
  unfold to_push. rewrite H2d.
  set (d1 := set_log _ d).
  assert (∃ g : Z → ContentVideo,
            fill_one_eye first frame_ BOTH d1
            = (Returned tt,
               set_decoded (_decoded d ++ (g <$> seqZ first (frame_ - first))) d1)
            ∧ (∀ i, cv_frame (g i) = i) ∧ ∀ i, cv_eyes (g i) = BOTH)
    as (g & Hfill & Hframe & Heyes).
  { unfold fill_one_eye. case_bool_decide as Hzero.
    - exists (λ i, {| cv_image := None; cv_eyes := BOTH; cv_part := PART_WHOLE;
                      cv_frame := i |}).
      split_and!; [|done|done]. rewrite seqZ_nil by lia. cbn [fmap list_fmap].
      rewrite app_nil_r. unfold mret, M_ret. by f_equal.
    - unfold mbind at 1. unfold M_bind at 1. unfold get at 1.
      eexists (λ i, {| cv_image := _; cv_eyes := BOTH; cv_part := _; cv_frame := i |}).
      split_and!; [|done|done]. by rewrite push_back_each. }
  unfold mbind at 1. unfold M_bind at 1. rewrite Hfill.
  unfold mbind at 1. unfold M_bind at 1. unfold modify at 1. unfold modify.
  eexists _, (g <$> seqZ first (frame_ - first)). split_and!; [done| | |].
  - cbn [_decoded set_decoded]. by rewrite <- app_assoc.
  - rewrite <- list_fmap_compose. rewrite (list_fmap_ext _ id); [apply list_fmap_id|].
    intros ? i _. cbn. apply Hframe.
  - apply Forall_fmap, Forall_forall. intros i _. cbn. apply Heyes.
Qed.

(** X17.  The decoder of 2D content is not ignoring, holds no more than 96
    frames, with consecutive indices from [a] on, and is given a frame at or
    after the first one that it does not hold.  Then [give] keeps what is
    held, fills the gap and adds the frame, up to 96 frames in all: the
    indices held are still consecutive from [a] on, with no gap, and the
    frames added are for both eyes.  The frame given is the last one held
    when all fits in 96 frames; otherwise it is thrown away, and what is
    held ends before it. *)
Theorem give_2d_no_gaps (d : VideoDecoder) (image : option ImageProxy)
    (frame_ first a : Z) :
  let held := Z.of_nat (length (_decoded d)) in
  frame_type d = VIDEO_FRAME_TYPE_2D → _ignore d = false →
  give_from d = Some first → 0 ≤ first ≤ frame_ →
  cv_frame <$> _decoded d = seqZ a held → (_decoded d = [] → a = first) →
  held ≤ 96 →
  ∃ d' : VideoDecoder,
    give image frame_ d = (Returned tt, d')
    ∧ cv_frame <$> _decoded d' = seqZ a (Z.min 96 (held + (frame_ - first) + 1))
    ∧ _decoded d `prefix_of` _decoded d'
    ∧ Forall (λ v, cv_eyes v = BOTH) (drop (length (_decoded d)) (_decoded d'))
    ∧ (held + (frame_ - first) < 96 →
       last (_decoded d')
       = Some {| cv_image := image; cv_eyes := BOTH; cv_part := PART_WHOLE;
                 cv_frame := frame_ |})
    ∧ (96 ≤ held + (frame_ - first) → ∀ v, v ∈ _decoded d' → cv_frame v < frame_).
Proof.
  intros held H2d Hignore Hfrom Hle Hframes Hempty Hheld.
  destruct (give_2d_run d image frame_ first H2d Hignore Hfrom Hle)
    as (d' & fillers & Hrun & Hdecoded & Hfillers & Hboth).
  assert (first = a + held) as Hfirst.
  { destruct (last (_decoded d)) as [back|] eqn:Hlast.
    - assert (last (seqZ a held) = Some (cv_frame back)) as Hback.
      { by rewrite <- Hframes, fmap_last, Hlast. }
      rewrite last_lookup, length_seqZ in Hback. apply lookup_seqZ in Hback.
      unfold give_from in Hfrom. rewrite Hlast in Hfrom. injection Hfrom as <-.
      assert (0 < held).
      { apply last_Some in Hlast as [l Hl]. subst held. rewrite Hl, length_app. cbn. lia. }
      lia.
    - apply last_None in Hlast. rewrite (Hempty Hlast). subst held. rewrite Hlast. cbn. lia. }
  assert (cv_frame <$> _decoded d'
          = seqZ a (Z.min 96 (held + (frame_ - first) + 1))) as Hframes'.
  { rewrite Hdecoded, fmap_take, !fmap_app, Hframes, Hfillers. cbn [fmap list_fmap cv_frame].
    change [frame_] with (seqZ frame_ 1) at 1.
    replace frame_ with (first + (frame_ - first)) at 2 by lia.
    rewrite <- seqZ_app by lia. rewrite Hfirst at 1.
    rewrite <- seqZ_app by lia.
    rewrite take_seqZ. f_equal. lia. }
  exists d'. split_and!; [done|done| | | |].
  - rewrite Hdecoded, take_app, take_ge by lia. by apply prefix_app_r.
  - rewrite Hdecoded, take_app, take_ge by lia. rewrite drop_app_length.
    apply Forall_take, Forall_app. split; [done|]. by repeat constructor.
  - intros Hfits. rewrite Hdecoded, take_ge.
    + by rewrite app_assoc, last_snoc.
    + rewrite !length_app. cbn [length].
      assert (length fillers = Z.to_nat (frame_ - first)) as ->.
      { by rewrite <- (length_fmap cv_frame), Hfillers, length_seqZ. }
      lia.
  - intros Hfull v Hv. apply (list_elem_of_fmap_2 cv_frame) in Hv.
    rewrite Hframes' in Hv. apply elem_of_seqZ in Hv. lia.
Qed.

(** X18.  For 3D content whose frames come one eye after the other, [give]
    never holds an image that it is given as a frame for the right eye: the
    second frame with the index of the last one held is the one that is
    taken for the right eye, and it is behind what is held, so it is thrown
    away.  Every frame for the right eye that [give] adds is a filler, with
    the black image.  So from the constructor on, through [give] and [seek],
    the frames for the right eye that the decoder holds are black. *)
Theorem give_3d_alternate_right_eye (d : VideoDecoder) (image : option ImageProxy)
    (frame_ : Z) :
  let black := Some (RawImageProxy (_black_image d)) in
  let right_eyes_black (d0 : VideoDecoder) :=
    ∀ v, v ∈ _decoded d0 → cv_eyes v = RIGHT → cv_image v = black in
  frame_type d = VIDEO_FRAME_TYPE_3D_ALTERNATE →
  (∀ v, v ∈ _decoded (give image frame_ d).2 → cv_eyes v = RIGHT →
        v ∈ _decoded d ∨ cv_image v = black)
  ∧ (right_eyes_black d →
     right_eyes_black (give image frame_ d).2
     ∧ _black_image (give image frame_ d).2 = _black_image d
     ∧ frame_type (give image frame_ d).2 = frame_type d)
  ∧ (∀ s accurate, right_eyes_black (seek s accurate d))
  ∧ (∀ rate video_size,
       _decoded (VideoDecoder_new VIDEO_FRAME_TYPE_3D_ALTERNATE rate video_size) = []).
Proof.
  intros black right_eyes_black H3d.
  assert ((∀ v, v ∈ _decoded (give image frame_ d).2 → cv_eyes v = RIGHT →
                v ∈ _decoded d ∨ cv_image v = black)
          ∧ _black_image (give image frame_ d).2 = _black_image d
          ∧ frame_type (give image frame_ d).2 = frame_type d) as (Hright & Hblack & Htype).
  { remember (give image frame_ d) as res eqn:Hres. unfold give in Hres.
    unfold mbind at 1 in Hres. unfold M_bind at 1 in Hres. unfold get at 1 in Hres.
    destruct (_ignore d).
    { subst res. split_and!; [by intros v ? ?; left|done|done]. }
    unfold mbind at 1 in Hres. unfold M_bind at 1 in Hres. unfold modify at 1 in Hres.
    set (d1 := set_log _ d) in Hres.
    destruct (give_from d) as [f|] eqn:Hfrom.
    - case_bool_decide as Hbehind.
      { subst res. split_and!; [by intros v ? ?; left|done|done]. }
      assert (to_push d image frame_
              = [ {| cv_image := image; cv_eyes := LEFT; cv_part := PART_WHOLE;
                     cv_frame := frame_ |} ]) as Hpush.
      { unfold to_push. rewrite H3d. unfold give_from in Hfrom.
        destruct (last (_decoded d)) as [back|]; [|done].
        injection Hfrom as <-. by rewrite bool_decide_eq_false_2 by lia. }
      rewrite Hpush, H3d in Hres.
      cbn [head fmap option_fmap option_map default cv_eyes] in Hres. unfold id in Hres.
      destruct (fill_both_eyes_black f frame_ LEFT d1) as (fillers & Hfill & Hfillers).
      unfold mbind at 1 in Hres. unfold M_bind at 1 in Hres.
      destruct (fill_both_eyes f frame_ LEFT d1) as [[[]|e] d2]; cbn [snd] in Hfill;
        subst d2.
      + unfold mbind, M_bind, modify, mret, M_ret in Hres. subst res.
        cbn [snd _decoded set_decoded _black_image frame_type].
        split_and!; [|done|done]. intros v Hv Heye.
        apply subseteq_take in Hv. rewrite !elem_of_app in Hv.
        destruct Hv as [[Hv|Hv]|Hv]; [by left| |].
        * right. rewrite Forall_forall in Hfillers. by apply Hfillers.
        * apply list_elem_of_singleton in Hv. subst v. done.
      + subst res. cbn [snd _decoded set_decoded _black_image frame_type].
        split_and!; [|done|done]. intros v Hv Heye.
        rewrite elem_of_app in Hv. destruct Hv as [Hv|Hv]; [by left|].
        right. rewrite Forall_forall in Hfillers. by apply Hfillers.
    - assert (to_push d image frame_
              = [ {| cv_image := image; cv_eyes := LEFT; cv_part := PART_WHOLE;
                     cv_frame := frame_ |} ]) as Hpush.
      { unfold to_push. rewrite H3d. unfold give_from in Hfrom.
        destruct (last (_decoded d)) as [back|]; [done|done]. }
      rewrite Hpush in Hres. unfold mbind, M_bind, modify, mret, M_ret in Hres. subst res.
      cbn [snd _decoded set_decoded _black_image frame_type set_log].
      split_and!; [|done|done]. intros v Hv Heye.
      apply subseteq_take in Hv. rewrite elem_of_app in Hv.
      destruct Hv as [Hv|Hv]; [by left|].
      apply list_elem_of_singleton in Hv. subst v. done. }
  split_and!; [done| | |done].
  - intros Hinv. split_and!; [|done|done]. intros v Hv Heye.
    destruct (Hright v Hv Heye) as [Hold|?]; [by apply Hinv|done].
  - intros s accurate v Hv. by apply elem_of_nil in Hv.
Qed.

(** One turn of the loop of [fill_both_eyes]. *)
Lemma fill_both_eyes_loop_step (fuel : nat) (f : Fillers) (k : Z) (e : Eyes) (to_ : Z)
    (eye : Eyes) (d : VideoDecoder) :
  k ≠ to_ ∨ e ≠ eye →
  fill_both_eyes_loop (S fuel) f k e to_ eye d
  = fill_both_eyes_loop fuel f
      (if bool_decide (e = LEFT) then k else k + 1)
      (if bool_decide (e = LEFT) then RIGHT else LEFT) to_ eye
      (set_decoded
         (_decoded d
          ++ [ {| cv_image := if bool_decide (e = LEFT) then filler_left_image f
                              else filler_right_image f;
                  cv_eyes := e;
                  cv_part := if bool_decide (e = LEFT) then filler_left_part f
                             else filler_right_part f;
                  cv_frame := k |} ]) d).
Proof.
  intros Hon. cbn [fill_both_eyes_loop].
  assert (bool_decide (k ≠ to_) || bool_decide (e ≠ eye) = true) as ->.
  { apply orb_true_iff. destruct Hon; [left|right]; by apply bool_decide_eq_true. }
  unfold mbind, M_bind, push_back, modify. by destruct (bool_decide (e = LEFT)).
Qed.

(** The loop of [fill_both_eyes] from the left eye of [k] to the left eye of
    [to_] pushes a pair of fillers for every index in between. *)
Lemma fill_both_eyes_loop_pairs (n fuel : nat) (f : Fillers) (k to_ : Z)
    (d : VideoDecoder) :
  to_ = k + Z.of_nat n → (2 * n ≤ fuel)%nat →
  fill_both_eyes_loop fuel f k LEFT to_ LEFT d
  = (Returned tt,
     set_decoded (_decoded d ++ concat (filler_pair f <$> seqZ k (Z.of_nat n))) d).
Proof.
  revert fuel k d. induction n as [|n IH]; intros fuel k d Hto Hfuel.
  - assert (fill_both_eyes_loop fuel f k LEFT to_ LEFT d = (Returned tt, d)) as ->.
    { destruct fuel; cbn [fill_both_eyes_loop];
        rewrite bool_decide_eq_false_2 by lia;
        by rewrite bool_decide_eq_false_2 by (by intros Hne). }
    cbn. by rewrite app_nil_r, set_decoded_id.
  - destruct fuel as [|[|fuel]]; [lia|lia|].
    rewrite fill_both_eyes_loop_step by (left; lia).
    rewrite (bool_decide_eq_true_2 (LEFT = LEFT)) by done.
    rewrite fill_both_eyes_loop_step by (by right).
    rewrite (bool_decide_eq_false_2 (RIGHT = LEFT)) by done.
    rewrite (IH fuel (k + 1)) by lia.
    rewrite (seqZ_cons k) by lia. cbn [fmap list_fmap concat].
    replace (Z.pred (Z.of_nat (S n))) with (Z.of_nat n) by lia.
    replace (Z.succ k) with (k + 1) by lia.
    cbn [_decoded set_decoded]. rewrite !set_decoded_set_decoded.
    unfold filler_pair at 2. cbn [app]. by rewrite <- !app_assoc.
Qed.

Lemma length_concat_filler_pairs (f : Fillers) (l : list Z) :
  length (concat (filler_pair f <$> l)) = (2 * length l)%nat.
Proof. induction l as [|i l IH]; [done|]. cbn. rewrite IH. lia. Qed.

Lemma Forall_concat_filler_pairs (d : VideoDecoder) (l : list Z) :
  Forall (λ v, cv_image v = Some (RawImageProxy (_black_image d)))
    (concat (filler_pair (black_fillers d) <$> l)).
Proof.
  induction l as [|i l IH]; [constructor|]. cbn. by repeat constructor.
Qed.

(** X19.  After an accurate seek the decoder holds nothing.  For 3D content
    with frames for both eyes, [give] then fills with black from index 0, not
    from the index of the seek as it does for 2D content: for a frame at or
    after the seek it pushes a pair of black fillers for every index from 0
    up to the one given, then what it is given, and keeps the first 96 of
    them.  So what is held starts with the black left eye of index 0, and for
    a frame at index 48 or more it is 96 black fillers: the frame given is
    thrown away. *)
Theorem give_3d_after_seek (d : VideoDecoder) (image : option ImageProxy)
    (frame_ s : Z) :
  let black := Some (RawImageProxy (_black_image d)) in
  let fillers := concat (filler_pair (black_fillers d) <$> seqZ 0 frame_) in
  frame_type d = VIDEO_FRAME_TYPE_3D_LEFT_RIGHT
  ∨ frame_type d = VIDEO_FRAME_TYPE_3D_TOP_BOTTOM
  ∨ frame_type d = VIDEO_FRAME_TYPE_3D_ALTERNATE →
  _ignore d = false → _decoded d = [] →
  _last_seek_time d = Some s → _last_seek_accurate d = true →
  frames_round s (active_video_frame_rate d) ≤ frame_ → 0 < frame_ →
  ∃ d' : VideoDecoder,
    give image frame_ d = (Returned tt, d')
    ∧ _decoded d' = take 96 (fillers ++ to_push d image frame_)
    ∧ head (_decoded d')
      = Some {| cv_image := black; cv_eyes := LEFT; cv_part := PART_WHOLE; cv_frame := 0 |}
    ∧ (48 ≤ frame_ →
       length (_decoded d') = 96%nat
       ∧ Forall (λ v, cv_image v = black) (_decoded d')).
Proof.
  intros black fillers Htype Hignore Hempty Hseek Haccurate Hfirst Hpos.
  assert (give_from d = Some (frames_round s (active_video_frame_rate d))) as Hfrom.
  { unfold give_from. by rewrite Hempty, Hseek, Haccurate. }
  assert (default BOTH (cv_eyes <$> head (to_push d image frame_)) = LEFT) as Heye.
  { unfold to_push. rewrite Hempty. by destruct Htype as [->|[->| ->]]. }
  set (d1 := set_log (_log d ++ [VD_receives frame_]) d).
  assert (fill_both_eyes (frames_round s (active_video_frame_rate d)) frame_ LEFT d1
          = (Returned tt, set_decoded fillers d1)) as Hfill.
  { unfold fill_both_eyes. rewrite (bool_decide_eq_false_2 (frame_ = 0)) by lia.
    cbn [andb]. unfold mbind at 1. unfold M_bind at 1. unfold get at 1.
    assert (_decoded d1 = []) as -> by done. cbn [reverse rev_append find_fillers last].
    rewrite (fill_both_eyes_loop_pairs (Z.to_nat frame_)) by lia.
    assert (_decoded d1 = []) as -> by done. cbn [app].
    by rewrite Z2Nat.id by lia. }
  assert (give image frame_ d
          = (Returned tt,
             set_decoded (take 96 (fillers ++ to_push d image frame_)) d1)) as Hgive.
  { unfold give. unfold mbind at 1. unfold M_bind at 1. unfold get at 1. rewrite Hignore.
    unfold mbind at 1. unfold M_bind at 1. unfold modify at 1. fold d1.
    rewrite Hfrom. rewrite bool_decide_eq_false_2 by lia. rewrite Heye.
    assert ((match frame_type d with
             | VIDEO_FRAME_TYPE_2D =>
               fill_one_eye (frames_round s (active_video_frame_rate d)) frame_ BOTH
             | VIDEO_FRAME_TYPE_3D_LEFT =>
               fill_one_eye (frames_round s (active_video_frame_rate d)) frame_ LEFT
             | VIDEO_FRAME_TYPE_3D_RIGHT =>
               fill_one_eye (frames_round s (active_video_frame_rate d)) frame_ RIGHT
             | _ => fill_both_eyes (frames_round s (active_video_frame_rate d)) frame_ LEFT
             end) = fill_both_eyes (frames_round s (active_video_frame_rate d)) frame_ LEFT)
      as -> by (by destruct Htype as [->|[->| ->]]).
    unfold mbind at 1. unfold M_bind at 1. rewrite Hfill. unfold_M.
    cbn [_decoded set_decoded]. by rewrite !set_decoded_set_decoded. }
  exists (set_decoded (take 96 (fillers ++ to_push d image frame_)) d1).
  assert (fillers = filler_pair (black_fillers d) 0
                    ++ concat (filler_pair (black_fillers d) <$> seqZ 1 (frame_ - 1)))
    as Hfillers.
  { subst fillers. rewrite (seqZ_cons 0) by lia. done. }
  assert (length fillers = (2 * Z.to_nat frame_)%nat) as Hlength.
  { subst fillers. by rewrite length_concat_filler_pairs, length_seqZ. }
  split_and!; [done|done| |].
  - cbn [_decoded set_decoded]. rewrite Hfillers. done.
  - intros Hfar. cbn [_decoded set_decoded].
    rewrite take_app_le by lia. split.
    + rewrite length_take. lia.
    + apply Forall_take, Forall_concat_filler_pairs.
Qed.

(** ** The hanging texts that a text makes the writer write *)

(** On its way the loop that moves a text cursor writes the hanging texts
    that start where a segment that it enters starts; the texts of a segment
    stay in front of what it adds. *)
Lemma advance_text_reel_flushes (fuel : nat) (c : TextCursor) (period_from : DCPTime)
    (w : Writer) (i : nat) :
  cursor_get c w = Some i → (i < length (_reels w))%nat →
  (length (_reels w) ≤ i + fuel)%nat →
  ∃ j : nat,
    cursor_get c (advance_text_reel fuel c period_from w).2 = Some j
    ∧ (∀ h, h ∈ _hanging_texts w →
         (∃ m r', (i < m ≤ j)%nat
                  ∧ _reels (advance_text_reel fuel c period_from w).2 !! m = Some r'
                  ∧ from (ht_period h) = from (period r')
                  ∧ HangingText_write h ∈ texts r')
         ∨ (h ∈ _hanging_texts (advance_text_reel fuel c period_from w).2
            ∧ ∀ m q, (i < m ≤ j)%nat → (period <$> _reels w) !! m = Some q →
                     from (ht_period h) ≠ from q))
    ∧ (∀ m r, _reels w !! m = Some r →
         ∃ r', _reels (advance_text_reel fuel c period_from w).2 !! m = Some r'
               ∧ period r' = period r ∧ texts r `prefix_of` texts r').
Proof.
  revert w i. induction fuel as [|fuel IH]; intros w i Hc Hi Hfuel; [lia|].
  destruct (lookup_lt_is_Some_2 (_reels w) i Hi) as [r Hr].
  remember (advance_text_reel (S fuel) c period_from w) as res eqn:Hres.
  cbn [advance_text_reel] in Hres.
  unfold mbind at 1 in Hres. unfold M_bind at 1 in Hres. unfold get at 1 in Hres.
  rewrite Hc in Hres. unfold mbind at 1 in Hres. unfold M_bind at 1 in Hres.
  unfold deref at 1 in Hres. unfold mret at 1, M_ret at 1 in Hres. rewrite Hr in Hres.
  unfold mbind at 1 in Hres. unfold M_bind at 1 in Hres. unfold deref at 1 in Hres.
  unfold mret at 1, M_ret at 1 in Hres.
  case_bool_decide as Hends.
  2:{ unfold mret, M_ret in Hres. subst res. cbn [fst snd].
      exists i. split_and!; [done| |].
      - intros h Hh. right. split; [done|]. intros m q Hm. lia.
      - intros m x Hx. by exists x. }
  unfold mbind at 1 in Hres. unfold M_bind at 1 in Hres. unfold modify at 1 in Hres.
  unfold mbind at 1 in Hres. unfold M_bind at 1 in Hres.
  unfold DCPOMATIC_ASSERT at 1 in Hres.
  assert (_reels (cursor_set c (S i) w) = _reels w) as Hreels by (by destruct c).
  assert (_hanging_texts (cursor_set c (S i) w) = _hanging_texts w) as Hhanging
    by (by destruct c).
  case_bool_decide as Hnext.
  2:{ unfold throw in Hres. subst res. exists (S i). cbn [fst snd].
      rewrite cursor_get_set, Hreels, Hhanging. split_and!; [done| |].
      - intros h Hh. right. split; [done|]. intros m q Hm Hq.
        apply lookup_lt_Some in Hq. rewrite length_fmap in Hq. lia.
      - intros m x Hx. by exists x. }
  unfold mret at 1, M_ret at 1 in Hres.
  destruct (lookup_lt_is_Some_2 (_reels w) (S i) Hnext) as [r' Hr'].
  unfold mbind at 1 in Hres. unfold M_bind at 1 in Hres.
  rewrite (write_hanging_text_run _ _ r') in Hres by (by rewrite Hreels).
  rewrite write_hanging_text_loop_spec in Hres. cbn [fst snd] in Hres.
  rewrite Hreels, Hhanging in Hres.
  set (r1 := Build_ReelWriter _ _ _) in Hres.
  set (w1 := set_hanging_texts _ _) in Hres. subst res.
  assert (_reels w1 = <[S i := r1]> (_reels w)) as Hreels1 by done.
  assert (_hanging_texts w1
          = filter (λ h, from (ht_period h) ≠ from (period r')) (_hanging_texts w))
    as Hhanging1 by done.
  assert (period <$> _reels w1 = period <$> _reels w) as Hperiods.
  { rewrite Hreels1, list_fmap_insert. apply list_insert_id.
    by rewrite list_lookup_fmap, Hr'. }
  assert (_reels w1 !! S i = Some r1) as Hr1.
  { rewrite Hreels1. by apply list_lookup_insert_eq. }
  destruct (IH w1 (S i)) as (j & Hj & Hflush & Hgrow).
  { subst w1. by rewrite cursor_get_reels_hanging, cursor_get_set. }
  { rewrite Hreels1, length_insert. lia. }
  { rewrite Hreels1, length_insert. lia. }
  assert (S i ≤ j)%nat as Hle.
  { destruct (advance_text_reel_spec fuel c period_from w1 (S i))
      as (j' & Hj' & Hle' & _).
    - subst w1. by rewrite cursor_get_reels_hanging, cursor_get_set.
    - rewrite Hreels1, length_insert. lia.
    - rewrite Hreels1, length_insert. lia.
    - congruence. }
  exists j. split_and!; [done| |].
  - intros h Hh. destruct (decide (from (ht_period h) = from (period r'))) as [Heq|Hne].
    + left. destruct (Hgrow (S i) r1 Hr1) as (r1' & Hr1' & Hperiod & Hprefix).
      exists (S i), r1'. split_and!; [lia|lia|done|by rewrite Hperiod|].
      destruct Hprefix as [k ->]. apply elem_of_app. left.
      subst r1. cbn [texts]. apply elem_of_app. right. apply list_elem_of_fmap_2.
      by apply list_elem_of_filter.
    + destruct (Hflush h) as [(m & x & Hm & Hx & Hfrom & Hin)|[Hleft Hnone]].
      { rewrite Hhanging1. by apply list_elem_of_filter. }
      * left. exists m, x. split_and!; [lia|lia|done|done|done].
      * right. split; [done|]. intros m q Hm Hq.
        destruct (decide (m = S i)) as [->|Hmi].
        -- rewrite list_lookup_fmap, Hr' in Hq. by injection Hq as <-.
        -- apply (Hnone m); [lia|by rewrite Hperiods].
  - intros m x Hx. destruct (decide (m = S i)) as [->|Hmi].
    + assert (x = r') as -> by congruence.
      destruct (Hgrow (S i) r1 Hr1) as (r1' & Hr1' & Hperiod & Hprefix).
      exists r1'. split_and!; [done|by rewrite Hperiod|].
      etrans; [|exact Hprefix]. subst r1. cbn [texts]. by apply prefix_app_r.
    + apply Hgrow. rewrite Hreels1, list_lookup_insert_ne by done. done.
Qed.

(** X20.  A text whose cursor is on segment [i] of the film moves the cursor
    to a segment [j].  Every text that was hanging before the call and
    starts where one of the segments after [i], up to [j], starts is written
    to such a segment by the call, among its texts; every other one is
    still hanging after the call.  So the part of a text that an earlier
    call stored for a later segment is written as soon as a text of the same
    cursor gets to that segment. *)
Theorem write_text_writes_hanging_texts text (type_ : TextType) track
    (p : DCPTimePeriod) (c : TextCursor) (i : nat) (w w0 : Writer) :
  let res := write_text text type_ track p w in
  select_text_cursor type_ track w = (Returned c, w0) →
  cursor_get c w0 = Some i → (i < length (_reels w0))%nat →
  ∃ j : nat,
    cursor_get c res.2 = Some j
    ∧ ∀ h, h ∈ _hanging_texts w0 →
        (∃ m r', (i < m ≤ j)%nat ∧ _reels res.2 !! m = Some r'
                 ∧ from (ht_period h) = from (period r')
                 ∧ HangingText_write h ∈ texts r')
        ∨ (h ∈ _hanging_texts res.2
           ∧ ∀ m q, (i < m ≤ j)%nat → (period <$> _reels w0) !! m = Some q →
                    from (ht_period h) ≠ from q).
Proof.
  intros res Hsel Hc Hi. subst res.
  destruct (advance_text_reel_flushes (length (_reels w0)) c (from p) w0 i Hc Hi)
    as (j & Hj & Hflush & Hgrow); [lia|].
  destruct (advance_text_reel_spec (length (_reels w0)) c (from p) w0 i Hc Hi)
    as (j' & Hj' & _ & Hper & _ & _ & _ & Hend); [lia|].
  assert (j' = j) as -> by congruence.
  exists j.
  destruct (advance_text_reel (length (_reels w0)) c (from p) w0) as [[[]|e] w1] eqn:Hadv;
    cbn [fst snd] in Hj, Hflush, Hgrow, Hper, Hend.
  - destruct Hend as [[_ (q & Hq & Hstarts)]|[? _]]; [|done].
    rewrite (write_text_unfold _ _ _ _ c i w w0 w1) by done.
    assert (∃ r1, _reels w1 !! j = Some r1) as [r1 Hr1].
    { rewrite <- Hper, list_lookup_fmap in Hq.
      destruct (_reels w1 !! j) as [r1|]; [by exists r1|done]. }
    unfold write_text_at. unfold_M. rewrite Hj, Hr1.
    assert (∀ v h (w2 : Writer), cursor_get c (set_reels v (set_hanging_texts h w2))
                                 = cursor_get c w2) as Hcursor by (by destruct c).
    assert (∀ v (w2 : Writer), cursor_get c (set_reels v w2) = cursor_get c w2)
      as Hcursor' by (by destruct c).
    assert (∀ tw h,
              (∃ m r', (i < m ≤ j)%nat ∧ _reels w1 !! m = Some r'
                       ∧ from (ht_period h) = from (period r')
                       ∧ HangingText_write h ∈ texts r') →
              ∃ m r', (i < m ≤ j)%nat
                      ∧ alter (λ r, ReelWriter_write_text r tw) j (_reels w1) !! m = Some r'
                      ∧ from (ht_period h) = from (period r')
                      ∧ HangingText_write h ∈ texts r') as Hkeep.
    { intros tw h (m & r' & Hm & Hr' & Hfrom & Hin).
      destruct (decide (m = j)) as [->|Hmj].
      - exists j, (ReelWriter_write_text r' tw).
        split_and!; [lia|lia| |done|].
        + by rewrite list_lookup_alter_eq, Hr'.
        + cbn [texts ReelWriter_write_text]. apply elem_of_app. by left.
      - exists m, r'. split_and!; [lia|lia| |done|done].
        by rewrite list_lookup_alter_ne. }
    case_bool_decide as Hcross; cbn [fst snd].
    + rewrite Hcursor, Hj. split; [done|]. intros h Hh.
      destruct (Hflush h Hh) as [Hwritten|[Hleft Hnone]].
      * left. cbn [_reels set_reels set_hanging_texts]. by apply Hkeep.
      * right. split; [|done]. cbn [_hanging_texts set_reels set_hanging_texts].
        apply elem_of_app. by left.
    + rewrite Hcursor', Hj. split; [done|]. intros h Hh.
      destruct (Hflush h Hh) as [Hwritten|[Hleft Hnone]].
      * left. cbn [_reels set_reels]. by apply Hkeep.
      * right. by split.
  - assert (write_text text type_ track p w = (Thrown e, w1)) as ->.
    { unfold write_text. unfold mbind at 1. unfold M_bind at 1. rewrite Hsel.
      unfold mbind at 1. unfold M_bind at 1. unfold get at 1.
      rewrite Hc. unfold_M. rewrite bool_decide_eq_true_2 by done.
      by rewrite Hadv. }
    cbn [fst snd]. by split.
Qed.

(** ** 3D frames without gaps *)

Lemma eye_pairs_app (a n1 n2 : Z) :
  0 ≤ n1 → 0 ≤ n2 → eye_pairs a (n1 + n2) = eye_pairs a n1 ++ eye_pairs (a + n1) n2.
Proof.
  intros H1 H2. unfold eye_pairs. by rewrite seqZ_app, fmap_app, concat_app by lia.
Qed.

Lemma eye_pairs_cons (a n : Z) :
  0 < n → eye_pairs a n = (a, LEFT) :: (a, RIGHT) :: eye_pairs (a + 1) (n - 1).
Proof.
  intros Hn. unfold eye_pairs. rewrite (seqZ_cons a) by lia. cbn.
  by replace (Z.succ a) with (a + 1) by lia.
Qed.

Lemma length_eye_pairs (a n : Z) : length (eye_pairs a n) = (2 * Z.to_nat n)%nat.
Proof.
  unfold eye_pairs. rewrite <- (length_seqZ a n).
  induction (seqZ a n) as [|i l IH]; [done|]. cbn. rewrite IH. lia.
Qed.

Lemma take_eye_pairs (k : nat) (a n : Z) :
  take (2 * k) (eye_pairs a n) = eye_pairs a (Z.min n (Z.of_nat k)).
Proof.
  revert a n. induction k as [|k IH]; intros a n.
  - rewrite Nat.mul_0_r, take_0. unfold eye_pairs. by rewrite seqZ_nil by lia.
  - destruct (decide (0 < n)) as [Hn|Hn].
    + rewrite (eye_pairs_cons a n), (eye_pairs_cons a (Z.min n (Z.of_nat (S k)))) by lia.
      replace (2 * S k)%nat with (S (S (2 * k))) by lia. cbn [take].
      rewrite IH. do 3 f_equal. lia.
    + unfold eye_pairs. rewrite !seqZ_nil by lia. cbn [fmap list_fmap concat].
      apply take_nil.
Qed.

Lemma elem_of_eye_pairs (k : Z) (e : Eyes) (a n : Z) :
  (k, e) ∈ eye_pairs a n → a ≤ k < a + n.
Proof.
  unfold eye_pairs. intros Hin.
  assert (k ∈ seqZ a n) as Hk; [|apply elem_of_seqZ in Hk; lia].
  induction (seqZ a n) as [|i l IH]; [by apply elem_of_nil in Hin|].
  cbn in Hin. rewrite !elem_of_cons in Hin. apply elem_of_cons.
  destruct Hin as [[= -> _]|[[= -> _]|Hin]]; [by left|by left|right; by apply IH].
Qed.

Lemma frame_and_eyes_filler_pairs (f : Fillers) (a n : Z) :
  frame_and_eyes <$> concat (filler_pair f <$> seqZ a n) = eye_pairs a n.
Proof.
  unfold eye_pairs. induction (seqZ a n) as [|i l IH]; [done|].
  cbn. by rewrite IH.
Qed.

(** X21.  The decoder of 3D content whose images hold both eyes is not
    ignoring and holds the left and the right eye of [n] consecutive
    indices from [a] on, no more than 48, and is given an image at or after
    the first index that it does not hold.  Then [give] keeps what is held,
    fills the gap with a left and a right eye for every index and adds the
    two halves of the image, up to 96 frames in all: it still holds both
    eyes of consecutive indices from [a] on, with no gap.  The two halves of
    the image given are the last two held when all fits; otherwise they are
    thrown away, and what is held ends before them. *)
Theorem give_3d_no_gaps (d : VideoDecoder) (image : option ImageProxy) (frame_ a n : Z) :
  frame_type d = VIDEO_FRAME_TYPE_3D_LEFT_RIGHT
  ∨ frame_type d = VIDEO_FRAME_TYPE_3D_TOP_BOTTOM →
  _ignore d = false →
  frame_and_eyes <$> _decoded d = eye_pairs a n →
  0 ≤ a → 0 < n ≤ 48 → a + n ≤ frame_ →
  ∃ d' : VideoDecoder,
    give image frame_ d = (Returned tt, d')
    ∧ frame_and_eyes <$> _decoded d' = eye_pairs a (Z.min 48 (frame_ - a + 1))
    ∧ _decoded d `prefix_of` _decoded d'
    ∧ (frame_ - a < 48 → ∃ held, _decoded d' = held ++ to_push d image frame_)
    ∧ (48 ≤ frame_ - a → ∀ v, v ∈ _decoded d' → cv_frame v < frame_).
Proof.
  intros Htype Hignore Hpairs Ha Hn Hframe.
  assert (length (_decoded d) = (2 * Z.to_nat n)%nat) as Hlength.
  { by rewrite <- (length_fmap frame_and_eyes), Hpairs, length_eye_pairs. }
  assert (∃ back, last (_decoded d) = Some back ∧ cv_frame back = a + n - 1
                  ∧ cv_eyes back = RIGHT) as (back & Hlast & Hback & Heye).
  { assert (last (frame_and_eyes <$> _decoded d) = Some (a + n - 1, RIGHT)) as Hl.
    { rewrite Hpairs. replace n with ((n - 1) + 1) at 1 by lia.
      rewrite eye_pairs_app by lia. rewrite (eye_pairs_cons _ 1) by lia.
      replace (a + (n - 1)) with (a + n - 1) by lia.
      change (eye_pairs (a + n - 1 + 1) (1 - 1)) with (@nil (Z * Eyes)).
      by rewrite last_app. }
    rewrite fmap_last in Hl. destruct (last (_decoded d)) as [back|]; [|done].
    exists back. injection Hl as Hf He. by split_and!. }
  assert (give_from d = Some (a + n)) as Hfrom.
  { unfold give_from. rewrite Hlast, Hback. f_equal. lia. }
  assert (∃ first second,
            to_push d image frame_ = [first; second]
            ∧ frame_and_eyes first = (frame_, LEFT)
            ∧ frame_and_eyes second = (frame_, RIGHT)) as (first & second & Hpush & Hl & Hr).
  { unfold to_push. destruct Htype as [-> | ->]; by eexists _, _. }
  set (d1 := set_log (_log d ++ [VD_receives frame_]) d).
  assert (∃ f, fill_both_eyes (a + n) frame_ LEFT d1
               = (Returned tt,
                  set_decoded (_decoded d
                               ++ concat (filler_pair f <$> seqZ (a + n) (frame_ - (a + n))))
                    d1)) as [f Hfill].
  { unfold fill_both_eyes. rewrite (bool_decide_eq_false_2 (frame_ = 0)) by lia.
    cbn [andb]. unfold mbind at 1. unfold M_bind at 1. unfold get at 1.
    assert (_decoded d1 = _decoded d) as -> by done. rewrite Hlast, Heye.
    rewrite (bool_decide_eq_false_2 (RIGHT = LEFT)) by done.
    rewrite (bool_decide_eq_true_2 (RIGHT = RIGHT)) by done.
    eexists. rewrite (fill_both_eyes_loop_pairs (Z.to_nat (frame_ - (a + n)))) by lia.
    rewrite Z2Nat.id by lia. rewrite Hback.
    by replace (a + n - 1 + 1) with (a + n) by lia. }
  set (filled := _decoded d ++ concat (filler_pair f <$> seqZ (a + n) (frame_ - (a + n))))
    in Hfill.
  assert (give image frame_ d
          = (Returned tt, set_decoded (take 96 (filled ++ [first; second])) d1)) as Hgive.
  { unfold give. unfold mbind at 1. unfold M_bind at 1. unfold get at 1. rewrite Hignore.
    unfold mbind at 1. unfold M_bind at 1. unfold modify at 1. fold d1.
    rewrite Hfrom. rewrite bool_decide_eq_false_2 by lia. rewrite Hpush.
    assert (default BOTH (cv_eyes <$> head [first; second]) = LEFT) as ->.
    { cbn. by injection Hl. }
    assert ((match frame_type d with
             | VIDEO_FRAME_TYPE_2D => fill_one_eye (a + n) frame_ BOTH
             | VIDEO_FRAME_TYPE_3D_LEFT => fill_one_eye (a + n) frame_ LEFT
             | VIDEO_FRAME_TYPE_3D_RIGHT => fill_one_eye (a + n) frame_ RIGHT
             | _ => fill_both_eyes (a + n) frame_ LEFT
             end) = fill_both_eyes (a + n) frame_ LEFT)
      as -> by (by destruct Htype as [-> | ->]).
    unfold mbind at 1. unfold M_bind at 1. rewrite Hfill. unfold_M.
    cbn [_decoded set_decoded]. by rewrite !set_decoded_set_decoded. }
  assert (frame_and_eyes <$> filled ++ [first; second] = eye_pairs a (frame_ - a + 1))
    as Hall.
  { subst filled. rewrite !fmap_app, Hpairs, frame_and_eyes_filler_pairs.
    cbn [fmap list_fmap]. rewrite Hl, Hr.
    replace (frame_ - a + 1) with (n + ((frame_ - (a + n)) + 1)) by lia.
    rewrite eye_pairs_app by lia. rewrite eye_pairs_app by lia.
    replace (a + n + (frame_ - (a + n))) with frame_ by lia.
    rewrite (eye_pairs_cons frame_ 1) by lia.
    change (eye_pairs (frame_ + 1) (1 - 1)) with (@nil (Z * Eyes)).
    by rewrite <- app_assoc. }
  assert (frame_and_eyes <$> take 96 (filled ++ [first; second])
          = eye_pairs a (Z.min 48 (frame_ - a + 1))) as Hheld.
  { rewrite fmap_take, Hall. change 96%nat with (2 * 48)%nat.
    rewrite take_eye_pairs. f_equal. lia. }
  exists (set_decoded (take 96 (filled ++ [first; second])) d1).
  split_and!; [done|done| | |].
  - cbn [_decoded set_decoded]. subst filled. rewrite <- app_assoc, take_app, take_ge by lia.
    by apply prefix_app_r.
  - intros Hfits. cbn [_decoded set_decoded]. exists filled. rewrite Hpush.
    apply take_ge. rewrite <- (length_fmap frame_and_eyes), Hall, length_eye_pairs. lia.
  - intros Hfull v Hv. cbn [_decoded set_decoded] in Hv.
    apply (list_elem_of_fmap_2 frame_and_eyes) in Hv. rewrite Hheld in Hv.
    apply elem_of_eye_pairs in Hv. lia.
Qed.

End Dcpomatic.

(** * The theorems at work

    The tick rate is 96000 a second, as in DCP-o-matic; samples are numbers,
    encoded frames and pictures are named by strings. *)

(** Three samples at 48 kHz that start three ticks before the end of the first
    segment: two of them go to the first segment and one to the second. *)
Lemma write_audio_across_boundary_witness :
  let w := Writer_init Z string string (two_reel_film false false 48000) in
  let w' := (write_audio 96000 Z string string (Some [10; 20; 30]) 287997 w).2 in
  ∃ part0 part1 : list Z,
    sound Z string <$> _reels Z string string w' !! 0%nat = Some part0
    ∧ sound Z string <$> _reels Z string string w' !! 1%nat = Some part1
    ∧ frames Z part0 = 2 ∧ frames Z part1 = 1
    ∧ part0 ++ part1 = [10; 20; 30].
Proof.
  intros w w'.
  destruct (write_audio_across_boundary 96000 Z string string w [10; 20; 30] 287997
              (ReelWriter_new Z string {| from := 0; to := 288000 |})
              (ReelWriter_new Z string {| from := 288000; to := 576000 |}))
    as (part0 & part1 & H0 & H1 & Hf0 & Hf1 & _ & _ & _ & Hexact).
  - reflexivity.
  - reflexivity.
  - reflexivity.
  - reflexivity.
  - split; reflexivity.
  - discriminate.
  - exists part0, part1. destruct Hexact as [_ Hcat]; [by exists 2|].
    split_and!; [exact H0|exact H1|exact Hf0|exact Hf1|exact Hcat].
Defined.

(** At 44100 samples a second three samples last six ticks; when the first
    segment ends two ticks into them, one sample goes to each segment and the
    third one goes nowhere. *)
Lemma write_audio_drops_a_sample_at_44100 :
  let w := Writer_init Z string string (two_reel_film false false 44100) in
  let audio := [10; 20; 30] in
  let time := 287998 in
  let run := write_audio 96000 Z string string (Some audio) time w in
  time < 288000 < time + from_frames 96000 (frames Z audio) 44100
  ∧ run.1 = Returned tt
  ∧ sound Z string <$> _reels Z string string run.2 !! 0%nat = Some [10]
  ∧ sound Z string <$> _reels Z string string run.2 !! 1%nat = Some [20]
  ∧ frames_ceil 96000 (288000 - time) 44100
    + frames_floor 96000 (time + from_frames 96000 (frames Z audio) 44100 - 288000) 44100
    ≠ frames Z audio
  ∧ [10] ++ [20] ≠ audio.
Proof. vm_compute. split_and!; try done. Qed.

(** A queue of three frames of a 3D film that came in out of order: the right
    eye of offset [0], the left eye of offset [1] and the left eye of offset
    [0].  The head of the sorted queue is the left eye of offset [0], which
    continues a segment that nothing has been written to; the right eye of
    the same offset is not before it. *)
Lemma have_sequenced_image_at_queue_head_ready_witness :
  let item n e := {| type := FULL; encoded := Some "j2k"; size_ := 0; reel := 0%nat;
                     frame := n; eyes := e |} in
  let w := set_queue Z string string [item 0 RIGHT; item 1 LEFT; item 0 LEFT]
             (Writer_init Z string string (two_reel_film true false 48000)) in
  ∃ f : QueueItem string,
    head (queue_sort string (_queue Z string string w)) = Some f
    ∧ frame string f = 0 ∧ eyes string f = LEFT
    ∧ (have_sequenced_image_at_queue_head Z string string w).1 = Returned true.
Proof.
  intros item w.
  destruct (have_sequenced_image_at_queue_head_ready Z string string w)
    as (f & Hhead & _ & _ & _ & Hready).
  - discriminate.
  - exists f. assert (Some f = Some (item 0 LEFT)) as [= ->] by (by rewrite <- Hhead).
    split_and!; [exact Hhead|reflexivity|reflexivity|].
    destruct (Hready LastWritten_new eq_refl) as (ready & Hrun & Hiff).
    rewrite Hrun. cbn [fst]. f_equal. apply Hiff. right. right.
    split_and!; reflexivity.
Defined.

(** A 3D film refuses a frame for both eyes and takes one for the left eye:
    frame [80] is the ninth frame of the second segment. *)
Lemma write_video_channel_witness :
  let w := Writer_init Z string string (two_reel_film true false 48000) in
  write_video 96000 Z string string (Some "j2k") 80 BOTH w
    = (Thrown (ProgrammingError 156), w)
  ∧ _queue Z string string (write_video 96000 Z string string (Some "j2k") 80 LEFT w).2
    = [ {| type := FULL; encoded := Some "j2k"; size_ := 0; reel := 1%nat; frame := 8;
           eyes := LEFT |} ].
Proof.
  intros w.
  assert (∀ (j : nat) (rj : ReelWriter Z string),
            (j < 1)%nat → _reels Z string string w !! j = Some rj →
            contains (period Z string rj) 320000 = false) as Hbefore.
  { intros j rj Hj Hrj. destruct j as [|j]; [|lia]. injection Hrj as <-. reflexivity. }
  destruct (write_video_channel 96000 Z string string w (Some "j2k") 80 BOTH)
    as (_ & _ & Hboth).
  destruct (write_video_channel 96000 Z string string w (Some "j2k") 80 LEFT)
    as (_ & _ & Hleft).
  destruct Hboth as [_ Hboth]; [discriminate|].
  destruct Hleft as [_ Hleft]; [discriminate|].
  split.
  - apply (Hboth 1%nat (ReelWriter_new Z string {| from := 288000; to := 576000 |})
             eq_refl eq_refl Hbefore).
    left. split; reflexivity.
  - destruct (Hleft 1%nat (ReelWriter_new Z string {| from := 288000; to := 576000 |})
                eq_refl eq_refl Hbefore) as [_ Hagree].
    rewrite Hagree; [reflexivity|]. left. split; [reflexivity|discriminate].
Defined.

(** Frame [200] is after the last segment of the film.  A 2D film is given it
    for both eyes, so film and channel agree, yet the call fails and queues
    nothing; and given it for the left eye the call fails on the same
    assertion, that of [video_reel], not on the one on the channel. *)
Lemma write_video_outside_segments_fails :
  let w := Writer_init Z string string (two_reel_film false false 48000) in
  three_d (film Z string string w) = false
  ∧ write_video 96000 Z string string (Some "j2k") 200 BOTH w
    = (Thrown (ProgrammingError 977), w)
  ∧ write_video 96000 Z string string (Some "j2k") 200 LEFT w
    = (Thrown (ProgrammingError 977), w)
  ∧ _queue Z string string w = [].
Proof. vm_compute. done. Qed.

(** A film without content versions gets the version ["1"]. *)
Lemma finish_default_content_version_witness :
  let w := Writer_init Z string string (two_reel_film false false 48000) in
  ∃ (w' : Writer Z string string) (cpl : CPL),
    finish Z string string "2.16.0" "abcdef" (config_with_signer true) w = (Returned tt, w')
    ∧ xml_written cpl ∈ _output Z string string w'
    ∧ cpl_content_versions cpl = [ {| label_text := "1" |} ].
Proof.
  intros w.
  destruct (finish_default_content_version Z string string "2.16.0" "abcdef"
              (config_with_signer true) w eq_refl)
    as (w' & cpl & before & Hrun & Hout & _ & Hnone & _).
  exists w', cpl. split_and!; [exact Hrun| |exact (Hnone eq_refl)].
  rewrite Hout. apply elem_of_app. right. apply elem_of_app. right. by left.
Defined.

(** With a signing identity that is not valid neither the constructor nor
    [finish] gets through. *)
Lemma invalid_signer_fails_witness :
  let f := two_reel_film false false 48000 in
  Writer_new Z string string f (config_with_signer false)
    = Thrown (InvalidSignerError "certificate has expired")
  ∧ (finish Z string string "2.16.0" "abcdef" (config_with_signer false)
       (Writer_init Z string string f)).1
    = Thrown (InvalidSignerError "certificate has expired").
Proof.
  intros f.
  destruct (invalid_signer_fails Z string string "2.16.0" "abcdef" f
              (config_with_signer false) (Writer_init Z string string f) eq_refl)
    as (Hnew & w' & out & Hrun & _ & _).
  split; [exact Hnew|]. by rewrite Hrun.
Defined.

(** A subtitle for frames [70] to [75] against a boundary at frame [72].  The
    first segment gets it from frame [70] to frame [70]; the part for the
    second segment, frames [72] to [75], is stored to end at frame [73], and
    that is how [write_hanging_text] writes it to the second segment. *)
Lemma write_text_backs_off_hanging_witness :
  let w := Writer_init Z string string (two_reel_film false false 48000) in
  let p := {| from := 280000; to := 300000 |} in
  let w' := (write_text 96000 Z string string "Hello" OPEN_SUBTITLE None p w).2 in
  let w'' := (write_hanging_text Z string string 1 w').2 in
  texts Z string <$> _reels Z string string w' !! 0%nat =
    Some [ {| tw_text := "Hello"; tw_type := OPEN_SUBTITLE; tw_track := None;
              tw_period := {| from := 280000; to := 280000 |} |} ]
  ∧ _hanging_texts Z string string w' =
      [ {| ht_text := "Hello"; ht_type := OPEN_SUBTITLE; ht_track := None;
           ht_period := {| from := 288000; to := 292000 |} |} ]
  ∧ (∀ h, h ∈ _hanging_texts Z string string w' → to (ht_period string h) < to p)
  ∧ ∃ l, texts Z string <$> _reels Z string string w'' !! 1%nat = Some l
         ∧ {| tw_text := "Hello"; tw_type := OPEN_SUBTITLE; tw_track := None;
              tw_period := {| from := 288000; to := 292000 |} |} ∈ l.
Proof.
  intros w p w' w''.
  destruct (write_text_backs_off_hanging 96000 Z string string "Hello" OPEN_SUBTITLE None p
              subtitle_cursor 0 0 (ReelWriter_new Z string {| from := 0; to := 288000 |})
              w (set_have_subtitles Z string string true w)
              (set_have_subtitles Z string string true w))
    as (w1 & stored & Hrun & Hlocal & Hstored & _ & Hends & Hflush).
  - reflexivity.
  - reflexivity.
  - vm_compute. lia.
  - reflexivity.
  - reflexivity.
  - reflexivity.
  - reflexivity.
  - assert (w' = w1) as Hw' by (subst w'; by rewrite Hrun).
    split_and!; [reflexivity|reflexivity| |].
    + rewrite Hw'. intros h Hh. rewrite Hstored in Hh. destruct (Hends h Hh) as (Hend & _).
      change (to (ht_period string h) + 8000 ≤ 300000) in Hend.
      change (to (ht_period string h) < 300000). lia.
    + destruct (Hflush 1%nat (ReelWriter_new Z string {| from := 288000; to := 576000 |})
                  {| from := 288000; to := 300000 |})
        as (w2 & flushed & Hrun2 & Htexts & Hin & _).
      * lia.
      * reflexivity.
      * reflexivity.
      * vm_compute. discriminate.
      * exists ([] ++ flushed). subst w''. rewrite Hw', Hrun2. split; [exact Htexts|].
        exact Hin.
Defined.

(** A 2D decoder that has frames [4] and [5] drops frame [3]. *)
Lemma give_drops_earlier_frame_witness :
  let d0 := VideoDecoder_new string VIDEO_FRAME_TYPE_2D 24 (1998, 1080) in
  let d1 := (give 96000 string (Some (DecodedProxy string "four")) 4 d0).2 in
  let d2 := (give 96000 string (Some (DecodedProxy string "five")) 5 d1).2 in
  ∃ d3 : VideoDecoder string,
    give 96000 string (Some (DecodedProxy string "three")) 3 d2 = (Returned tt, d3)
    ∧ _decoded string d3 = _decoded string d2
    ∧ cv_frame string <$> _decoded string d3 = [4; 5].
Proof.
  intros d0 d1 d2.
  destruct (give_drops_earlier_frame 96000 string d2
              (Some (DecodedProxy string "three")) 3 6)
    as (d3 & Hrun & _ & Hdecoded & _).
  - reflexivity.
  - reflexivity.
  - exists d3. split_and!; [exact Hrun|exact Hdecoded|]. by rewrite Hdecoded.
Defined.

(** Three fonts of an Interop package all get the identifier of the first. *)
Lemma write_fonts_interop_one_id_witness :
  let w := Writer_init Z string string (two_reel_film false true 48000) in
  let fonts := [ {| font_ptr := 1; font_id := "Arial" |};
                 {| font_ptr := 2; font_id := "Courier" |};
                 {| font_ptr := 3; font_id := "" |} ] in
  ∃ w' : Writer Z string string,
    write_fonts Z string string (read_digits 0) fonts w = (Returned tt, w')
    ∧ Forall (λ f, _fonts Z string string w' !! font_ptr f = Some "Arial") fonts
    ∧ map_img (_fonts Z string string w') = ({[ "Arial" ]} : gset string).
Proof.
  intros w fonts.
  destruct (write_fonts_interop_one_id Z string string (read_digits 0) w
              {| font_ptr := 1; font_id := "Arial" |}
              [ {| font_ptr := 2; font_id := "Courier" |};
                {| font_ptr := 3; font_id := "" |} ] eq_refl)
    as (w' & Hrun & Hall & _ & _ & _ & Himg).
  exists w'. split_and!; [exact Hrun| |exact (Himg eq_refl)].
  apply Forall_forall. intros f Hf. exact (Hall f Hf).
Defined.

(** Three fonts called [Arial] and two without a name: the later ones get
    [Arial_0], [Arial_1] and [font_0]. *)
Lemma write_fonts_smpte_unique_ids_witness :
  let w := Writer_init Z string string (two_reel_film false false 48000) in
  let fonts := [ {| font_ptr := 1; font_id := "Arial" |};
                 {| font_ptr := 2; font_id := "Arial" |};
                 {| font_ptr := 3; font_id := "" |};
                 {| font_ptr := 4; font_id := "Arial" |};
                 {| font_ptr := 5; font_id := "" |} ] in
  ∃ (w' : Writer Z string string) (ids : list string),
    write_fonts Z string string (read_digits 0) fonts w = (Returned tt, w')
    ∧ ids = ["Arial"; "Arial_0"; "font"; "Arial_1"; "font_0"]
    ∧ size (_fonts Z string string w') = 5%nat
    ∧ size (map_img (_fonts Z string string w') : gset string) = 5%nat.
Proof.
  intros w fonts.
  destruct (write_fonts_smpte_unique_ids Z string string (read_digits 0) w fonts)
    as (w' & ids & Hrun & Hlen & Hsize & Hlookup & _ & _ & _ & _ & Himg).
  - reflexivity.
  - reflexivity.
  - apply (bool_decide_unpack _). vm_compute. exact I.
  - vm_compute. discriminate.
  - exists w', ids. split_and!; [exact Hrun| |exact Hsize|by rewrite Himg].
    assert (w' = (write_fonts Z string string (read_digits 0) fonts w).2) as Hw'
      by (by rewrite Hrun).
    destruct ids as [|i0 [|i1 [|i2 [|i3 [|i4 [|]]]]]]; try discriminate Hlen.
    pose proof (Hlookup 0%nat _ eq_refl) as H0.
    pose proof (Hlookup 1%nat _ eq_refl) as H1.
    pose proof (Hlookup 2%nat _ eq_refl) as H2.
    pose proof (Hlookup 3%nat _ eq_refl) as H3.
    pose proof (Hlookup 4%nat _ eq_refl) as H4.
    rewrite Hw' in H0, H1, H2, H3, H4.
    vm_compute in H0, H1, H2, H3, H4.
    injection H0 as <-. injection H1 as <-. injection H2 as <-.
    injection H3 as <-. injection H4 as <-. reflexivity.
Defined.

(** The same font object given twice, to a writer without fonts: the loop
    takes two identifiers, but the table, which has one entry for a font
    object, ends with one entry, and the call fails on its assertion.  And a
    font given in a later call is compared with the identifiers of that call
    only: it gets the identifier that a font of an earlier call has, and the
    call fails on its assertion as the table has more entries than the call
    took identifiers. *)
Lemma write_fonts_same_font_twice :
  let w := Writer_init Z string string (two_reel_film false false 48000) in
  let arial := {| font_ptr := 1; font_id := "Arial" |} in
  let other := {| font_ptr := 2; font_id := "Arial" |} in
  let twice := write_fonts Z string string (read_digits 0) [arial; arial] w in
  let first := write_fonts Z string string (read_digits 0) [arial] w in
  let second := write_fonts Z string string (read_digits 0) [other] first.2 in
  interop (film Z string string w) = false
  ∧ _fonts Z string string w = ∅
  ∧ twice.1 = Thrown (ProgrammingError 925)
  ∧ size (_fonts Z string string twice.2) = 1%nat
  ∧ first.1 = Returned tt
  ∧ second.1 = Thrown (ProgrammingError 925)
  ∧ _fonts Z string string second.2 !! 1%positive = Some "Arial"
  ∧ _fonts Z string string second.2 !! 2%positive = Some "Arial".
Proof. vm_compute. done. Qed.

(** How the identifiers come out: the first font of a name keeps it, the next
    ones get [_0], [_1], [...]; a name that ends in a number counts on from
    it; a font without a name is called ["font"]. *)
Example write_fonts_smpte_suffixes :
  let w := Writer_init Z string string (two_reel_film false false 48000) in
  let fonts := [ {| font_ptr := 1; font_id := "Arial" |};
                 {| font_ptr := 2; font_id := "Arial" |};
                 {| font_ptr := 3; font_id := "Arial" |};
                 {| font_ptr := 4; font_id := "Arial_1" |};
                 {| font_ptr := 5; font_id := "" |};
                 {| font_ptr := 6; font_id := "" |} ] in
  let run := write_fonts Z string string (read_digits 0) fonts w in
  run.1 = Returned tt
  ∧ (λ f, _fonts Z string string run.2 !! font_ptr f) <$> fonts
    = [ Some "Arial"; Some "Arial_0"; Some "Arial_1"; Some "Arial_2";
        Some "font"; Some "font_0" ].
Proof. vm_compute. split; reflexivity. Qed.

(** C3.  A 3D decoder, of content with the two eyes side by side, has frame
    [0] and is given frame [2].  The two fillers for frame [1] are one for
    [LEFT] and one for [RIGHT], in this order, but both are black:
    [fill_both_eyes] tests whether its filler images are empty after it has
    set them to the black image, so it never takes the image decoded last.
    A 2D decoder in the same state fills with the image of frame [0], as
    [fill_one_eye] does. *)
Theorem give_3d_fillers_are_black :
  let black := Some (RawImageProxy string {| image_size := (1998, 1080); image_black := true |}) in
  let zero := Some (DecodedProxy string "zero") in
  let two := Some (DecodedProxy string "two") in
  let d0 := VideoDecoder_new string VIDEO_FRAME_TYPE_3D_LEFT_RIGHT 24 (1998, 1080) in
  let d1 := (give 96000 string zero 0 d0).2 in
  let e0 := VideoDecoder_new string VIDEO_FRAME_TYPE_2D 24 (1998, 1080) in
  let e1 := (give 96000 string zero 0 e0).2 in
  give_from 96000 string d1 = Some 1
  ∧ (give 96000 string two 2 d1).1 = Returned tt
  ∧ _decoded string (give 96000 string two 2 d1).2 =
      [ {| cv_image := zero; cv_eyes := LEFT; cv_part := PART_LEFT_HALF; cv_frame := 0 |};
        {| cv_image := zero; cv_eyes := RIGHT; cv_part := PART_RIGHT_HALF; cv_frame := 0 |};
        {| cv_image := black; cv_eyes := LEFT; cv_part := PART_WHOLE; cv_frame := 1 |};
        {| cv_image := black; cv_eyes := RIGHT; cv_part := PART_WHOLE; cv_frame := 1 |};
        {| cv_image := two; cv_eyes := LEFT; cv_part := PART_LEFT_HALF; cv_frame := 2 |};
        {| cv_image := two; cv_eyes := RIGHT; cv_part := PART_RIGHT_HALF; cv_frame := 2 |} ]
  ∧ _decoded string (give 96000 string two 2 e1).2 =
      [ {| cv_image := zero; cv_eyes := BOTH; cv_part := PART_WHOLE; cv_frame := 0 |};
        {| cv_image := zero; cv_eyes := BOTH; cv_part := PART_WHOLE; cv_frame := 1 |};
        {| cv_image := two; cv_eyes := BOTH; cv_part := PART_WHOLE; cv_frame := 2 |} ].
Proof. vm_compute. split_and!; reflexivity. Qed.

(** ** The writer thread at work *)

(** Four frames of a 2D film, queued out of order for its two segments, are
    written in order. *)
Lemma write_sequenced_writes_all_witness :
  let item (r : nat) (n : Z) :=
    {| type := FULL; encoded := Some "j2k"; size_ := 0; reel := r; frame := n;
       eyes := BOTH |} in
  let w := set_queued_full_in_memory Z string string 4
             (set_queue Z string string [item 0%nat 2; item 1%nat 0; item 0%nat 0; item 0%nat 1]
                (Writer_init Z string string (two_reel_film false false 48000))) in
  ∃ t' : WriterThread Z string string,
    write_sequenced Z string string 4 (WriterThread_new Z string string w)
      = (Returned tt, t')
    ∧ written Z string string t' = [item 0%nat 0; item 0%nat 1; item 0%nat 2; item 1%nat 0]
    ∧ _full_written Z string string t' = 4
    ∧ _queued_full_in_memory Z string string (writer Z string string t') = 0.
Proof.
  intros item w.
  destruct (write_sequenced_writes_all Z string string (WriterThread_new Z string string w)
              [item 0%nat 0; item 0%nat 1; item 0%nat 2; item 1%nat 0])
    as (t' & Hrun & _ & Hwritten & Hfull & _ & _ & Hmem).
  - change [item 0%nat 0; item 0%nat 1; item 0%nat 2; item 1%nat 0]
      with (queue_sort string [item 0%nat 2; item 1%nat 0; item 0%nat 0; item 0%nat 1]).
    symmetry. apply queue_sort_perm.
  - repeat constructor.
  - intros qi Hqi. rewrite !elem_of_cons, elem_of_nil in Hqi.
    destruct Hqi as [->|[->|[->|[->|[]]]]]; cbn; lia.
  - intros [|[|r]] lw; cbn; intros [= <-]; repeat split.
  - exists t'. split_and!; [exact Hrun|exact Hwritten|exact Hfull|exact Hmem].
Defined.

(** Three frames are in memory and one may stay: the two that come last go to
    disk. *)
Lemma push_to_disk_frees_memory_witness :
  let item n := {| type := FULL; encoded := Some "j2k"; size_ := 0; reel := 0%nat;
                   frame := n; eyes := BOTH |} in
  let w := set_encoder_threads Z string string 1 1
             (set_queued_full_in_memory Z string string 3
                (set_queue Z string string [item 3; item 1; item 2]
                   (Writer_init Z string string (two_reel_film false false 48000)))) in
  ∃ t' : WriterThread Z string string,
    push_to_disk Z string string 2 (WriterThread_new Z string string w) = (Returned tt, t')
    ∧ _queued_full_in_memory Z string string (writer Z string string t') = 1
    ∧ on_disk Z string string t' = [item 3; item 2].
Proof.
  intros item w.
  destruct (push_to_disk_frees_memory Z string string (WriterThread_new Z string string w))
    as (t' & pushed & Hrun & Hmin & _ & _ & Hdisk & _).
  - reflexivity.
  - cbn. lia.
  - exists t'. split_and!; [exact Hrun|exact Hmin|].
    pose proof (f_equal snd Hrun) as Ht'. cbn [snd] in Ht'. rewrite <- Ht'. reflexivity.
Defined.

(** A pass of the thread on a queue that lacks frame 0: nothing can be
    written, and two of the three frames go to disk. *)
Lemma thread_pass_leaves_nothing_to_do_witness :
  let item n := {| type := FULL; encoded := Some "j2k"; size_ := 0; reel := 0%nat;
                   frame := n; eyes := BOTH |} in
  let w := set_encoder_threads Z string string 1 1
             (set_queued_full_in_memory Z string string 3
                (set_queue Z string string [item 3; item 1; item 2]
                   (Writer_init Z string string (two_reel_film false false 48000)))) in
  ∃ t' : WriterThread Z string string,
    thread_pass Z string string (WriterThread_new Z string string w) = (Returned tt, t')
    ∧ _queued_full_in_memory Z string string (writer Z string string t') ≤ 1
    ∧ (have_sequenced_image_at_queue_head Z string string (writer Z string string t')).1
      = Returned false.
Proof.
  intros item w.
  destruct (thread_pass_leaves_nothing_to_do 96000 Z string string
              (WriterThread_new Z string string w))
    as (t' & Hrun & Hmem & Hhead & _ & _ & Hmax & _).
  - intros qi Hqi. cbn in Hqi. rewrite !elem_of_cons, elem_of_nil in Hqi.
    destruct Hqi as [->|[->|[->|[]]]]; cbn; lia.
  - reflexivity.
  - cbn. lia.
  - exists t'. split_and!; [exact Hrun| |exact Hhead]. rewrite Hmax in Hmem. exact Hmem.
Defined.

(** ** The other properties at work *)

(** A repeated frame queued on a new writer: the queue still is what the
    thread needs. *)
Lemma Writer_inv_kept_witness :
  let w := Writer_init Z string string (two_reel_film true false 48000) in
  Writer_inv Z string string w
  ∧ Writer_inv Z string string (repeat 96000 Z string string 80 BOTH w).2
  ∧ length (_queue Z string string (repeat 96000 Z string string 80 BOTH w).2) = 2%nat.
Proof.
  intros w. destruct (Writer_inv_kept 96000 Z string string) as [Hinit Hkept].
  destruct (Hkept w (Hinit _)) as (_ & Hrepeat & _).
  split_and!; [apply Hinit|apply Hrepeat|reflexivity].
Defined.

(** The same font object given twice fails the assertion; two font objects
    with the same identifier do not. *)
Lemma write_fonts_smpte_assertion_witness :
  let w := Writer_init Z string string (two_reel_film false false 48000) in
  let arial := {| font_ptr := 1; font_id := "Arial" |} in
  let other := {| font_ptr := 2; font_id := "Arial" |} in
  write_fonts Z string string (read_digits 0) [arial; arial] w
    = (Thrown (ProgrammingError 925),
       (write_fonts Z string string (read_digits 0) [arial; arial] w).2)
  ∧ (write_fonts Z string string (read_digits 0) [arial; other] w).1 = Returned tt.
Proof.
  intros w arial other.
  destruct (write_fonts_smpte_assertion Z string string (read_digits 0) w [arial; arial])
    as (w1 & _ & Hrun1 & _); [reflexivity|discriminate|vm_compute; discriminate|].
  destruct (write_fonts_smpte_assertion Z string string (read_digits 0) w [arial; other])
    as (w2 & _ & _ & Hempty & _); [reflexivity|discriminate|vm_compute; discriminate|].
  split.
  - rewrite Hrun1. reflexivity.
  - apply (Hempty eq_refl). apply (bool_decide_unpack _). vm_compute. exact I.
Defined.

(** A subtitle that starts in the second segment: the cursor moves there. *)
Lemma write_text_finds_segment_witness :
  let w := Writer_init Z string string (two_reel_film false false 48000) in
  let p := {| from := 300000; to := 310000 |} in
  let res := write_text 96000 Z string string "Hello" OPEN_SUBTITLE None p w in
  res.1 = Returned tt
  ∧ _subtitle_reel Z string string res.2 = 1%nat
  ∧ texts Z string <$> _reels Z string string res.2 !! 1%nat =
      Some [ {| tw_text := "Hello"; tw_type := OPEN_SUBTITLE; tw_track := None;
                tw_period := p |} ].
Proof.
  intros w p res.
  destruct (write_text_finds_segment 96000 Z string string "Hello" OPEN_SUBTITLE None p
              subtitle_cursor 0 w (set_have_subtitles Z string string true w))
    as (j & Hj & _ & _ & [[Hrun _]|[Hrun _]]).
  - reflexivity.
  - reflexivity.
  - vm_compute. lia.
  - split_and!; [exact Hrun|reflexivity|reflexivity].
  - discriminate Hrun.
Defined.

(** An empty creator and a given issuer. *)
Lemma finish_creator_issuer_witness :
  let w := Writer_init Z string string (two_reel_film false false 48000) in
  let config := {| signer_chain_valid := true; signer_chain_reason := "";
                   dcp_creator := ""; dcp_issuer := "Example Films" |} in
  ∃ (w' : Writer Z string string) (cpl : CPL),
    finish Z string string "2.16.0" "abcdef" config w = (Returned tt, w')
    ∧ xml_written cpl ∈ _output Z string string w'
    ∧ cpl_creator cpl = "DCP-o-matic 2.16.0 abcdef"
    ∧ cpl_issuer cpl = "Example Films".
Proof.
  intros w config.
  destruct (finish_creator_issuer Z string string "2.16.0" "abcdef" config w eq_refl)
    as (w' & cpl & before & Hrun & Hout & _ & _ & Hcreator & Hissuer & _).
  exists w', cpl. split_and!; [exact Hrun| |exact (Hcreator eq_refl)|].
  - rewrite Hout. apply elem_of_app. right. apply elem_of_app. right. by left.
  - apply Hissuer. discriminate.
Defined.

(** Frame 80 of a 3D film, for both eyes: [repeat] queues the left and the
    right eye of offset 8 of the second segment. *)
Lemma repeat_and_fake_write_queue_witness :
  let w := Writer_init Z string string (two_reel_film true false 48000) in
  let qi e := {| type := REPEAT; encoded := @None string; size_ := 0; reel := 1%nat;
                 frame := 8; eyes := e |} in
  _queue Z string string (repeat 96000 Z string string 80 BOTH w).2 = [qi LEFT; qi RIGHT]
  ∧ can_repeat 96000 Z string string 80 w = (Returned true, w)
  ∧ can_repeat 96000 Z string string 72 w = (Returned false, w).
Proof.
  intros w qi.
  destruct (repeat_and_fake_write_queue 96000 Z string string w 80 BOTH 1
              (ReelWriter_new Z string {| from := 288000; to := 576000 |})
              (λ _ _ _, 0)) as (_ & Hrepeat & _ & Hcan & _).
  - reflexivity.
  - reflexivity.
  - intros j rj Hj Hrj. destruct j as [|j]; [|lia]. injection Hrj as <-. reflexivity.
  - vm_compute. discriminate.
  - destruct (repeat_and_fake_write_queue 96000 Z string string w 72 BOTH 1
                (ReelWriter_new Z string {| from := 288000; to := 576000 |})
                (λ _ _ _, 0)) as (_ & _ & _ & Hcannot & _).
    + reflexivity.
    + reflexivity.
    + intros j rj Hj Hrj. destruct j as [|j]; [|lia]. injection Hrj as <-. reflexivity.
    + vm_compute. discriminate.
    + split_and!; [by rewrite Hrepeat|exact Hcan|exact Hcannot].
Defined.

(** One hour and thirty seconds: nothing is put for the length. *)
Lemma cover_sheet_length_empty_witness :
  cover_sheet_length 1 0 30 = "" ∧ cover_sheet_length 0 59 30 = "59m30s".
Proof.
  destruct (cover_sheet_length_empty 1 0 30) as (Hempty & _); [lia|lia|].
  destruct (cover_sheet_length_empty 0 59 30) as (_ & _ & Hminutes & _); [lia|lia|].
  split; [apply Hempty; lia|]. rewrite Hminutes by lia. reflexivity.
Defined.

(** Frames 4 and 5 are held and frame 8 is given: 6 and 7 are filled in. *)
Lemma give_2d_no_gaps_witness :
  let d0 := VideoDecoder_new string VIDEO_FRAME_TYPE_2D 24 (1998, 1080) in
  let d1 := (give 96000 string (Some (DecodedProxy string "four")) 4 d0).2 in
  let d2 := (give 96000 string (Some (DecodedProxy string "five")) 5 d1).2 in
  ∃ d3 : VideoDecoder string,
    give 96000 string (Some (DecodedProxy string "eight")) 8 d2 = (Returned tt, d3)
    ∧ cv_frame string <$> _decoded string d3 = [4; 5; 6; 7; 8].
Proof.
  intros d0 d1 d2.
  destruct (give_2d_no_gaps 96000 string d2 (Some (DecodedProxy string "eight")) 8 6 4)
    as (d3 & Hrun & Hframes & _).
  - reflexivity.
  - reflexivity.
  - reflexivity.
  - lia.
  - reflexivity.
  - discriminate.
  - vm_compute. discriminate.
  - exists d3. split; [exact Hrun|]. rewrite Hframes. reflexivity.
Defined.

(** The two eyes of frame 0 and then frame 1 are given one after the other:
    the right eye of frame 0 that is held is black. *)
Lemma give_3d_alternate_right_eye_witness :
  let black := Some (RawImageProxy string {| image_size := (1998, 1080); image_black := true |}) in
  let d0 := VideoDecoder_new string VIDEO_FRAME_TYPE_3D_ALTERNATE 24 (1998, 1080) in
  let d1 := (give 96000 string (Some (DecodedProxy string "left 0")) 0 d0).2 in
  let d2 := (give 96000 string (Some (DecodedProxy string "right 0")) 0 d1).2 in
  let d3 := (give 96000 string (Some (DecodedProxy string "left 1")) 1 d2).2 in
  _decoded string d3 =
    [ {| cv_image := Some (DecodedProxy string "left 0"); cv_eyes := LEFT;
         cv_part := PART_WHOLE; cv_frame := 0 |};
      {| cv_image := black; cv_eyes := RIGHT; cv_part := PART_WHOLE; cv_frame := 0 |};
      {| cv_image := Some (DecodedProxy string "left 1"); cv_eyes := LEFT;
         cv_part := PART_WHOLE; cv_frame := 1 |} ]
  ∧ ∀ v, v ∈ _decoded string d3 → cv_eyes string v = RIGHT → cv_image string v = black.
Proof.
  intros black d0 d1 d2 d3. split; [reflexivity|].
  destruct (give_3d_alternate_right_eye 96000 string d2
              (Some (DecodedProxy string "left 1")) 1 eq_refl) as (_ & Hkept & _).
  apply Hkept. intros v Hv Heye. vm_compute in Hv.
  apply list_elem_of_singleton in Hv. subst v. discriminate Heye.
Defined.

(** After a seek to frame 50 of 3D content, frame 50 is given: 96 black
    fillers are held, from index 0 on. *)
Lemma give_3d_after_seek_witness :
  let black := Some (RawImageProxy string {| image_size := (1998, 1080); image_black := true |}) in
  let d0 := seek string 200000 true
              (VideoDecoder_new string VIDEO_FRAME_TYPE_3D_LEFT_RIGHT 24 (1998, 1080)) in
  ∃ d1 : VideoDecoder string,
    give 96000 string (Some (DecodedProxy string "fifty")) 50 d0 = (Returned tt, d1)
    ∧ length (_decoded string d1) = 96%nat
    ∧ Forall (λ v, cv_image string v = black) (_decoded string d1)
    ∧ cv_frame string <$> head (_decoded string d1) = Some 0.
Proof.
  intros black d0.
  destruct (give_3d_after_seek 96000 string d0 (Some (DecodedProxy string "fifty")) 50
              200000) as (d1 & Hrun & _ & Hhead & Hfar).
  - by left.
  - reflexivity.
  - reflexivity.
  - reflexivity.
  - reflexivity.
  - vm_compute. discriminate.
  - lia.
  - destruct Hfar as [Hlength Hblack]; [lia|].
    exists d1. split_and!; [exact Hrun|exact Hlength|exact Hblack|by rewrite Hhead].
Defined.

(** A subtitle over the boundary of the two segments, then one in the second
    segment: the part that was hanging is written there before it. *)
Lemma write_text_writes_hanging_texts_witness :
  let w := Writer_init Z string string (two_reel_film false false 48000) in
  let w1 := (write_text 96000 Z string string "Hello" OPEN_SUBTITLE None
               {| from := 280000; to := 300000 |} w).2 in
  let res := write_text 96000 Z string string "World" OPEN_SUBTITLE None
               {| from := 300000; to := 310000 |} w1 in
  let hanging := {| ht_text := "Hello"; ht_type := OPEN_SUBTITLE; ht_track := None;
                    ht_period := {| from := 288000; to := 292000 |} |} in
  _hanging_texts Z string string w1 = [hanging]
  ∧ _hanging_texts Z string string res.2 = []
  ∧ texts Z string <$> _reels Z string string res.2 !! 1%nat =
      Some [ HangingText_write string hanging;
             {| tw_text := "World"; tw_type := OPEN_SUBTITLE; tw_track := None;
                tw_period := {| from := 300000; to := 310000 |} |} ]
  ∧ ∃ m r', (0 < m ≤ 1)%nat ∧ _reels Z string string res.2 !! m = Some r'
            ∧ HangingText_write string hanging ∈ texts Z string r'.
Proof.
  intros w w1 res hanging.
  destruct (write_text_writes_hanging_texts 96000 Z string string "World" OPEN_SUBTITLE
              None {| from := 300000; to := 310000 |} subtitle_cursor 0 w1
              (set_have_subtitles Z string string true w1))
    as (j & Hj & Hflush).
  - reflexivity.
  - reflexivity.
  - vm_compute. lia.
  - split_and!; [reflexivity|reflexivity|reflexivity|].
    assert (j = 1%nat) as -> by (by injection Hj as <-).
    destruct (Hflush hanging) as [(m & r' & Hm & Hr' & _ & Hin)|[Hleft _]].
    + apply elem_of_cons. by left.
    + by exists m, r'.
    + apply elem_of_nil in Hleft. destruct Hleft.
Defined.

(** Frame 0 of left-right 3D content is held and frame 3 is given: both eyes
    of frames 1 and 2 are filled in. *)
Lemma give_3d_no_gaps_witness :
  let d0 := VideoDecoder_new string VIDEO_FRAME_TYPE_3D_LEFT_RIGHT 24 (1998, 1080) in
  let d1 := (give 96000 string (Some (DecodedProxy string "zero")) 0 d0).2 in
  ∃ d2 : VideoDecoder string,
    give 96000 string (Some (DecodedProxy string "three")) 3 d1 = (Returned tt, d2)
    ∧ frame_and_eyes string <$> _decoded string d2
      = [(0, LEFT); (0, RIGHT); (1, LEFT); (1, RIGHT); (2, LEFT); (2, RIGHT);
         (3, LEFT); (3, RIGHT)].
Proof.
  intros d0 d1.
  destruct (give_3d_no_gaps 96000 string d1 (Some (DecodedProxy string "three")) 3 0 1)
    as (d2 & Hrun & Hheld & _).
  - by left.
  - reflexivity.
  - reflexivity.
  - lia.
  - lia.
  - lia.
  - exists d2. split; [exact Hrun|]. rewrite Hheld. reflexivity.
Defined.
